(** * A shallow embedding of the scm Scheme interpreter

    The development follows the Go sources package by package.  The
    definitions come first:

    - [Types]      : package [types], the type enum and its supertype walk;
    - [VM]         : package [scm], the first virtual machine ([VM.Execute],
                     frames and scopes on a stack of scopes);
    - [Values]     : package [scheme], the values the primitives work on;
    - [Numbers]    : [Number] equality and the builtin [+];
    - [Strings]    : [substring], with the UTF-8 conversions it goes through;
    - [ByteVectors]: bytevectors as references into a store of arrays;
    - [Globals]    : the symbol table and the embedder's globals;
    - [Compile]    : the AST and its [Bytecode] lowering.

    More of the same packages follows them:

    - [ByteVectorOps]: the other bytevector primitives;
    - [StringOps]    : the other string primitives and [StringToScheme];
    - [NumberOps]    : the builtin [*];
    - [TypeOps]      : the type descriptors with [IsA] and [IsKindOf].

    The facts proved about each follow in the modules [TypesFacts],
    [VMFacts], [NumbersFacts], [StringsFacts], [ByteVectorsFacts],
    [GlobalsFacts] and [CompileFacts], and then [ByteVectorOpsFacts],
    [StringOpsFacts], [NumberOpsFacts], [VMRunFacts], [TypeOpsFacts],
    [GlobalOpsFacts] and [CompileOpsFacts].

    Go's [int] and [int64] are modelled as [Z], with the 64-bit wrap-around
    written out where the source computes on values that can overflow. *)

From Stdlib Require Import ZArith Lia List Bool Ascii String.
From stdpp Require Import gmap strings list.

Set Warnings "-register-all".

Open Scope Z_scope.

(** 64-bit two's complement wrap-around of Go's [int64] arithmetic. *)
Definition wrap64 (z : Z) : Z := (z + 2 ^ 63) mod 2 ^ 64 - 2 ^ 63.

Definition in_int64 (z : Z) : Prop := - 2 ^ 63 <= z < 2 ^ 63.

(** The largest allocation the Go run-time accepts on a 64-bit platform
    with 48-bit heap addresses (linux/amd64): [make] of a slice whose
    elements take more bytes than this panics with "makeslice: len out
    of range".  Up to the limit the machine is taken to have the
    memory. *)
Definition maxAlloc : Z := 2 ^ 48.

(** * Package [types] *)

Module Types.

(** [type Enum int] with its sixteen known values. *)
Inductive Enum : Set :=
| EnumAny
| EnumBoolean
| EnumString
| EnumCharacter
| EnumSymbol
| EnumBytevector
| EnumNumber
| EnumExactInteger
| EnumInexactInteger
| EnumExactFloat
| EnumInexactFloat
| EnumPort
| EnumLambda
| EnumPair
| EnumList
| EnumVector.

Definition all_enums : list Enum :=
  [ EnumAny; EnumBoolean; EnumString; EnumCharacter; EnumSymbol;
    EnumBytevector; EnumNumber; EnumExactInteger; EnumInexactInteger;
    EnumExactFloat; EnumInexactFloat; EnumPort; EnumLambda; EnumPair;
    EnumList; EnumVector ].

#[global] Instance Enum_eq_dec : EqDecision Enum.
Proof. solve_decision. Defined.

Definition Enum_eqb (a b : Enum) : bool := bool_decide (a = b).

(** [func (e Enum) Super() Enum] *)
Definition Super (e : Enum) : Enum :=
  match e with
  | EnumAny | EnumBoolean | EnumString | EnumCharacter | EnumSymbol
  | EnumBytevector | EnumNumber | EnumPort | EnumLambda | EnumPair
  | EnumList | EnumVector => EnumAny
  | EnumExactInteger | EnumExactFloat => EnumNumber
  | EnumInexactInteger => EnumExactInteger
  | EnumInexactFloat => EnumExactFloat
  end.

(** The inner loop of [Unify]:
    [for oIter := o; ; oIter = oIter.Super()], which returns [eIter] when
    the two iterators meet and breaks at [EnumAny].  [None] is running out
    of fuel, [Some None] the [break], [Some (Some r)] the [return r]. *)
Fixpoint unify_inner (fuel : nat) (eIter oIter : Enum)
  : option (option Enum) :=
  match fuel with
  | O => None
  | S fuel' =>
      if Enum_eqb eIter oIter then Some (Some eIter)
      else if Enum_eqb oIter EnumAny then Some None
      else unify_inner fuel' eIter (Super oIter)
  end.

(** The outer loop of [Unify]:
    [for eIter := e; ; eIter = eIter.Super()].  Both loops are unbounded
    in the source, the model bounds each by [fuel] iterations. *)
Fixpoint unify_outer (fuel : nat) (inner_fuel : nat) (eIter o : Enum)
  : option Enum :=
  match fuel with
  | O => None
  | S fuel' =>
      match unify_inner inner_fuel eIter o with
      | None => None
      | Some (Some r) => Some r
      | Some None => unify_outer fuel' inner_fuel (Super eIter) o
      end
  end.

(** [func (e Enum) Unify(o Enum) Enum], with [fuel] iterations allowed
    to each loop. *)
Definition Unify (fuel : nat) (e o : Enum) : option Enum :=
  unify_outer fuel fuel e o.

(** ** The supertype tree, stated independently of [Unify] *)

(** Distance to the root [EnumAny]. *)
Definition depth (e : Enum) : nat :=
  match e with
  | EnumAny => 0
  | EnumInexactInteger | EnumInexactFloat => 3
  | EnumExactInteger | EnumExactFloat => 2
  | _ => 1
  end%nat.

(** [ancestor a e]: [a] is reached from [e] by zero or more [Super]
    steps. *)
Inductive ancestor (a : Enum) : Enum -> Prop :=
| ancestor_refl : ancestor a a
| ancestor_step e : ancestor a (Super e) -> ancestor a e.

Fixpoint ancestorb_aux (n : nat) (a e : Enum) : bool :=
  Enum_eqb a e ||
  match n with
  | O => false
  | S n' => negb (Enum_eqb e EnumAny) && ancestorb_aux n' a (Super e)
  end.

Definition ancestorb (a e : Enum) : bool := ancestorb_aux (depth e) a e.

(** [r] is the least common ancestor of [a] and [b]: a common ancestor
    below every other common ancestor. *)
Definition is_lca (r a b : Enum) : Prop :=
  ancestor r a /\ ancestor r b /\
  forall c, ancestor c a -> ancestor c b -> ancestor c r.

End Types.

(** * Package [scm]: the first virtual machine *)

Module VM.

(** [type Operand int] *)
Inductive Operand : Set :=
| OpConst | OpDefine | OpLambda | OpLabel | OpLocal | OpGlobal
| OpLocalSet | OpGlobalSet | OpPushF | OpPopF | OpPushS | OpPopS
| OpCall | OpReturn | OpHalt.

(** A [Native] is a Go closure [func(vm *VM, args []Value) (Value, error)].
    Values hold it by reference: a lambda names its native by a key and
    the closures themselves are a table, [natives] below. *)
Definition NativeId : Set := nat.

(** [type Lambda struct].  [LambdaCode] is the field [Code], the slice [vm.compiled[I:J]], kept as
    its bounds; it is [None] for the nil slice of a builtin. *)
Record Lambda : Set := mkLambda {
  MinArgs : Z;
  MaxArgs : Z;
  Native : option NativeId;
  LambdaCode : option (Z * Z)
}.

(** [type Frame struct].  [Next] only ever receives a former [fp]. *)
Record Frame : Set := mkFrame {
  Next : nat;
  FLambda : option Lambda;
  Toplevel : bool
}.

(** [type Value interface]; [Nil] is the nil interface value. *)
Inductive Value : Set :=
| Nil
| VCons (car cdr : Value)
| VVector (elements : list Value)
| VIdentifier (name : string)
| VNumber (n : Z)
| VBoolean (b : bool)
| VString (s : string)
| VCharacter (c : Z)
| VLambda (l : Lambda)
| VFrame (f : Frame).

(** [type Identifier struct] *)
Record Identifier : Set := mkIdentifier {
  Name : string;
  Global : Value
}.

(** [type Instr struct].  [Sym] is a [*Identifier]; identifiers are
    interned, one per name, so the pointer is kept as the name it was
    interned under and [None] is the nil pointer. *)
Record Instr : Set := mkInstr {
  Op : Operand;
  V : Value;
  I : Z;
  J : Z;
  Sym : option string
}.

(** [type Code []*Instr] *)
Definition Code : Set := list Instr.

(** [type VM struct] (the unused [env] and [lambdas] fields are left
    out).  [pc] and [fp] are only ever assigned lengths and former
    values of themselves. *)
Record VM : Type := mkVM {
  compiled : Code;
  pc : nat;
  fp : nat;
  accu : Value;
  stack : list (list Value);
  symbols : gmap string Identifier
}.

Definition set_pc (vm : VM) (n : nat) : VM :=
  mkVM (compiled vm) n (fp vm) (accu vm) (stack vm) (symbols vm).
Definition set_fp (vm : VM) (n : nat) : VM :=
  mkVM (compiled vm) (pc vm) n (accu vm) (stack vm) (symbols vm).
Definition set_accu (vm : VM) (v : Value) : VM :=
  mkVM (compiled vm) (pc vm) (fp vm) v (stack vm) (symbols vm).
Definition set_stack (vm : VM) (s : list (list Value)) : VM :=
  mkVM (compiled vm) (pc vm) (fp vm) (accu vm) s (symbols vm).
Definition set_symbols (vm : VM) (m : gmap string Identifier) : VM :=
  mkVM (compiled vm) (pc vm) (fp vm) (accu vm) (stack vm) m.

(** The errors [Execute] returns, one constructor per [fmt.Errorf]; an
    error returned by a native is passed on as [ErrNative]. *)
Inductive Error : Set :=
| ErrInvalidFunction (v : Value)
| ErrTooFewArguments
| ErrTooManyArguments
| ErrCall (l : Lambda)
| ErrNotImplemented (op : Operand)
| ErrNative (msg : string).

(** [func (vm *VM) Intern(val string) *Identifier] *)
Definition Intern (vm : VM) (val : string) : VM * Identifier :=
  match symbols vm !! val with
  | Some id => (vm, id)
  | None =>
      let id := mkIdentifier val Nil in
      (set_symbols vm (<[val := id]> (symbols vm)), id)
  end.

(** [func (vm *VM) DefineBuiltin(name, minArgs, maxArgs, native)] *)
Definition DefineBuiltin (vm : VM) (name : string)
    (minArgs maxArgs : Z) (native : NativeId) : VM :=
  let '(vm1, sym) := Intern vm name in
  set_symbols vm1
    (<[name := mkIdentifier (Name sym)
                 (VLambda (mkLambda minArgs maxArgs (Some native) None))]>
       (symbols vm1)).

(** [func (vm *VM) pushScope(size int)]; [make([]Value, size, size)]
    panics on a negative size and on a size whose elements (an
    interface value is two words, 16 bytes) take more than [maxAlloc];
    both are [None]. *)
Definition pushScope (vm : VM) (size : Z) : option VM :=
  if (size <? 0) || (maxAlloc <? 16 * size) then None
  else Some (set_stack vm (stack vm ++ [replicate (Z.to_nat size) Nil])).

(** [func (vm *VM) popScope()] *)
Definition popScope (vm : VM) : option VM :=
  match stack vm with
  | [] => None
  | _ => Some (set_stack vm (take (length (stack vm) - 1) (stack vm)))
  end.

(** The check both [pushFrame] and [popFrame] start with: the scope at
    [fp] holds exactly one value and it is a [*Frame].  [None] is one of
    the two panics (or the index panic of [vm.stack[vm.fp]]). *)
Definition frame_at (vm : VM) : option Frame :=
  match stack vm !! fp vm with
  | Some [VFrame f] => Some f
  | _ => None
  end.

(** [func (vm *VM) pushFrame(lambda *Lambda, toplevel bool) *Frame];
    [None] is a panic. *)
Definition pushFrame (vm : VM) (lambda : option Lambda) (toplevel : bool)
  : option VM :=
  let valid :=
    if (fp vm <? length (stack vm))%nat
    then match frame_at vm with Some _ => true | None => false end
    else true in
  if valid then
    let f := mkFrame (fp vm) lambda toplevel in
    let vm1 := set_fp vm (length (stack vm)) in
    (* pushScope(1); vm.stack[vm.fp][0] = f *)
    Some (set_stack vm1 (stack vm1 ++ [[VFrame f]]))
  else None.

(** [func (vm *VM) popFrame()]; [None] is a panic. *)
Definition popFrame (vm : VM) : option VM :=
  match frame_at vm with
  | Some frame =>
      Some (set_fp (set_stack vm (take (fp vm) (stack vm))) (Next frame))
  | None => None
  end.

(** The outcome of one turn of the loop of [Execute]. *)
Inductive StepResult : Type :=
| Continue (vm : VM)
| Return (vm : VM) (v : Value)
| Fail (vm : VM) (e : Error)
| Panic.

(** [vm.stack[i][j] = v]: both indices are bounds-checked by Go. *)
Definition stack_set (s : list (list Value)) (i j : Z) (v : Value)
  : option (list (list Value)) :=
  if (i <? 0) || (j <? 0) then None
  else match s !! Z.to_nat i with
       | None => None
       | Some scope =>
           if (Z.to_nat j <? length scope)%nat
           then Some (<[Z.to_nat i := <[Z.to_nat j := v]> scope]> s)
           else None
       end.

(** What the [OpCall] case decides before it runs the native: a panic,
    an error, or the call of a native on the argument scope. *)
Inductive CallDispatch : Type :=
| DispatchPanic
| DispatchFail (e : Error)
| DispatchInvoke (native : NativeId) (args : list Value).

(** The [OpCall] case up to the call [frame.Lambda.Native(vm, args)]. *)
Definition call_dispatch (vm : VM) : CallDispatch :=
  match stack vm !! fp vm with
  | None => DispatchPanic
  | Some [] => DispatchPanic
  | Some (v :: _) =>
      match v with
      | VFrame (mkFrame _ (Some lambda) _) =>
          (* stackTop := len(vm.stack) - 1; args := vm.stack[stackTop] *)
          match last (stack vm) with
          | None => DispatchPanic
          | Some args =>
              if Z.of_nat (length args) <? MinArgs lambda
              then DispatchFail ErrTooFewArguments
              else if Z.of_nat (length args) >? MaxArgs lambda
              then DispatchFail ErrTooManyArguments
              else match Native lambda with
                   | Some native => DispatchInvoke native args
                   | None => DispatchFail (ErrCall lambda)
                   end
          end
      | _ => DispatchFail (ErrInvalidFunction (accu vm))
      end
  end.

Section Execute.

(** The native closures.  They are taken to compute from their
    arguments only: a native gets the VM but the ones of this version
    (output and string primitives) leave its registers and stack
    alone. *)
Variable natives : NativeId -> list Value -> Value + string.

(** One turn of [for { instr := code[vm.pc]; vm.pc++; switch ... }]. *)
Definition step (code : Code) (vm0 : VM) : StepResult :=
  match code !! pc vm0 with
  | None => Panic
  | Some instr =>
      let vm := set_pc vm0 (S (pc vm0)) in
      match Op instr with
      | OpConst => Continue (set_accu vm (V instr))
      | OpDefine =>
          match Sym instr with
          | Some name =>
              match symbols vm !! name with
              | Some id =>
                  Continue (set_symbols vm
                    (<[name := mkIdentifier (Name id) (accu vm)]>
                       (symbols vm)))
              | None => Panic
              end
          | None => Panic
          end
      | OpLambda =>
          if (0 <=? I instr) && (I instr <=? J instr)
             && (J instr <=? Z.of_nat (length (compiled vm)))
          then Continue (set_accu vm
                 (VLambda (mkLambda 1 1 None (Some (I instr, J instr)))))
          else Panic
      | OpGlobal =>
          match Sym instr with
          | Some name =>
              match symbols vm !! name with
              | Some id => Continue (set_accu vm (Global id))
              | None => Panic
              end
          | None => Panic
          end
      | OpLocalSet =>
          match stack_set (stack vm) (Z.of_nat (fp vm) + 1 + I instr)
                  (J instr) (accu vm) with
          | Some s => Continue (set_stack vm s)
          | None => Panic
          end
      | OpPushF =>
          match accu vm with
          | VLambda lambda =>
              match pushFrame vm (Some lambda)
                      (negb (I instr =? 0)) with
              | Some vm' => Continue vm'
              | None => Panic
              end
          | _ => Fail vm (ErrInvalidFunction (accu vm))
          end
      | OpPushS =>
          match pushScope vm (I instr) with
          | Some vm' => Continue vm'
          | None => Panic
          end
      | OpCall =>
          match call_dispatch vm with
          | DispatchPanic => Panic
          | DispatchFail e => Fail vm e
          | DispatchInvoke native args =>
              match natives native args with
              | inr msg => Fail vm (ErrNative msg)
              | inl v =>
                  match popFrame (set_accu vm v) with
                  | Some vm' => Continue vm'
                  | None => Panic
                  end
              end
          end
      | OpHalt =>
          match popFrame vm with
          | Some vm' => Return vm' (accu vm')
          | None => Panic
          end
      | op => Fail vm (ErrNotImplemented op)
      end
  end.

(** [func (vm *VM) Execute(code Code) (Value, error)], the loop
    bounded by [fuel] turns; [None] is running out of fuel. *)
Fixpoint run (fuel : nat) (code : Code) (vm : VM) : option StepResult :=
  match fuel with
  | O => None
  | S fuel' =>
      match step code vm with
      | Continue vm' => run fuel' code vm'
      | r => Some r
      end
  end.

Definition Execute (fuel : nat) (code : Code) (vm : VM)
  : option StepResult :=
  match pushFrame vm None true with
  | Some vm1 => run fuel code vm1
  | None => Some Panic
  end.

(** The states [Execute] goes through on a machine as [NewVM] returns
    it (empty stack, [fp = 0]): the one after the first [pushFrame],
    and every state a turn of the loop continues with. *)
Inductive reachable (code : Code) (vm0 : VM) : VM -> Prop :=
| reach_entry vm1 :
    pushFrame vm0 None true = Some vm1 -> reachable code vm0 vm1
| reach_step vm vm' :
    reachable code vm0 vm -> step code vm = Continue vm' ->
    reachable code vm0 vm'.

End Execute.

(** A machine as [NewVM] leaves it, whatever builtins are defined. *)
Definition fresh (vm : VM) : Prop := stack vm = [] /\ fp vm = 0%nat.

(** The frame invariant: [fp] is 0 or indexes a scope that holds
    exactly one value, a [Frame]. *)
Definition frame_inv (vm : VM) : Prop :=
  fp vm = 0%nat \/ exists f, stack vm !! fp vm = Some [VFrame f].

(** The frames linked from [fp] down to the toplevel frame at index 0,
    whose lambda is nil. *)
Inductive frames (s : list (list Value)) : nat -> Prop :=
| frames_top f :
    s !! 0%nat = Some [VFrame f] -> FLambda f = None -> Next f = 0%nat ->
    frames s 0
| frames_link n f :
    s !! n = Some [VFrame f] -> (Next f < n)%nat -> frames s (Next f) ->
    frames s n.

(** Code whose [OpLocalSet] instructions address a scope above the
    frame: [vm.stack[vm.fp+1+instr.I]] with [instr.I >= 0]. *)
Definition local_sets_above_frame (code : Code) : Prop :=
  forall instr, instr ∈ code -> Op instr = OpLocalSet -> 0 <= I instr.

End VM.

(** * Package [scheme]: values *)

(** What a Go function of the interpreter comes back with: a value, an
    error value, or a run-time panic (an index or slice bound out of range,
    a nil dereference). *)
Inductive Result (E A : Type) : Type :=
| Ok (a : A)
| Err (e : E)
| Panic.
Arguments Ok {E A} a.
Arguments Err {E A} e.
Arguments Panic {E A}.

Module Values.

(** The dynamic type of [Number.Value]: an [int64] or a [*big.Int]. *)
Inductive NumValue : Set :=
| NInt64 (v : Z)
| NBigInt (v : Z).

(** [type Number struct] *)
Record Number : Set := mkNumber {
  Base : Z;
  NValue : NumValue
}.

(** A bytevector is a Go slice, a reference to a backing array; the
    builtins allocate a fresh array for every bytevector they make and
    never re-slice one, so the value is the address of its array. *)
Definition loc : Set := nat.

(** [type Value interface], with the variants the primitives below tell
    apart; [Nil] is the nil interface value. *)
Inductive Value : Set :=
| Nil
| VBoolean (b : bool)
| VCharacter (r : Z)
| VNumber (n : Number)
| VString (s : string)
| VByteVector (v : loc)
| VIdentifier (name : string).

(** The mathematical integer a number stands for. *)
Definition num_val (n : Number) : Z :=
  match NValue n with
  | NInt64 v => v
  | NBigInt v => v
  end.

(** The argument [value interface{}] of [NewNumber], by dynamic type. *)
Inductive NumArg : Set :=
| ArgInt (v : Z)
| ArgInt64 (v : Z)
| ArgBigInt (v : Z).

(** [func NewNumber(base int, value interface{}) Number] *)
Definition NewNumber (base : Z) (value : NumArg) : Number :=
  match value with
  | ArgInt v => mkNumber base (NInt64 v)
  | ArgInt64 v => mkNumber base (NInt64 v)
  | ArgBigInt v => mkNumber base (NBigInt v)
  end.

(** Modelled from the spec: [Int64], the conversion of an argument to an
    [int64] the primitives call, is not among the sources; it fails when
    the value is not a number and yields the value of an [int64]
    number (for a big integer, its low 64 bits). *)
Definition Int64 (v : Value) : option Z :=
  match v with
  | VNumber n =>
      match NValue n with
      | NInt64 z => Some z
      | NBigInt z => Some (wrap64 z)
      end
  | _ => None
  end.

(** An exact integer held as [int64]. *)
Definition int (z : Z) : Value := VNumber (mkNumber 0 (NInt64 z)).

(** An exact integer held as [int64] with a base: the pair is the base
    (2, 8, 10, 16 of a literal with a radix prefix, 0 otherwise) and
    the value. *)
Definition int_in_base (bz : Z * Z) : Value :=
  VNumber (mkNumber (fst bz) (NInt64 (snd bz))).

(** A value that is no number. *)
Definition not_number (v : Value) : bool :=
  match v with
  | VNumber _ => false
  | _ => true
  end.

End Values.

(** * Package [scheme]: numbers *)

Module Numbers.
Import Values.

(** [func (n Number) Equal(o Value) bool]; [big.NewInt] and [Cmp]
    compare the integers themselves. *)
Definition Equal (n : Number) (o : Value) : bool :=
  match o with
  | VNumber on =>
      match NValue n with
      | NInt64 v =>
          match NValue on with
          | NInt64 ov => v =? ov
          | NBigInt ov =>
              match ov ?= v with Eq => true | _ => false end
          end
      | NBigInt v =>
          match NValue on with
          | NInt64 ov => match v ?= ov with Eq => true | _ => false end
          | NBigInt ov => match v ?= ov with Eq => true | _ => false end
          end
      end
  | _ => false
  end.

Inductive Error : Set :=
| InvalidArgument (arg : Value)   (* "+: invalid argument %v" *)
| InvalidAgument (num : Number).  (* "+: invalid agument %v" *)

(** The loop of the builtin [+]: [sum += int64(v)] wraps around. *)
Fixpoint plus_loop (sum : Z) (args : list Value) : Result Error Value :=
  match args with
  | [] => Ok (VNumber (NewNumber 0 (ArgInt64 sum)))
  | arg :: rest =>
      match arg with
      | VNumber num =>
          match NValue num with
          | NInt64 v => plus_loop (wrap64 (sum + v)) rest
          | _ => Err (InvalidAgument num)
          end
      | _ => Err (InvalidArgument arg)
      end
  end.

(** [numberBuiltins] entry ["+"] *)
Definition plus (args : list Value) : Result Error Value :=
  plus_loop 0 args.

(** The exact sum of a list of integers. *)
Definition sumZ (zs : list Z) : Z := fold_right Z.add 0 zs.

End Numbers.

(** * Package [scheme]: strings *)

Module Strings.
Import Values.

(** A Go [string] is a sequence of bytes; [bytes_of] reads them. *)
Definition byte_of (c : ascii) : Z := Z.of_N (N_of_ascii c).
Definition ascii_of (b : Z) : ascii := ascii_of_N (Z.to_N (b mod 256)).
Definition bytes_of (s : string) : list Z :=
  map byte_of (list_ascii_of_string s).
Definition string_of_bytes (l : list Z) : string :=
  string_of_list_ascii (map ascii_of l).

Definition runeError : Z := 0xFFFD.

(** The conversion [[]rune(s)]: the run-time's UTF-8 decoder, one rune
    per well-formed sequence and [runeError] for every other byte. *)
Fixpoint runes (p : list Z) : list Z :=
  match p with
  | [] => []
  | b0 :: t0 =>
      let cont b := (0x80 <=? b) && (b <=? 0xBF) in
      let bad := runeError :: runes t0 in
      if b0 <? 0x80 then b0 :: runes t0
      else if (0xC0 <=? b0) && (b0 <? 0xE0) then
        match t0 with
        | b1 :: t1 =>
            let r := Z.lor (Z.shiftl (Z.land b0 0x1F) 6) (Z.land b1 0x3F) in
            if cont b1 && (0x7F <? r) then r :: runes t1 else bad
        | _ => bad
        end
      else if (0xE0 <=? b0) && (b0 <? 0xF0) then
        match t0 with
        | b1 :: b2 :: t2 =>
            let r := Z.lor (Z.lor (Z.shiftl (Z.land b0 0x0F) 12)
                                  (Z.shiftl (Z.land b1 0x3F) 6))
                           (Z.land b2 0x3F) in
            if cont b1 && cont b2 && (0x7FF <? r)
               && negb ((0xD800 <=? r) && (r <=? 0xDFFF))
            then r :: runes t2 else bad
        | _ => bad
        end
      else if (0xF0 <=? b0) && (b0 <? 0xF8) then
        match t0 with
        | b1 :: b2 :: b3 :: t3 =>
            let r := Z.lor (Z.lor (Z.lor (Z.shiftl (Z.land b0 0x07) 18)
                                         (Z.shiftl (Z.land b1 0x3F) 12))
                                  (Z.shiftl (Z.land b2 0x3F) 6))
                           (Z.land b3 0x3F) in
            if cont b1 && cont b2 && cont b3 && (0xFFFF <? r)
               && (r <=? 0x10FFFF)
            then r :: runes t3 else bad
        | _ => bad
        end
      else bad
  end.

(** The run-time's UTF-8 encoder of one rune. *)
Definition encoderune (r : Z) : list Z :=
  let three x :=
    [ Z.lor 0xE0 (Z.shiftr x 12);
      Z.lor 0x80 (Z.land (Z.shiftr x 6) 0x3F);
      Z.lor 0x80 (Z.land x 0x3F) ] in
  if (0 <=? r) && (r <=? 0x7F) then [r]
  else if (0 <=? r) && (r <=? 0x7FF) then
    [ Z.lor 0xC0 (Z.shiftr r 6); Z.lor 0x80 (Z.land r 0x3F) ]
  else if (r <? 0) || (0x10FFFF <? r)
          || ((0xD800 <=? r) && (r <=? 0xDFFF)) then three runeError
  else if r <=? 0xFFFF then three r
  else
    [ Z.lor 0xF0 (Z.shiftr r 18);
      Z.lor 0x80 (Z.land (Z.shiftr r 12) 0x3F);
      Z.lor 0x80 (Z.land (Z.shiftr r 6) 0x3F);
      Z.lor 0x80 (Z.land r 0x3F) ].

(** The conversion [string(runes)]. *)
Definition string_of_runes (rs : list Z) : string :=
  string_of_bytes (concat (map encoderune rs)).

Inductive Error : Set :=
| InvalidString (v : Value)
| InvalidStartIndex (v : Value)
| InvalidEndIndex (v : Value)
| InvalidIndices (start end_ len : Z).

(** The size classes of the Go allocator (runtime/sizeclasses.go), in
    bytes. *)
Definition size_classes : list Z :=
  [ 8; 16; 24; 32; 48; 64; 80; 96; 112; 128; 144; 160; 176; 192; 208;
    224; 240; 256; 288; 320; 352; 384; 416; 448; 480; 512; 576; 640; 704;
    768; 896; 1024; 1152; 1280; 1408; 1536; 1792; 2048; 2304; 2688; 3072;
    3200; 3456; 4096; 4864; 5120; 5376; 6144; 6528; 6784; 6912; 8192;
    9472; 9728; 10240; 10880; 12288; 13568; 14336; 16384; 18432; 19072;
    20480; 21760; 24576; 27264; 28672; 32768 ].

(** The run-time's [roundupsize]: the size of the block the allocator
    hands out for a request of [size] bytes, the smallest size class
    that holds it and whole pages of 8192 bytes above the largest
    class. *)
Definition roundupsize (size : Z) : Z :=
  match List.find (fun c => size <=? c) size_classes with
  | Some c => c
  | None => (size + 8191) / 8192 * 8192
  end.

(** The capacity of the slice [[]rune(s)] of [n] runes in [substring],
    where it does not escape: the conversion fills a buffer of 32 runes
    on the stack when the runes fit, and otherwise allocates a block of
    [roundupsize] bytes.  Either is zero past the runes. *)
Definition rune_cap (n : nat) : nat :=
  if (n <=? 32)%nat then 32%nat
  else Z.to_nat (roundupsize (4 * Z.of_nat n) / 4).

(** The slice expression [str[start:end]] over the runes of the string.
    Go checks the bounds against the capacity of the slice, not its
    length: up to the capacity the slice reads the zero runes that
    follow the runes of the string, and past it the run-time panics,
    which is [None]. *)
Definition slice (str : list Z) (start end_ : Z) : option (list Z) :=
  let cap := rune_cap (length str) in
  let backing := str ++ replicate (cap - length str) 0 in
  if (0 <=? start) && (start <=? end_) && (end_ <=? Z.of_nat cap)
  then Some (take (Z.to_nat (end_ - start)) (drop (Z.to_nat start) backing))
  else None.

(** [stringBuiltins] entry ["substring"]; an index into [args] past its
    end is a panic. *)
Definition substring (args : list Value) : Result Error Value :=
  match args !! 0%nat with
  | None => Panic
  | Some (VString strv) =>
      let str := runes (bytes_of strv) in
      match args !! 1%nat with
      | None => Panic
      | Some a1 =>
          match Int64 a1 with
          | None => Err (InvalidStartIndex a1)
          | Some start =>
              match args !! 2%nat with
              | None => Panic
              | Some a2 =>
                  match Int64 a2 with
                  | None => Err (InvalidEndIndex a2)
                  | Some end_ =>
                      let len_strv := Z.of_nat (String.length strv) in
                      if (start <? 0) || (end_ <? start)
                         || (end_ >? len_strv)
                      then Err (InvalidIndices start end_ len_strv)
                      else match slice str start end_ with
                           | Some rs => Ok (VString (string_of_runes rs))
                           | None => Panic
                           end
                  end
              end
          end
      end
  | Some a0 => Err (InvalidString a0)
  end.

(** The string of [n] copies of the bytes [l]. *)
Fixpoint repeat_bytes (n : nat) (l : list Z) : list Z :=
  match n with
  | O => []
  | S n' => l ++ repeat_bytes n' l
  end.

End Strings.

(** * Package [scheme]: bytevectors *)

Module ByteVectors.
Import Values.

(** The backing arrays of the bytevectors, by address. *)
Abbreviation Store := (gmap loc (list Z)).

(** The bytes a bytevector value refers to. *)
Definition bytes (h : Store) (v : loc) : list Z := default [] (h !! v).

Definition len (h : Store) (v : loc) : Z := Z.of_nat (length (bytes h v)).

(** [func (v ByteVector) Eq(o Value) bool] *)
Definition Eq (h : Store) (v : loc) (o : Value) : bool :=
  match o with
  | VByteVector ov =>
      if (len h v =? 0) && (len h ov =? 0) then true else false
  | _ => false
  end.

(** The loop [for idx, vv := range v { if vv != ov[idx] ... }]. *)
Fixpoint equal_loop (v ov : list Z) : bool :=
  match v, ov with
  | vv :: v', o :: ov' => if negb (vv =? o) then false else equal_loop v' ov'
  | _, _ => true
  end.

(** [func (v ByteVector) Equal(o Value) bool] *)
Definition Equal (h : Store) (v : loc) (o : Value) : bool :=
  match o with
  | VByteVector ov =>
      if negb (len h v =? len h ov) then false
      else equal_loop (bytes h v) (bytes h ov)
  | _ => false
  end.

Inductive Error : Set :=
| InvalidSource (v : Value)
| InvalidTarget (v : Value)
| InvalidSourceStart (v : Value)
| InvalidTargetStart (v : Value)
| InvalidK (v : Value)
| InvalidSourceRange (sourceStart k len : Z)
| InvalidTargetRange (targetStart k len : Z).

(** The built-in [copy(dst, src)] on the two slice expressions
    [target[targetStart:targetEnd]] and [source[sourceStart:sourceEnd]]:
    it moves [min(len(dst), len(src))] bytes as [memmove] does, the
    source bytes being those before the call also when the two ranges
    overlap.  The result is the new content of the target array. *)
Definition copy_into (target : list Z) (targetStart targetEnd : Z)
    (source : list Z) (sourceStart sourceEnd : Z) : list Z :=
  let n := Z.to_nat (Z.min (targetEnd - targetStart)
                           (sourceEnd - sourceStart)) in
  take (Z.to_nat targetStart) target
    ++ take n (drop (Z.to_nat sourceStart) source)
    ++ drop (Z.to_nat targetStart + n) target.

(** A slice expression [v[lo:hi]] is in range when
    [0 <= lo <= hi <= cap(v)]; the arrays are allocated with the
    capacity of their length. *)
Definition slice_ok (v : list Z) (lo hi : Z) : bool :=
  (0 <=? lo) && (lo <=? hi) && (hi <=? Z.of_nat (length v)).

(** [rnrsBytevectorBuiltins] entry ["bytevector-copy!"].  The sums
    [sourceStart+k] and [targetStart+k] are [int64] additions. *)
Definition bytevector_copy (h : Store) (args : list Value)
  : Store * Result Error Value :=
  match args !! 0%nat with
  | None => (h, Panic)
  | Some (VByteVector source) =>
    match args !! 2%nat with
    | None => (h, Panic)
    | Some (VByteVector target) =>
      match args !! 1%nat with
      | None => (h, Panic)
      | Some a1 =>
        match Int64 a1 with
        | None => (h, Err (InvalidSourceStart a1))
        | Some sourceStart =>
          if sourceStart <? 0 then (h, Err (InvalidSourceStart a1)) else
          match args !! 3%nat with
          | None => (h, Panic)
          | Some a3 =>
            match Int64 a3 with
            | None => (h, Err (InvalidTargetStart a3))
            | Some targetStart =>
              if targetStart <? 0 then (h, Err (InvalidTargetStart a3)) else
              match args !! 4%nat with
              | None => (h, Panic)
              | Some a4 =>
                match Int64 a4 with
                | None => (h, Err (InvalidK a4))
                | Some k =>
                  if k <? 0 then (h, Err (InvalidK a4)) else
                  let sourceEnd := wrap64 (sourceStart + k) in
                  let targetEnd := wrap64 (targetStart + k) in
                  if sourceEnd >? len h source then
                    (h, Err (InvalidSourceRange sourceStart k
                               (len h source)))
                  else if targetEnd >? len h target then
                    (h, Err (InvalidTargetRange targetStart k
                               (len h target)))
                  else if slice_ok (bytes h target) targetStart targetEnd
                          && slice_ok (bytes h source) sourceStart sourceEnd
                  then
                    (<[target :=
                         copy_into (bytes h target) targetStart targetEnd
                                   (bytes h source) sourceStart sourceEnd]>
                       h,
                     Ok Nil)
                  else (h, Panic)
                end
              end
            end
          end
        end
      end
    | Some a2 => (h, Err (InvalidTarget a2))
    end
  | Some a0 => (h, Err (InvalidSource a0))
  end.

End ByteVectors.

(** * Package [scheme]: the symbol table and the embedder's globals *)

Module Globals.
Import Values.

(** [type Identifier struct]: the name, the global value and the flag
    bits (the declared type of the global plays no part below and is
    left out). *)
Record Identifier : Set := mkIdentifier {
  Name : string;
  Global : Value;
  Flags : Z
}.

(** The part of [type Scheme struct] the globals live in.  The table
    maps a name to its one interned identifier, so the identifier a
    [*Identifier] points to is the entry under its name. *)
Record Scheme : Type := mkScheme {
  symbols : gmap string Identifier
}.

(** Modelled from the spec: [Scheme.Intern], the symbol-interning
    service, is not among the sources of this package; interning is
    idempotent and a name seen for the first time gets an identifier
    with no global value and no flags, as [VM.Intern] of the first
    machine makes it. *)
Definition Intern (scm : Scheme) (name : string) : Scheme * Identifier :=
  match symbols scm !! name with
  | Some id => (scm, id)
  | None =>
      let id := mkIdentifier name Nil 0 in
      (mkScheme (<[name := id]> (symbols scm)), id)
  end.

Inductive Error : Set :=
| UndefinedSymbol (name : string)    (* "undefined symbol '%s'" *)
| CantResetFinal (name : string).    (* "can't reset final symbol '%s'" *)

Section Flags.

(** The flag bits [FlagDefined] and [FlagConst]; their declaration
    is not among the sources, so they are taken as given. *)
Variables FlagDefined FlagConst : Z.

(** [func (scm *Scheme) Global(name string) (Value, error)] *)
Definition GetGlobal (scm : Scheme) (name : string)
  : Result Error Value :=
  match symbols scm !! name with
  | None => Err (UndefinedSymbol name)
  | Some id =>
      if Z.land (Flags id) FlagDefined =? 0
      then Err (UndefinedSymbol name)
      else Ok (Global id)
  end.

(** [func (scm *Scheme) SetGlobal(name string, value Value) error] *)
Definition SetGlobal (scm : Scheme) (name : string) (value : Value)
  : Scheme * Result Error unit :=
  let '(scm1, id) := Intern scm name in
  if negb (Z.land (Flags id) FlagConst =? 0)
  then (scm1, Err (CantResetFinal name))
  else
    (mkScheme
       (<[name := mkIdentifier (Name id) value
                    (Z.lor (Flags id) FlagDefined)]> (symbols scm1)),
     Ok tt).

(** The symbol carries the flag [flag]: the test [id.Flags&flag != 0]. *)
Definition has_flag (id : Identifier) (flag : Z) : Prop :=
  Z.land (Flags id) flag <> 0.

End Flags.

End Globals.

(** * Package [scheme]: the AST and its lowering to bytecode *)

Module Compile.
Import Values.

(** Modelled from the spec: the instruction set of the later machine
    (its declaration is not among the sources), the opcodes of the
    instruction table. *)
Inductive Operand : Set :=
| OpConst | OpGlobal | OpGlobalSet | OpDefine | OpLocal | OpLocalSet
| OpEnv | OpEnvSet | OpPushS | OpPopS | OpPushF | OpPushA | OpLambda
| OpCall | OpReturn | OpIf | OpIfNot | OpJmp | OpLabel | OpHalt.

(** A source location; [Locator] is an interface and [None] its nil. *)
Record Point : Set := mkPoint { Source : string; Line : Z }.
Definition Locator : Set := option Point.

(** Modelled from the spec: an instruction carries an opcode, a constant
    payload [V], the integer operands [I] and [J], a symbol reference
    and a source location.  [Sym] is the name the symbol was interned
    under. *)
Record Instr : Set := mkInstr {
  Op : Operand;
  V : Value;
  I : Z;
  J : Z;
  Sym : option string;
  From : Locator
}.

(** Modelled from the spec: a compile-time frame has a type, stack or
    heap environment, and an index; a binding has its frame and the index
    of its slot.  Pointers the source dereferences without a test are
    kept as the records they point to. *)
Inductive FrameType : Set := TypeStack | TypeEnv.
Record EnvFrame : Set := mkEnvFrame { FType : FrameType; FIndex : Z }.
Record EnvBinding : Set := mkEnvBinding { Frame : EnvFrame; Index : Z }.
Definition Env : Set := list EnvFrame.

Definition Keyword : Set := Z.
Definition Flags : Set := Z.

(** The declared signature of a lambda. *)
Record Args : Set := mkArgs { Min : Z; Max : Z; Rest : bool }.

(** [type ASTLetBinding struct], [type ASTCondChoice struct] and
    [type ASTCaseChoice struct], over the type of AST nodes. *)
Record ASTLetBinding (A : Type) : Type := mkLetBinding {
  LBFrom : Locator;
  LBBinding : EnvBinding;
  LBInit : A
}.
Arguments mkLetBinding {A}.
Arguments LBFrom {A}.
Arguments LBBinding {A}.
Arguments LBInit {A}.

Record ASTCondChoice (A : Type) : Type := mkCondChoice {
  CCFrom : Locator;
  CCCond : option A;
  CCFunc : option A;
  FuncValueFrame : EnvFrame;
  FuncArgsFrame : EnvFrame;
  CCExprs : list A
}.
Arguments mkCondChoice {A}.

Record ASTCaseChoice (A : Type) : Type := mkCaseChoice {
  CaFrom : Locator;
  Datums : list Value;
  DatumLocs : list Locator;
  CaExprs : list A
}.
Arguments mkCaseChoice {A}.

(** [type AST interface] with its fourteen implementations. *)
Inductive AST : Type :=
| ASTSequence (from : Locator) (Items : list AST)
| ASTDefine (from : Locator) (Name : string) (flags : Flags) (Value : AST)
| ASTSet (from : Locator) (Name : string) (Binding : option EnvBinding)
    (Value : AST)
| ASTLet (from : Locator) (Type_ : Keyword) (Captures Tail : bool)
    (Bindings : list (ASTLetBinding AST)) (Body : list AST)
| ASTIf (from : Locator) (Cond True : AST) (False : option AST)
| ASTApply (from : Locator) (Lambda Args : AST) (Tail : bool)
| ASTCall (from : Locator) (Func : AST) (ArgFrame : EnvFrame)
    (Args : list AST) (ArgLocs : list Locator) (Tail : bool)
| ASTLambda (from : Locator) (Name : option string) (args : Args)
    (Body : list AST) (env : Env) (Captures Define : bool) (flags : Flags)
| ASTConstant (from : Locator) (Value : Value)
| ASTIdentifier (from : Locator) (Name : string)
    (Binding : option EnvBinding)
| ASTCond (from : Locator) (Choices : list (ASTCondChoice AST))
    (Tail Captures : bool)
| ASTCase (from : Locator) (Choices : list (ASTCaseChoice AST))
    (ValueFrame EqvArgFrame : EnvFrame) (Expr : AST) (Tail Captures : bool)
| ASTAnd (from : Locator) (Exprs : list AST)
| ASTOr (from : Locator) (Exprs : list AST).

(** The [Locator()] methods. *)
Definition ASTLocator (a : AST) : Locator :=
  match a with
  | ASTSequence f _ | ASTDefine f _ _ _ | ASTSet f _ _ _
  | ASTLet f _ _ _ _ _ | ASTIf f _ _ _ | ASTApply f _ _ _
  | ASTCall f _ _ _ _ _ | ASTLambda f _ _ _ _ _ _ _ | ASTConstant f _
  | ASTIdentifier f _ _ | ASTCond f _ _ _ | ASTCase f _ _ _ _ _ _
  | ASTAnd f _ | ASTOr f _ => f
  end.

(** The entry [ASTLambda.Bytecode] adds to the lambda table. *)
Record lambdaCompilation : Type := mkLambdaCompilation {
  LName : option string;
  LArgs : Args;
  LBody : list AST;
  LEnv : Env;
  LCaptures : bool
}.

(** Modelled from the spec: the compiler, whose declaration is not among
    the sources: the instruction stream, the lambda table, the counter
    labels are generated from, and the interpreter whose symbol table it
    interns into. *)
Record Compiler : Type := mkCompiler {
  code : list Instr;
  lambdas : list lambdaCompilation;
  nextLabel : Z;
  scm : Globals.Scheme
}.

Definition emit (c : Compiler) (i : Instr) : Compiler :=
  mkCompiler (code c ++ [i]) (lambdas c) (nextLabel c) (scm c).

Definition flag (b : bool) : Z := if b then 1 else 0.

(** Modelled from the spec: [c.addInstr(from, op, v, i)] appends one
    instruction. *)
Definition addInstr (c : Compiler) (from : Locator) (op : Operand)
    (v : Value) (i : Z) : Compiler :=
  emit c (mkInstr op v i 0 None from).

(** [instr := c.addInstr(from, op, v, i); instr.J = j] *)
Definition addInstrJ (c : Compiler) (from : Locator) (op : Operand)
    (v : Value) (i j : Z) : Compiler :=
  emit c (mkInstr op v i j None from).

(** [instr := c.addInstr(from, op, v, i); instr.Sym = c.scm.Intern(name)] *)
Definition addInstrSym (c : Compiler) (from : Locator) (op : Operand)
    (v : Value) (i : Z) (name : string) : Compiler :=
  let c1 := emit c (mkInstr op v i 0 (Some name) from) in
  mkCompiler (code c1) (lambdas c1) (nextLabel c1)
    (fst (Globals.Intern (scm c1) name)).

(** Modelled from the spec: [PushS n captures] and [PopS n captures],
    the flag in [J]; [Call argc tail], the flag in [J]. *)
Definition addPushS (c : Compiler) (from : Locator) (size : Z)
    (captures : bool) : Compiler :=
  emit c (mkInstr OpPushS Nil size (flag captures) None from).

Definition addPopS (c : Compiler) (from : Locator) (size : Z)
    (captures : bool) : Compiler :=
  emit c (mkInstr OpPopS Nil size (flag captures) None from).

Definition addCall (c : Compiler) (from : Locator) (argc : Z)
    (tail : bool) : Compiler :=
  emit c (mkInstr OpCall Nil argc (flag tail) None from).

(** Modelled from the spec: labels are generated monotonically;
    [c.newLabel()] makes a [Label] instruction that is not yet in the
    stream, [c.addLabel(l)] appends it. *)
Definition newLabel (c : Compiler) : Compiler * Instr :=
  (mkCompiler (code c) (lambdas c) (nextLabel c + 1) (scm c),
   mkInstr OpLabel Nil (nextLabel c) 0 None None).

Definition addLabel (c : Compiler) (l : Instr) : Compiler := emit c l.

(** What a [Bytecode] method leaves behind: the compiler as it stands,
    with the error it returned if any; [Crashed] is a run-time panic. *)
Inductive Emit : Type :=
| Emitted (c : Compiler)
| Failed (c : Compiler) (err : string)
| Crashed.

Definition andThen (r : Emit) (k : Compiler -> Emit) : Emit :=
  match r with
  | Emitted c => k c
  | Failed c e => Failed c e
  | Crashed => Crashed
  end.

(** The store instruction of a binding: [LocalSet] into a stack frame,
    [EnvSet] into a heap frame. *)
Definition binding_set (from : Locator) (b : EnvBinding) : Instr :=
  match FType (Frame b) with
  | TypeStack =>
      mkInstr OpLocalSet Nil (FIndex (Frame b) + Index b) 0 None from
  | TypeEnv => mkInstr OpEnvSet Nil (FIndex (Frame b)) (Index b) None from
  end.

Definition binding_get (from : Locator) (b : EnvBinding) : Instr :=
  match FType (Frame b) with
  | TypeStack =>
      mkInstr OpLocal Nil (FIndex (Frame b) + Index b) 0 None from
  | TypeEnv => mkInstr OpEnv Nil (FIndex (Frame b)) (Index b) None from
  end.

(** The loops of the [Bytecode] methods, over the method [B] they call
    on the sub-expressions. *)
Section Loops.

Variable B : AST -> Compiler -> Emit.

(** [for _, item := range items { err := item.Bytecode(c) ... }] *)
Fixpoint emit_items (l : list AST) (c : Compiler) : Emit :=
  match l with
  | [] => Emitted c
  | item :: rest => andThen (B item c) (emit_items rest)
  end.

(** The loop of [ASTLet.Bytecode] over the bindings. *)
Fixpoint emit_bindings (l : list (ASTLetBinding AST)) (c : Compiler)
  : Emit :=
  match l with
  | [] => Emitted c
  | binding :: rest =>
      andThen (B (LBInit binding) c) (fun c1 =>
        emit_bindings rest
          (emit c1 (binding_set (LBFrom binding) (LBBinding binding))))
  end.

(** The loop of [ASTCall.Bytecode] over the arguments. *)
Fixpoint emit_args (ArgFrame : EnvFrame) (ArgLocs : list Locator)
    (l : list AST) (idx : nat) (c : Compiler) : Emit :=
  match l with
  | [] => Emitted c
  | arg :: rest =>
      andThen (B arg c) (fun c1 =>
        match ArgLocs !! idx with
        | None => Crashed
        | Some loc =>
            emit_args ArgFrame ArgLocs rest (S idx)
              (addInstr c1 loc OpLocalSet Nil
                 (FIndex ArgFrame + Z.of_nat idx))
        end)
  end.

(** The loop of [ASTCond.Bytecode] over the choices; [labelClause]
    is the variable of that name. *)
Fixpoint emit_cond_choices (labelEnd : Instr) (Tail Captures : bool)
    (l : list (ASTCondChoice AST)) (labelClause : option Instr)
    (c : Compiler) : Emit :=
  match l with
  | [] => Emitted c
  | mkCondChoice cfrom ccond cfunc fvf faf exprs :: rest =>
      let c1 := match labelClause with
                | Some lc => addLabel c lc
                | None => c
                end in
      let '(c2, next, labelClause') :=
        match rest with
        | [] => (c1, labelEnd, labelClause)
        | _ :: _ => let '(c', n) := newLabel c1 in (c', n, Some n)
        end in
      andThen
        (match ccond with
         | Some cond =>
             andThen (B cond c2) (fun c3 =>
               Emitted (addInstrJ c3 cfrom OpIfNot Nil 0 (I next)))
         | None => Emitted c2
         end) (fun c4 =>
      andThen
        (match cfunc with
         | Some func =>
             let c5 := addInstr c4 cfrom OpPushS Nil 1 in
             let c6 := addInstr c5 cfrom OpLocalSet Nil (FIndex fvf) in
             andThen (B func c6) (fun c7 =>
               let c8 := addInstr c7 cfrom OpPushF Nil 0 in
               let c9 := addInstr c8 cfrom OpPushS Nil 1 in
               let c10 := addInstr c9 cfrom OpLocal Nil (FIndex fvf) in
               let c11 :=
                 addInstr c10 cfrom OpLocalSet Nil (FIndex faf) in
               let c12 := addCall c11 None 1 Tail in
               Emitted (if Tail then c12
                        else addPopS c12 cfrom 1 Captures))
         | None => emit_items exprs c4
         end) (fun c13 =>
      emit_cond_choices labelEnd Tail Captures rest labelClause'
        (addInstrJ c13 None OpJmp Nil 0 (I labelEnd))))
  end.

(** The comparison of the key with the datums of a [case] choice,
    one call of [eqv?] each. *)
Fixpoint emit_datums (ValueFrame EqvArgFrame : EnvFrame)
    (labelExprs : Instr) (DatumLocs : list Locator)
    (l : list Value) (idx : nat) (c : Compiler) : Emit :=
  match l with
  | [] => Emitted c
  | datum :: rest =>
      match DatumLocs !! idx with
      | None => Crashed
      | Some from =>
          let c1 := addInstrSym c from OpGlobal Nil 0 "eqv?" in
          let c2 := addInstr c1 from OpPushF Nil 0 in
          let c3 := addInstr c2 from OpPushS Nil 2 in
          let c4 := addInstr c3 from OpLocal Nil (FIndex ValueFrame) in
          let c5 :=
            addInstr c4 from OpLocalSet Nil (FIndex EqvArgFrame) in
          let c6 := addInstr c5 from OpConst datum 0 in
          let c7 :=
            addInstr c6 from OpLocalSet Nil (FIndex EqvArgFrame + 1) in
          let c8 := addCall c7 from 2 false in
          let c9 := addInstrJ c8 from OpIf Nil 0 (I labelExprs) in
          emit_datums ValueFrame EqvArgFrame labelExprs DatumLocs
            rest (S idx) c9
      end
  end.

(** The loop of [ASTCase.Bytecode] over the choices. *)
Fixpoint emit_case_choices (ValueFrame EqvArgFrame : EnvFrame)
    (labelEnd : Instr) (l : list (ASTCaseChoice AST))
    (labelClause : option Instr) (c : Compiler) : Emit :=
  match l with
  | [] => Emitted c
  | mkCaseChoice cfrom datums dlocs exprs :: rest =>
      let c1 := match labelClause with
                | Some lc => addLabel c lc
                | None => c
                end in
      let '(c2, next, labelClause') :=
        match rest with
        | [] => (c1, labelEnd, labelClause)
        | _ :: _ => let '(c', n) := newLabel c1 in (c', n, Some n)
        end in
      andThen
        (match datums with
         | [] => Emitted c2
         | _ :: _ =>
             let '(c3, labelExprs) := newLabel c2 in
             andThen
               (emit_datums ValueFrame EqvArgFrame labelExprs dlocs
                  datums 0 c3) (fun c4 =>
               let c5 := addInstrJ c4 None OpJmp Nil 0 (I next) in
               Emitted (addLabel c5 labelExprs))
         end) (fun c6 =>
      andThen (emit_items exprs c6) (fun c7 =>
      emit_case_choices ValueFrame EqvArgFrame labelEnd rest
        labelClause' (addInstrJ c7 None OpJmp Nil 0 (I labelEnd))))
  end.

(** The short-circuit chain of [ASTAnd.Bytecode] ([op] is [OpIfNot])
    and [ASTOr.Bytecode] ([op] is [OpIf]) over a non-empty list: every
    expression but the last is followed by the branch to the end. *)
Fixpoint emit_chain (op : Operand) (labelEnd : Instr) (l : list AST)
    (c : Compiler) : Emit :=
  match l with
  | [] => Crashed
  | e :: rest =>
      match rest with
      | [] => B e c
      | _ :: _ =>
          andThen (B e c) (fun c1 =>
            emit_chain op labelEnd rest
              (addInstrJ c1 (ASTLocator e) op Nil 0 (I labelEnd)))
      end
  end.

End Loops.

Section Bytecode.

(** [c.define(from, env, name, flags)], the one call of the lowering
    that can return an error; the method is not among the sources and
    is taken as given. *)
Variable define :
  Locator -> Env -> option string -> Flags -> Compiler -> Emit.

(** The [Bytecode] methods of the AST nodes. *)
Fixpoint Bytecode (ast : AST) (c : Compiler) {struct ast} : Emit :=
  match ast with
  | ASTSequence _ Items => emit_items Bytecode Items c

  | ASTDefine from Name flags Value =>
      andThen (Bytecode Value c) (fun c1 =>
        Emitted (addInstrSym c1 from OpDefine Nil flags Name))

  | ASTSet from Name Binding Value =>
      andThen (Bytecode Value c) (fun c1 =>
        match Binding with
        | Some b => Emitted (emit c1 (binding_set from b))
        | None => Emitted (addInstrSym c1 from OpGlobalSet Nil 0 Name)
        end)

  | ASTLet from _ Captures Tail Bindings Body =>
      let n := Z.of_nat (length Bindings) in
      andThen (emit_bindings Bytecode Bindings
                 (addPushS c from n Captures)) (fun c1 =>
      andThen (emit_items Bytecode Body c1) (fun c2 =>
        Emitted (if Tail then c2 else addPopS c2 None n Captures)))

  | ASTIf from Cond True_ False_ =>
      let '(c1, labelFalse) := newLabel c in
      let '(c2, labelEnd) := newLabel c1 in
      andThen (Bytecode Cond c2) (fun c3 =>
      andThen
        (match False_ with
         | None =>
             Bytecode True_ (addInstrJ c3 from OpIfNot Nil 0 (I labelEnd))
         | Some f =>
             andThen
               (Bytecode True_
                  (addInstrJ c3 from OpIfNot Nil 0 (I labelFalse)))
               (fun c4 =>
                  let c5 := addInstrJ c4 None OpJmp Nil 0 (I labelEnd) in
                  Bytecode f (addLabel c5 labelFalse))
         end) (fun c6 => Emitted (addLabel c6 labelEnd)))

  | ASTApply _ Lambda Args Tail =>
      andThen (Bytecode Lambda c) (fun c1 =>
      andThen (Bytecode Args (addInstr c1 None OpPushF Nil 0)) (fun c2 =>
        Emitted (addCall (addInstr c2 None OpPushA Nil 0) None (-1) Tail)))

  | ASTCall from Func ArgFrame Args ArgLocs Tail =>
      match Bytecode Func c with
      | Crashed => Crashed
      | Failed c1 _ => Emitted c1   (* if err != nil { return nil } *)
      | Emitted c1 =>
          let argc := Z.of_nat (length Args) in
          let c2 := addInstr c1 from OpPushF Nil 0 in
          let c3 := addInstr c2 from OpPushS Nil argc in
          andThen (emit_args Bytecode ArgFrame ArgLocs Args 0 c3)
            (fun c4 => Emitted (addCall c4 None argc Tail))
      end

  | ASTLambda from Name args Body env Captures Define flags =>
      let c1 :=
        addInstr c from OpLambda Nil (Z.of_nat (length (lambdas c))) in
      let c2 :=
        mkCompiler (code c1)
          (lambdas c1 ++ [mkLambdaCompilation Name args Body env Captures])
          (nextLabel c1) (scm c1) in
      if Define then define from env Name flags c2 else Emitted c2

  | ASTConstant _ Value => Emitted (addInstr c None OpConst Value 0)

  | ASTIdentifier from Name Binding =>
      match Binding with
      | Some b => Emitted (emit c (binding_get from b))
      | None => Emitted (addInstrSym c from OpGlobal Nil 0 Name)
      end

  | ASTCond _ Choices Tail Captures =>
      let '(c1, labelEnd) := newLabel c in
      andThen (emit_cond_choices Bytecode labelEnd Tail Captures
                 Choices None c1) (fun c2 =>
        Emitted (addLabel c2 labelEnd))

  | ASTCase from Choices ValueFrame EqvArgFrame Expr Tail Captures =>
      let '(c1, labelEnd) := newLabel c in
      let c2 := addInstr c1 from OpPushS Nil 1 in
      andThen (Bytecode Expr c2) (fun c3 =>
      let c4 := addInstr c3 from OpLocalSet Nil (FIndex ValueFrame) in
      andThen (emit_case_choices Bytecode ValueFrame EqvArgFrame
                 labelEnd Choices None c4) (fun c5 =>
        let c6 := addLabel c5 labelEnd in
        Emitted (if Tail then c6 else addPopS c6 None 1 Captures)))

  | ASTAnd from Exprs =>
      match Exprs with
      | [] => Emitted (addInstr c from OpConst (VBoolean true) 0)
      | _ :: _ =>
          let '(c1, labelEnd) := newLabel c in
          andThen (emit_chain Bytecode OpIfNot labelEnd Exprs c1)
            (fun c2 => Emitted (addLabel c2 labelEnd))
      end

  | ASTOr from Exprs =>
      match Exprs with
      | [] => Emitted (addInstr c from OpConst (VBoolean false) 0)
      | _ :: _ =>
          let '(c1, labelEnd) := newLabel c in
          andThen (emit_chain Bytecode OpIf labelEnd Exprs c1)
            (fun c2 => Emitted (addLabel c2 labelEnd))
      end
  end.

(** What the source of [ASTLet.Bytecode] is claimed to emit, written
    after the description: the instructions of a run of
    sub-expressions, each from the compiler the one before left. *)
Inductive emits : AST -> Compiler -> list Instr -> Compiler -> Prop :=
| emits_intro a c l c' :
    Bytecode a c = Emitted c' -> code c' = code c ++ l ->
    emits a c l c'.

(** The body expressions, in order. *)
Inductive emits_body : list AST -> Compiler -> list Instr -> Compiler
                       -> Prop :=
| emits_body_nil c : emits_body [] c [] c
| emits_body_cons a rest c l c1 ls c2 :
    emits a c l c1 -> emits_body rest c1 ls c2 ->
    emits_body (a :: rest) c (l ++ ls) c2.

(** The bindings, in order: the initializer, then [LocalSet] of the
    slot (the index of the frame plus the index of the binding) when
    the frame of the binding is a stack frame, and [EnvSet] of the
    frame and the slot when it is a heap frame. *)
Inductive emits_inits : list (ASTLetBinding AST) -> Compiler
                        -> list Instr -> Compiler -> Prop :=
| emits_inits_nil c : emits_inits [] c [] c
| emits_inits_stack from frame index init rest c l c1 ls c2 :
    FType frame = TypeStack ->
    emits init c l c1 ->
    emits_inits rest
      (emit c1 (mkInstr OpLocalSet Nil (FIndex frame + index) 0 None from))
      ls c2 ->
    emits_inits
      (mkLetBinding from (mkEnvBinding frame index) init :: rest) c
      (l ++ [mkInstr OpLocalSet Nil (FIndex frame + index) 0 None from]
         ++ ls) c2
| emits_inits_env from frame index init rest c l c1 ls c2 :
    FType frame = TypeEnv ->
    emits init c l c1 ->
    emits_inits rest
      (emit c1 (mkInstr OpEnvSet Nil (FIndex frame) index None from))
      ls c2 ->
    emits_inits
      (mkLetBinding from (mkEnvBinding frame index) init :: rest) c
      (l ++ [mkInstr OpEnvSet Nil (FIndex frame) index None from] ++ ls)
      c2.

(** [define] only appends to the instruction stream. *)
Definition define_appends : Prop :=
  forall from env name flags c,
    match define from env name flags c with
    | Emitted c' | Failed c' _ => exists l, code c' = code c ++ l
    | Crashed => True
    end.

End Bytecode.

End Compile.

(** * More of package [scheme]: the other bytevector primitives *)

Module ByteVectorOps.
Import Values ByteVectors.

(** The errors of the primitives, one constructor per message. *)
Inductive OpError : Set :=
| NegativeLength (v : Value)            (* "negative length: %v" *)
| InvalidFill (v : Value)               (* "invalid fill: %v" *)
| NotABytevector (v : Value)            (* "not a bytevector: %v" *)
| InvalidBytevector (v : Value)         (* "invalid bytevector: %v" *)
| InvalidIndex (v : Value)              (* "invalid index: %v" *)
| IndexOutOfRange (k len : Z).          (* "invalid index: 0 <= %v < %v" *)

(** The conversion [byte(f)] of an [int64] keeps its low eight bits. *)
Definition byte_of_int64 (f : Z) : Z := f mod 256.

(** The conversion [int(int8(b))] of a byte reads it in two's
    complement. *)
Definition int8_of_byte (b : Z) : Z := if b <? 128 then b else b - 256.

(** [make([]byte, ...)]: a new backing array, at an address no
    bytevector of the store has. *)
Definition alloc (h : Store) (data : list Z) : Store * loc :=
  let l := fresh (dom h) in (<[l := data]> h, l).

(** [rnrsBytevectorBuiltins] entry ["bytevector?"] *)
Definition is_bytevector (args : list Value) : Result OpError Value :=
  match args !! 0%nat with
  | None => Panic
  | Some (VByteVector _) => Ok (VBoolean true)
  | Some _ => Ok (VBoolean false)
  end.

(** [rnrsBytevectorBuiltins] entry ["make-bytevector"]; the loop that
    stores [fill] in every element is [replicate].  The allocation
    [make([]byte, length, length)] comes after the arguments are
    checked; it panics when [length] is more than [maxAlloc] bytes. *)
Definition make_bytevector (h : Store) (args : list Value)
  : Store * Result OpError Value :=
  match args !! 0%nat with
  | None => (h, Panic)
  | Some a0 =>
      match Int64 a0 with
      | None => (h, Err (NegativeLength a0))
      | Some length =>
          if length <? 0 then (h, Err (NegativeLength a0)) else
          let make fill :=
            if maxAlloc <? length then (h, Panic) else
            let '(h', l) := alloc h (replicate (Z.to_nat length) fill) in
            (h', Ok (VByteVector l)) in
          if (List.length args =? 2)%nat then
            match args !! 1%nat with
            | None => (h, Panic)
            | Some a1 =>
                match Int64 a1 with
                | None => (h, Err (InvalidFill a1))
                | Some f =>
                    if (f <? -128) || (f >? 255)
                    then (h, Err (InvalidFill a1))
                    else make (byte_of_int64 f)
                end
            end
          else make 0
      end
  end.

(** [rnrsBytevectorBuiltins] entry ["bytevector-length"] *)
Definition bytevector_length (h : Store) (args : list Value)
  : Result OpError Value :=
  match args !! 0%nat with
  | None => Panic
  | Some (VByteVector v) => Ok (VNumber (NewNumber 0 (ArgInt (len h v))))
  | Some a0 => Err (NotABytevector a0)
  end.

(** [bytes.Equal]: the same length and the same bytes. *)
Definition bytes_Equal (a b : list Z) : bool := bool_decide (a = b).

(** [rnrsBytevectorBuiltins] entry ["bytevector=?"] *)
Definition bytevector_eq (h : Store) (args : list Value)
  : Result OpError Value :=
  match args !! 0%nat with
  | None => Panic
  | Some (VByteVector v1) =>
      match args !! 1%nat with
      | None => Panic
      | Some (VByteVector v2) =>
          Ok (VBoolean (bytes_Equal (bytes h v1) (bytes h v2)))
      | Some a1 => Err (NotABytevector a1)
      end
  | Some a0 => Err (NotABytevector a0)
  end.

(** [rnrsBytevectorBuiltins] entry ["bytevector-fill"]; the loop
    [for i := 0; i < len(v); i++ { v[i] = fill }] writes the array in
    place and the bytevector itself is returned. *)
Definition bytevector_fill (h : Store) (args : list Value)
  : Store * Result OpError Value :=
  match args !! 0%nat with
  | None => (h, Panic)
  | Some (VByteVector v) =>
      match args !! 1%nat with
      | None => (h, Panic)
      | Some a1 =>
          match Int64 a1 with
          | None => (h, Err (InvalidFill a1))
          | Some f =>
              if (f <? -128) || (f >? 255) then (h, Err (InvalidFill a1))
              else
                match bytes h v with
                | [] => (h, Ok (VByteVector v))
                | _ :: _ =>
                    (<[v := replicate (length (bytes h v)) (byte_of_int64 f)]> h,
                     Ok (VByteVector v))
                end
          end
      end
  | Some a0 => (h, Err (InvalidBytevector a0))
  end.

(** [rnrsBytevectorBuiltins] entry ["bytevector-copy"] *)
Definition bytevector_copy_new (h : Store) (args : list Value)
  : Store * Result OpError Value :=
  match args !! 0%nat with
  | None => (h, Panic)
  | Some (VByteVector v) =>
      let '(h', l) := alloc h (bytes h v) in (h', Ok (VByteVector l))
  | Some a0 => (h, Err (NotABytevector a0))
  end.

(** The shared body of ["bytevector-u8-ref"] and ["bytevector-s8-ref"]:
    [conv] is the conversion applied to the byte [v[k]]. *)
Definition bytevector_ref (conv : Z -> Z) (h : Store) (args : list Value)
  : Result OpError Value :=
  match args !! 0%nat with
  | None => Panic
  | Some (VByteVector v) =>
      match args !! 1%nat with
      | None => Panic
      | Some a1 =>
          match Int64 a1 with
          | None => Err (InvalidIndex a1)
          | Some k =>
              if (k <? 0) || (k >=? len h v)
              then Err (IndexOutOfRange k (len h v))
              else match bytes h v !! Z.to_nat k with
                   | Some b => Ok (VNumber (NewNumber 0 (ArgInt (conv b))))
                   | None => Panic
                   end
          end
      end
  | Some a0 => Err (NotABytevector a0)
  end.

(** [rnrsBytevectorBuiltins] entry ["bytevector-u8-ref"]:
    [int(uint8(v[k]))]. *)
Definition bytevector_u8_ref := bytevector_ref (fun b => b).

(** [rnrsBytevectorBuiltins] entry ["bytevector-s8-ref"]:
    [int(int8(v[k]))]. *)
Definition bytevector_s8_ref := bytevector_ref int8_of_byte.

(** Every element of every array is a byte. *)
Definition store_bytes (h : Store) : Prop :=
  forall l bs, h !! l = Some bs -> Forall (fun b => 0 <= b < 256) bs.

End ByteVectorOps.

(** * More of package [scheme]: the other string primitives *)

Module StringOps.
Import Values Strings.

(** A Unicode scalar value: a code point that is no surrogate. *)
Definition valid_rune (r : Z) : bool :=
  (0 <=? r) && (r <=? 0x10FFFF) && negb ((0xD800 <=? r) && (r <=? 0xDFFF)).

(** What a rune reads back as after the conversion to a string: itself
    when it is a scalar value, [runeError] otherwise. *)
Definition sanitize (r : Z) : Z := if valid_rune r then r else runeError.

Inductive OpError : Set :=
| InvalidLength (v : Value)        (* "invalid length: %v" *)
| InvalidChar (v : Value)          (* "invalid char: %v" *)
| InvalidCharacter (v : Value)     (* "invalid character: %v" *)
| InvalidArgument (v : Value)      (* "invalid argument: %v" *)
| InvalidStringArg (v : Value)     (* "invalid string: %v" *)
| InvalidIndex (v : Value).        (* "invalid index: %v" *)

(** The runes of a string value: [[]rune(string(v))]. *)
Definition runes_of (s : string) : list Z := runes (bytes_of s).

(** [stringBuiltins] entry ["string?"] *)
Definition is_string (args : list Value) : Result OpError Value :=
  match args !! 0%nat with
  | None => Panic
  | Some (VString _) => Ok (VBoolean true)
  | Some _ => Ok (VBoolean false)
  end.

(** [stringBuiltins] entry ["make-string"]; the fill is a space unless
    exactly two arguments are given.  The allocation
    [make([]rune, length, length)] comes after the arguments are
    checked; it panics when the runes, four bytes each, take more than
    [maxAlloc]. *)
Definition make_string (args : list Value) : Result OpError Value :=
  match args !! 0%nat with
  | None => Panic
  | Some a0 =>
      match Int64 a0 with
      | None => Err (InvalidLength a0)
      | Some length =>
          if length <? 0 then Err (InvalidLength a0) else
          let make fill :=
            if maxAlloc <? 4 * length then Panic else
            Ok (VString (string_of_runes (replicate (Z.to_nat length) fill)))
          in
          if (List.length args =? 2)%nat then
            match args !! 1%nat with
            | None => Panic
            | Some (VCharacter ch) => make ch
            | Some a1 => Err (InvalidChar a1)
            end
          else make 32
      end
  end.

(** The loop of the builtin ["string"]: [str[i] = byte(ch)] keeps the
    low eight bits of each character. *)
Fixpoint string_loop (args : list Value) : Result OpError (list Z) :=
  match args with
  | [] => Ok []
  | VCharacter ch :: rest =>
      match string_loop rest with
      | Ok bs => Ok (ch mod 256 :: bs)
      | Err e => Err e
      | Panic => Panic
      end
  | a :: _ => Err (InvalidCharacter a)
  end.

(** [stringBuiltins] entry ["string"] *)
Definition string_of_chars (args : list Value) : Result OpError Value :=
  match string_loop args with
  | Ok bs => Ok (VString (string_of_bytes bs))
  | Err e => Err e
  | Panic => Panic
  end.

(** [stringBuiltins] entry ["string-length"] *)
Definition string_length (args : list Value) : Result OpError Value :=
  match args !! 0%nat with
  | None => Panic
  | Some (VString v) =>
      Ok (VNumber (NewNumber 0 (ArgInt (Z.of_nat (length (runes_of v))))))
  | Some a0 => Err (InvalidArgument a0)
  end.

(** [stringBuiltins] entry ["string-ref"] *)
Definition string_ref (args : list Value) : Result OpError Value :=
  match args !! 0%nat with
  | None => Panic
  | Some (VString str) =>
      let chars := runes_of str in
      match args !! 1%nat with
      | None => Panic
      | Some a1 =>
          match Int64 a1 with
          | None => Err (InvalidIndex a1)
          | Some k =>
              if (k <? 0) || (k >=? Z.of_nat (length chars))
              then Err (InvalidIndex a1)
              else match chars !! Z.to_nat k with
                   | Some ch => Ok (VCharacter ch)
                   | None => Panic
                   end
          end
      end
  | Some a0 => Err (InvalidStringArg a0)
  end.

(** The loop of ["string-append"]: [result += string(str)]. *)
Fixpoint string_append_loop (result : string) (args : list Value)
  : Result OpError Value :=
  match args with
  | [] => Ok (VString result)
  | VString str :: rest => string_append_loop (result ++ str) rest
  | arg :: _ => Err (InvalidStringArg arg)
  end.

(** [stringBuiltins] entry ["string-append"] *)
Definition string_append (args : list Value) : Result OpError Value :=
  string_append_loop "" args.

(** [stringBuiltins] entry ["string-copy"]: the runes of the string are
    copied to a new slice and converted back. *)
Definition string_copy (args : list Value) : Result OpError Value :=
  match args !! 0%nat with
  | None => Panic
  | Some (VString str) => Ok (VString (string_of_runes (runes_of str)))
  | Some a0 => Err (InvalidStringArg a0)
  end.

(** The comparison primitives ["scheme::string=?"], ["scheme::string<?"]
    and ["scheme::string>?"]: Go compares strings byte by byte,
    [cmp] is the test applied to that comparison. *)
Definition string_compare (cmp : comparison -> bool) (args : list Value)
  : Result OpError Value :=
  match args !! 0%nat with
  | None => Panic
  | Some (VString str1) =>
      match args !! 1%nat with
      | None => Panic
      | Some (VString str2) => Ok (VBoolean (cmp (String.compare str1 str2)))
      | Some a1 => Err (InvalidStringArg a1)
      end
  | Some a0 => Err (InvalidStringArg a0)
  end.

Definition string_eq :=
  string_compare (fun c => match c with Eq => true | _ => false end).
Definition string_lt :=
  string_compare (fun c => match c with Lt => true | _ => false end).
Definition string_gt :=
  string_compare (fun c => match c with Gt => true | _ => false end).

(** The [switch r] of [StringToScheme]: the runes written for the rune
    [r]. *)
Definition escape_rune (r : Z) : list Z :=
  if (r =? 92) || (r =? 34) || (r =? 124) || (r =? 40) then [92; r]
  else if r =? 7 then [92; 97]       (* \a *)
  else if r =? 12 then [92; 102]     (* \f *)
  else if r =? 10 then [92; 110]     (* \n *)
  else if r =? 13 then [92; 114]     (* \r *)
  else if r =? 9 then [92; 116]      (* \t *)
  else if r =? 11 then [92; 118]     (* \v *)
  else if r =? 8 then [92; 98]       (* \b *)
  else if r =? 0 then [92; 48]       (* \0 *)
  else [r].

(** [func StringToScheme(s string) string] *)
Definition StringToScheme (s : string) : string :=
  string_of_runes ([34] ++ flat_map escape_rune (runes_of s) ++ [34]).

(** [func (v String) Equal(o Value) bool] *)
Definition Equal (v : string) (o : Value) : bool :=
  match o with
  | VString ov => String.eqb v ov
  | _ => false
  end.

(** [func (v String) Eq(o Value) bool] *)
Definition Eq (v : string) (o : Value) : bool := Equal v o.

End StringOps.

(** * More of package [scheme]: the builtin [*] *)

Module NumberOps.
Import Values Numbers.

(** The loop of the builtin [*]: [product *= int64(v)] wraps around.
    Its two errors are worded as those of [+] are. *)
Fixpoint times_loop (product : Z) (args : list Value) : Result Error Value :=
  match args with
  | [] => Ok (VNumber (NewNumber 0 (ArgInt64 product)))
  | arg :: rest =>
      match arg with
      | VNumber num =>
          match NValue num with
          | NInt64 v => times_loop (wrap64 (product * v)) rest
          | _ => Err (InvalidAgument num)
          end
      | _ => Err (InvalidArgument arg)
      end
  end.

(** [numberBuiltins] entry ["*"] *)
Definition times (args : list Value) : Result Error Value :=
  times_loop 1 args.

(** The exact product of a list of integers. *)
Definition prodZ (zs : list Z) : Z := fold_right Z.mul 1 zs.

End NumberOps.

(** * More of package [types]: the type descriptors *)

Module TypeOps.
Import Types.

(** [type Type struct], named [Ty] here since [Type] is a keyword.
    Every field of type [*Type] may be the nil pointer, and so may an
    element of [Args]; a descriptor is taken to be a finite tree. *)
Inductive Ty : Set := mkType {
  Enum : Types.Enum;
  Args : list (option Ty);
  Rest : option Ty;
  Return : option Ty;
  Car : option Ty;
  Cdr : option Ty;
  Element : option Ty
}.

(** A descriptor that has the enum only, as the basic types [Any],
    [Boolean], ... of the package. *)
Definition basic (e : Types.Enum) : Ty :=
  mkType e [] None None None None None.

(** What a test of two descriptors comes to: a boolean, the panic of a
    nil pointer dereference, or (in the model only) a walk cut short. *)
Inductive Answer : Set :=
| Bool (b : bool)
| NilDeref
| OutOfFuel.

(** [x && y] on answers: [y] is evaluated only when [x] is true. *)
Definition and_then (x y : Answer) : Answer :=
  match x with
  | Bool true => y
  | r => r
  end.

(** A method call [a.M(b)] through two pointers: the method reads
    [a.Enum] and [b.Enum], so a nil pointer on either side panics. *)
Definition deref2 (M : Ty -> Ty -> Answer) (a b : option Ty) : Answer :=
  match a, b with
  | Some x, Some y => M x y
  | _, _ => NilDeref
  end.

(** [for idx, arg := range t.Args { if !arg.M(o.Args[idx]) { return
    false } }], for argument lists of the same length. *)
Fixpoint all_args (M : Ty -> Ty -> Answer) (ts os : list (option Ty))
  : Answer :=
  match ts with
  | [] => Bool true
  | arg :: ts' =>
      match os with
      | [] => NilDeref
      | oarg :: os' => and_then (deref2 M arg oarg) (all_args M ts' os')
      end
  end.

(** The comparison of the [Rest] fields: both set and related, or both
    nil. *)
Definition rest_ok (M : Ty -> Ty -> Answer) (trest orest : option Ty)
  : Answer :=
  match trest, orest with
  | Some tr, Some or => M tr or
  | None, None => Bool true
  | _, _ => Bool false
  end.

(** The [switch t.Enum] that ends both [IsA] and [IsKindOf], [M] being
    the method itself. *)
Definition components (M : Ty -> Ty -> Answer)
    (e : Types.Enum)
    (targs : list (option Ty)) (trest tret tcar tcdr tel : option Ty)
    (o : Ty) : Answer :=
  match e with
  | EnumLambda =>
      if negb (length targs =? length (Args o))%nat then Bool false
      else and_then (all_args M targs (Args o))
             (and_then (rest_ok M trest (Rest o))
                (deref2 M tret (Return o)))
  | EnumPair =>
      and_then (deref2 M tcar (Car o)) (deref2 M tcdr (Cdr o))
  | EnumList | EnumVector => deref2 M tel (Element o)
  | _ => Bool true
  end.

(** [func (t *Type) IsA(o *Type) bool] *)
Fixpoint IsA (t o : Ty) {struct t} : Answer :=
  match t with
  | mkType e targs trest tret tcar tcdr tel =>
      if negb (Enum_eqb e (Enum o)) then Bool false
      else components IsA e targs trest tret tcar tcdr tel o
  end.

(** The loop that opens [IsKindOf]:
    [for { if e == o.Enum { break }; n := e.Super(); if n == e { return
    false }; e = n }]; [Some true] is the [break], [None] running out
    of fuel. *)
Fixpoint kind_walk (fuel : nat) (e oe : Types.Enum) : option bool :=
  match fuel with
  | O => None
  | S fuel' =>
      if Enum_eqb e oe then Some true
      else
        let n := Super e in
        if Enum_eqb n e then Some false
        else kind_walk fuel' n oe
  end.

(** [func (t *Type) IsKindOf(o *Type) bool], with [fuel] turns allowed
    to each walk up the supertypes. *)
Fixpoint IsKindOf (fuel : nat) (t o : Ty) {struct t} : Answer :=
  match t with
  | mkType e targs trest tret tcar tcdr tel =>
      match kind_walk fuel e (Enum o) with
      | None => OutOfFuel
      | Some false => Bool false
      | Some true =>
          if negb (Enum_eqb e (Enum o)) then Bool true
          else components (IsKindOf fuel) e targs trest tret tcar tcdr tel o
      end
  end.

End TypeOps.

(** * Theorems *)

Lemma wrap64_id z : in_int64 z -> wrap64 z = z.
Proof.
  unfold in_int64, wrap64. intros H.
  rewrite Z.mod_small by lia. lia.
Qed.

Lemma wrap64_range z : in_int64 (wrap64 z).
Proof.
  unfold in_int64, wrap64.
  pose proof (Z.mod_pos_bound (z + 2 ^ 63) (2 ^ 64)). lia.
Qed.

Lemma wrap64_add_l a b : wrap64 (wrap64 a + b) = wrap64 (a + b).
Proof.
  unfold wrap64. f_equal.
  replace ((a + 2 ^ 63) mod 2 ^ 64 - 2 ^ 63 + b + 2 ^ 63)
    with ((a + 2 ^ 63) mod 2 ^ 64 + b) by lia.
  rewrite Zplus_mod_idemp_l. f_equal. lia.
Qed.

(** ** The type enum *)

Module TypesFacts.
Import Types.

Lemma all_enums_complete (e : Enum) : In e all_enums.
Proof. destruct e; simpl; tauto. Qed.

Lemma ancestorb_refl a : ancestorb a a = true.
Proof. destruct a; reflexivity. Qed.

Lemma ancestorb_super a e :
  ancestorb a (Super e) = true -> ancestorb a e = true.
Proof. destruct a, e; vm_compute; congruence. Qed.

Lemma ancestor_ancestorb a e : ancestor a e -> ancestorb a e = true.
Proof.
  induction 1 as [|e _ IH].
  - apply ancestorb_refl.
  - now apply ancestorb_super.
Qed.

Lemma super_iter_ancestor n e : ancestor (Nat.iter n Super e) e.
Proof.
  revert e. induction n as [|n IH]; intros e; simpl.
  - constructor.
  - apply ancestor_step.
    replace (Super (Nat.iter n Super e)) with (Nat.iter n Super (Super e)).
    + apply IH.
    + clear. induction n; simpl; congruence.
Qed.

Lemma ancestorb_ancestor a e : ancestorb a e = true -> ancestor a e.
Proof.
  intros H.
  assert (Hn : exists n, (n <= 3)%nat /\ Nat.iter n Super e = a).
  { destruct a, e; vm_compute in H; try discriminate;
      first [ exists 0%nat; split; [lia | reflexivity]
            | exists 1%nat; split; [lia | reflexivity]
            | exists 2%nat; split; [lia | reflexivity]
            | exists 3%nat; split; [lia | reflexivity] ]. }
  destruct Hn as (n & _ & <-). apply super_iter_ancestor.
Qed.

(** The least common ancestor, computed from the tree alone. *)
Definition lca_check (r a b : Enum) : bool :=
  ancestorb r a && ancestorb r b &&
  forallb (fun c => implb (ancestorb c a && ancestorb c b) (ancestorb c r))
          all_enums.

Lemma lca_check_sound r a b : lca_check r a b = true -> is_lca r a b.
Proof.
  unfold lca_check. intros H.
  apply andb_prop in H as [H Hall]. apply andb_prop in H as [Ha Hb].
  repeat split; try now apply ancestorb_ancestor.
  intros c Hca Hcb. apply ancestorb_ancestor.
  rewrite forallb_forall in Hall.
  specialize (Hall c (all_enums_complete c)).
  rewrite (ancestor_ancestorb _ _ Hca), (ancestor_ancestorb _ _ Hcb) in Hall.
  exact Hall.
Qed.

(** C8.  With four or more turns allowed to each of its two loops,
    [Unify a b] returns, and what it returns is the least common
    ancestor of [a] and [b] in the tree [Super] spans (common ancestor of
    both, below every other common ancestor); [Unify] is commutative,
    [Unify a a] is [a] and [Unify EnumAny b] is [EnumAny].  In that tree
    number is the parent of exact-integer and exact-float, which the
    inexact integer and float refine. *)
Theorem Unify_least_common_ancestor :
  forall (n : nat) (a b : Enum),
    exists r,
      Unify (4 + n) a b = Some r /\
      is_lca r a b /\
      Unify (4 + n) b a = Some r /\
      Unify (4 + n) a a = Some a /\
      Unify (4 + n) EnumAny b = Some EnumAny /\
      Super EnumExactInteger = EnumNumber /\
      Super EnumExactFloat = EnumNumber /\
      Super EnumInexactInteger = EnumExactInteger /\
      Super EnumInexactFloat = EnumExactFloat /\
      Super EnumNumber = EnumAny.
Proof.
  intros n a b.
  destruct a, b;
    (eexists; split; [reflexivity|];
     split; [apply lca_check_sound; vm_compute; reflexivity|];
     repeat split; reflexivity).
Qed.

End TypesFacts.

(** ** The first virtual machine *)

Module VMFacts.
Import VM.

(** The state [OpCall] finds a call in: the frame at [fp] holds the
    lambda, the scope on top of the stack the arguments. *)
Definition call_of (vm : VM) (lambda : Lambda) (args : list Value) : Prop :=
  (exists next toplevel rest,
      stack vm !! fp vm
      = Some (VFrame (mkFrame next (Some lambda) toplevel) :: rest))
  /\ last (stack vm) = Some args.

Lemma call_dispatch_unfold vm lambda args :
  call_of vm lambda args ->
  call_dispatch vm =
    if Z.of_nat (length args) <? MinArgs lambda
    then DispatchFail ErrTooFewArguments
    else if Z.of_nat (length args) >? MaxArgs lambda
    then DispatchFail ErrTooManyArguments
    else match Native lambda with
         | Some native => DispatchInvoke native args
         | None => DispatchFail (ErrCall lambda)
         end.
Proof.
  intros [(next & top & rest & Hfp) Hlast].
  unfold call_dispatch. rewrite Hfp, Hlast. reflexivity.
Qed.

(** C1, as the code has it.  On a call of a native lambda with [argc]
    arguments the machine fails with "too few arguments" exactly when
    [argc < MinArgs], and with "too many arguments" exactly when
    [MinArgs <= argc] and [argc > MaxArgs] (the first test wins when both
    bounds are broken); the native is called exactly when
    [MinArgs <= argc <= MaxArgs], on the argument scope, and the step
    of the machine is that dispatch followed by the native. *)
Theorem call_arity :
  forall (natives : NativeId -> list Value -> Value + string)
         (code : Code) (vm : VM) (instr : Instr)
         (lambda : Lambda) (native : NativeId) (args : list Value),
    code !! pc vm = Some instr ->
    Op instr = OpCall ->
    call_of (set_pc vm (S (pc vm))) lambda args ->
    Native lambda = Some native ->
    let argc := Z.of_nat (length args) in
    let vm1 := set_pc vm (S (pc vm)) in
    (step natives code vm = Fail vm1 ErrTooFewArguments
     <-> argc < MinArgs lambda) /\
    (step natives code vm = Fail vm1 ErrTooManyArguments
     <-> MinArgs lambda <= argc /\ argc > MaxArgs lambda) /\
    (call_dispatch vm1 = DispatchInvoke native args
     <-> MinArgs lambda <= argc <= MaxArgs lambda) /\
    (forall n a, call_dispatch vm1 = DispatchInvoke n a ->
                 n = native /\ a = args /\
                 MinArgs lambda <= Z.of_nat (length a) <= MaxArgs lambda).
Proof.
  intros natives code vm instr lambda native args Hpc Hop Hcall Hnat argc vm1.
  pose proof (call_dispatch_unfold _ _ _ Hcall) as Hd.
  fold vm1 in Hd. fold argc in Hd. rewrite Hnat in Hd.
  assert (Hstep : step natives code vm =
                  match call_dispatch vm1 with
                  | DispatchPanic => Panic
                  | DispatchFail e => Fail vm1 e
                  | DispatchInvoke native args =>
                      match natives native args with
                      | inr msg => Fail vm1 (ErrNative msg)
                      | inl v =>
                          match popFrame (set_accu vm1 v) with
                          | Some vm' => Continue vm'
                          | None => Panic
                          end
                      end
                  end).
  { unfold step. rewrite Hpc, Hop. reflexivity. }
  rewrite Hstep, Hd.
  destruct (Z.ltb_spec argc (MinArgs lambda)) as [Hlt|Hge].
  - repeat split; intros; try lia; try discriminate; try tauto.
  - destruct (Z.gtb_spec argc (MaxArgs lambda)) as [Hgt|Hle].
    + repeat split; intros; try lia; try discriminate; try tauto.
    + repeat split; intros; try lia; try discriminate;
        try (destruct (natives native args) as [v|msg];
             [destruct (popFrame _)|]; discriminate);
        try (inversion H; subst; lia);
        try (inversion H; subst; reflexivity).
Qed.

(** ** The frame invariant *)

Lemma frames_lookup s n : frames s n -> exists f, s !! n = Some [VFrame f].
Proof. destruct 1; eauto. Qed.

Lemma frames_lt s n : frames s n -> (n < length s)%nat.
Proof.
  intros H. destruct (frames_lookup _ _ H) as [f Hf].
  eapply lookup_lt_Some; eauto.
Qed.

Lemma frames_app s t n : frames s n -> frames (s ++ t) n.
Proof.
  induction 1 as [f H0 Hl Hn | n f Hn Hlt Hrec IH].
  - eapply frames_top; eauto. apply lookup_app_l_Some; exact H0.
  - eapply frames_link; eauto. apply lookup_app_l_Some; exact Hn.
Qed.

Lemma frames_take s n m : frames s n -> (n < m)%nat -> frames (take m s) n.
Proof.
  induction 1 as [f H0 Hl Hn | n f Hn Hlt Hrec IH]; intros Hm.
  - eapply frames_top; eauto. rewrite lookup_take_lt by lia. exact H0.
  - eapply frames_link; eauto.
    + rewrite lookup_take_lt by lia. exact Hn.
    + apply IH. lia.
Qed.

Lemma frames_insert_above s n i x :
  frames s n -> (n < i)%nat -> frames (<[i := x]> s) n.
Proof.
  induction 1 as [f H0 Hl Hn | n f Hn Hlt Hrec IH]; intros Hi.
  - eapply frames_top; eauto.
    rewrite list_lookup_insert_ne by lia. exact H0.
  - eapply frames_link; eauto.
    + rewrite list_lookup_insert_ne by lia. exact Hn.
    + apply IH. lia.
Qed.

Lemma frame_at_frames vm :
  frames (stack vm) (fp vm) -> exists f, frame_at vm = Some f
                                         /\ stack vm !! fp vm = Some [VFrame f].
Proof.
  intros H. destruct (frames_lookup _ _ H) as [f Hf].
  exists f. unfold frame_at. rewrite Hf. auto.
Qed.

Lemma pushFrame_frames vm lambda top vm' l :
  frames (stack vm) (fp vm) ->
  pushFrame vm (Some l) top = Some vm' ->
  lambda = Some l ->
  frames (stack vm') (fp vm').
Proof.
  intros Hinv Hpush _. unfold pushFrame in Hpush.
  destruct (frame_at_frames _ Hinv) as (f & Hfa & Hf).
  pose proof (frames_lt _ _ Hinv) as Hlt.
  rewrite Hfa in Hpush.
  destruct (fp vm <? length (stack vm))%nat; inversion Hpush; subst; simpl;
    (eapply frames_link with (f := mkFrame (fp vm) (Some l) top); simpl;
     [ apply list_lookup_middle; reflexivity | exact Hlt
     | apply frames_app; exact Hinv ]).
Qed.

Lemma pushFrame_entry vm0 vm1 :
  fresh vm0 -> pushFrame vm0 None true = Some vm1 ->
  frames (stack vm1) (fp vm1).
Proof.
  intros [Hs Hfp] Hpush. unfold pushFrame in Hpush.
  rewrite Hs, Hfp in Hpush. simpl in Hpush. inversion Hpush; subst; simpl.
  rewrite Hs. simpl.
  eapply frames_top with (f := mkFrame 0 None true); reflexivity.
Qed.

(** [pushFrame] leaves [fp] on the frame it pushed. *)
Lemma pushFrame_establishes vm lambda top vm' :
  pushFrame vm lambda top = Some vm' ->
  stack vm' !! fp vm' = Some [VFrame (mkFrame (fp vm) lambda top)].
Proof.
  unfold pushFrame. intros H.
  destruct (if (fp vm <? length (stack vm))%nat then _ else _);
    inversion H; subst; simpl.
  apply list_lookup_middle. reflexivity.
Qed.

Lemma popFrame_frames vm vm' :
  frames (stack vm) (fp vm) ->
  popFrame vm = Some vm' ->
  (fp vm = 0%nat /\ fp vm' = 0%nat) \/ frames (stack vm') (fp vm').
Proof.
  intros Hinv Hpop. unfold popFrame in Hpop.
  destruct (frame_at_frames _ Hinv) as (f & Hfa & Hf).
  rewrite Hfa in Hpop. inversion Hpop; subst; simpl. clear Hpop.
  inversion Hinv as [f0 H0 Hl Hn Heq | n f0 Hn Hlt Hrec Heq].
  - left. rewrite <- Heq in Hf. rewrite H0 in Hf.
    inversion Hf; subst. auto.
  - right. rewrite Hn in Hf. inversion Hf; subst.
    apply frames_take; assumption.
Qed.

Lemma stack_set_frames s n i j v s' :
  frames s n -> Z.of_nat n < i -> stack_set s i j v = Some s' ->
  frames s' n.
Proof.
  intros Hinv Hi Hset. unfold stack_set in Hset.
  destruct ((i <? 0) || (j <? 0)); [discriminate|].
  destruct (s !! Z.to_nat i) as [scope|]; [|discriminate].
  destruct (Z.to_nat j <? length scope)%nat; inversion Hset; subst.
  apply frames_insert_above; [assumption | lia].
Qed.

Section Invariant.

Variable natives : NativeId -> list Value -> Value + string.
Variable code : Code.
Hypothesis Hcode : local_sets_above_frame code.

Lemma step_frames vm vm' :
  frames (stack vm) (fp vm) ->
  step natives code vm = Continue vm' ->
  frames (stack vm') (fp vm').
Proof.
  intros Hinv Hstep. unfold step in Hstep.
  destruct (code !! pc vm) as [instr|] eqn:Hpc; [|discriminate].
  assert (Hin : instr ∈ code) by (eapply list_elem_of_lookup_2; eauto).
  destruct (Op instr) eqn:Hop; try discriminate.
  - (* OpConst *) inversion Hstep; subst; exact Hinv.
  - (* OpDefine *)
    destruct (Sym instr); [|discriminate]. simpl in Hstep.
    destruct (symbols vm !! s); inversion Hstep; subst; exact Hinv.
  - (* OpLambda *)
    destruct ((0 <=? I instr) && (I instr <=? J instr) && _);
      inversion Hstep; subst; exact Hinv.
  - (* OpGlobal *)
    destruct (Sym instr); [|discriminate]. simpl in Hstep.
    destruct (symbols vm !! s); inversion Hstep; subst; exact Hinv.
  - (* OpLocalSet *)
    simpl in Hstep.
    destruct (stack_set _ _ _ _) as [s|] eqn:Hset; inversion Hstep; subst.
    simpl. eapply stack_set_frames; eauto.
    specialize (Hcode instr Hin Hop). lia.
  - (* OpPushF *)
    simpl in Hstep. destruct (accu vm); try discriminate.
    destruct (pushFrame _ _ _) as [vm1|] eqn:Hpush; inversion Hstep; subst.
    eapply pushFrame_frames with (vm := set_pc vm (S (pc vm))); eauto.
  - (* OpPushS *)
    destruct (pushScope _ _) as [vm1|] eqn:Hps; inversion Hstep; subst.
    unfold pushScope in Hps.
    destruct ((I instr <? 0) || (maxAlloc <? 16 * I instr));
      inversion Hps; subst; simpl.
    apply frames_app. exact Hinv.
  - (* OpCall *)
    destruct (call_dispatch _) as [|e|native args] eqn:Hd;
      try discriminate.
    destruct (natives native args) as [v|msg]; [|discriminate].
    destruct (popFrame _) as [vm1|] eqn:Hpop; inversion Hstep; subst.
    pose proof (popFrame_frames (set_accu (set_pc vm (S (pc vm))) v) vm'
                  Hinv Hpop) as [[Hz _]|Hok]; [|exact Hok].
    (* the frame at index 0 is the toplevel frame: no lambda to call *)
    exfalso. simpl in Hz.
    unfold call_dispatch in Hd. simpl in Hd.
    inversion Hinv as [f0 H0 Hl Hn Heq | n f0 Hn Hlt Hrec Heq].
    + rewrite <- Heq in Hd. rewrite H0 in Hd.
      destruct f0 as [nx fl tp]. simpl in Hl. subst fl. discriminate.
    + lia.
  - (* OpHalt *)
    destruct (popFrame _); discriminate.
Qed.

Lemma reachable_frames vm0 vm :
  fresh vm0 -> reachable natives code vm0 vm ->
  frames (stack vm) (fp vm).
Proof.
  intros Hfresh. induction 1 as [vm1 Hpush | vm vm' Hr IH Hstep].
  - eapply pushFrame_entry; eauto.
  - eapply step_frames; eauto.
Qed.

End Invariant.

Lemma frames_frame_inv vm : frames (stack vm) (fp vm) -> frame_inv vm.
Proof. intros H. right. apply frames_lookup. exact H. Qed.

(** C2, as the code has it.  When the [OpLocalSet] instructions of the
    code address scopes above the frame ([I >= 0]), every state
    [Execute] reaches on a machine as [NewVM] returns it has [fp] equal
    to 0 or on a scope that holds exactly one value, a [Frame];
    [pushFrame] leaves [fp] on the frame it pushed, and [popFrame] in a
    reachable state leaves a state with the invariant. *)
Theorem frame_invariant :
  forall (natives : NativeId -> list Value -> Value + string)
         (code : Code) (vm0 vm : VM),
    local_sets_above_frame code ->
    fresh vm0 ->
    reachable natives code vm0 vm ->
    frame_inv vm /\
    (forall lambda top vm',
        pushFrame vm lambda top = Some vm' ->
        fp vm' = length (stack vm) /\
        stack vm' !! fp vm' = Some [VFrame (mkFrame (fp vm) lambda top)]) /\
    (forall vm', popFrame vm = Some vm' -> frame_inv vm').
Proof.
  intros natives code vm0 vm Hcode Hfresh Hreach.
  pose proof (reachable_frames natives code Hcode vm0 vm Hfresh Hreach)
    as Hinv.
  split; [apply frames_frame_inv; exact Hinv|]. split.
  - intros lambda top vm' Hpush. split.
    + unfold pushFrame in Hpush.
      destruct (if (fp vm <? length (stack vm))%nat then _ else _);
        inversion Hpush; reflexivity.
    + apply pushFrame_establishes. exact Hpush.
  - intros vm' Hpop.
    destruct (popFrame_frames _ _ Hinv Hpop) as [[_ Hz]|Hok].
    + left. exact Hz.
    + apply frames_frame_inv. exact Hok.
Qed.

(** ** Concrete runs *)

(** [n] turns of the loop, as long as they continue. *)
Fixpoint steps (natives : NativeId -> list Value -> Value + string)
    (n : nat) (code : Code) (vm : VM) : option VM :=
  match n with
  | O => Some vm
  | S n' =>
      match step natives code vm with
      | Continue vm' => steps natives n' code vm'
      | _ => None
      end
  end.

Lemma steps_reachable natives n code vm0 vm vm' :
  reachable natives code vm0 vm ->
  steps natives n code vm = Some vm' ->
  reachable natives code vm0 vm'.
Proof.
  revert vm. induction n as [|n IH]; intros vm Hr Hs; simpl in Hs.
  - inversion Hs; subst; exact Hr.
  - destruct (step natives code vm) as [vm1| | |] eqn:Hstep;
      try discriminate.
    eapply IH; [|exact Hs]. eapply reach_step; eauto.
Qed.

(** A table whose natives all return nil. *)
Definition natives_nil : NativeId -> list Value -> Value + string :=
  fun _ _ => inl Nil.

(** The machine [NewVM] makes, before any builtin is defined. *)
Definition new_vm : VM := mkVM [] 0 0 Nil [] ∅.

Definition instr_global (name : string) : Instr :=
  mkInstr OpGlobal Nil 0 0 (Some name).
Definition instr_op (op : Operand) (i j : Z) : Instr :=
  mkInstr op Nil i j None.

(** [(f x)] for a builtin [f]: fetch it, push the call frame and a
    scope of one argument, call. *)
Definition call_code : Code :=
  [ instr_global "f"; instr_op OpPushF 0 0; instr_op OpPushS 1 0;
    instr_op OpCall 0 0 ].

(** The state the machine is in after [n] turns on [code], started by
    [Execute] on [vm0]. *)
Definition state_after (n : nat) (code : Code) (vm0 : VM) : VM :=
  match pushFrame vm0 None true with
  | Some vm1 => default vm1 (steps natives_nil n code vm1)
  | None => vm0
  end.

(** A builtin of one or two arguments. *)
Definition vm_f12 : VM := DefineBuiltin new_vm "f" 1 2 7%nat.
Definition lambda_f12 : Lambda := mkLambda 1 2 (Some 7%nat) None.

(** A builtin declared with [MinArgs = 2] above [MaxArgs = 0]. *)
Definition vm_f20 : VM := DefineBuiltin new_vm "f" 2 0 7%nat.
Definition lambda_f20 : Lambda := mkLambda 2 0 (Some 7%nat) None.

Lemma call_arity_witness :
  let vm := state_after 3 call_code vm_f12 in
  let vm1 := set_pc vm (S (pc vm)) in
  (step natives_nil call_code vm = Fail vm1 ErrTooFewArguments
   <-> 1 < MinArgs lambda_f12) /\
  (step natives_nil call_code vm = Fail vm1 ErrTooManyArguments
   <-> MinArgs lambda_f12 <= 1 /\ 1 > MaxArgs lambda_f12) /\
  (call_dispatch vm1 = DispatchInvoke 7%nat [Nil]
   <-> MinArgs lambda_f12 <= 1 <= MaxArgs lambda_f12) /\
  (forall n a, call_dispatch vm1 = DispatchInvoke n a ->
               n = 7%nat /\ a = [Nil] /\
               MinArgs lambda_f12 <= Z.of_nat (length a)
               <= MaxArgs lambda_f12).
Proof.
  apply (call_arity natives_nil call_code (state_after 3 call_code vm_f12)
           (instr_op OpCall 0 0) lambda_f12 7%nat [Nil]).
  - vm_compute. reflexivity.
  - reflexivity.
  - split.
    + exists 0%nat, false, []. vm_compute. reflexivity.
    + vm_compute. reflexivity.
  - reflexivity.
Defined.

(** C1 as stated fails on a builtin declared with [MinArgs] above
    [MaxArgs]: one argument is more than [MaxArgs = 0], and the call
    fails with "too few arguments", not with "too many arguments". *)
Lemma call_arity_counterexample :
  let vm := state_after 3 call_code vm_f20 in
  let vm1 := set_pc vm (S (pc vm)) in
  call_of vm1 lambda_f20 [Nil] /\
  Native lambda_f20 = Some 7%nat /\
  Z.of_nat (length [Nil : Value]) > MaxArgs lambda_f20 /\
  step natives_nil call_code vm = Fail vm1 ErrTooFewArguments /\
  step natives_nil call_code vm <> Fail vm1 ErrTooManyArguments.
Proof.
  cbv zeta. split; [|split; [|split; [|split]]].
  - split.
    + exists 0%nat, false, []. vm_compute. reflexivity.
    + vm_compute. reflexivity.
  - reflexivity.
  - vm_compute. reflexivity.
  - vm_compute. reflexivity.
  - vm_compute. discriminate.
Qed.

Lemma call_code_local_sets : local_sets_above_frame call_code.
Proof.
  intros instr Hin Hop. unfold call_code in Hin.
  repeat (apply elem_of_cons in Hin as [->|Hin]); try discriminate.
  inversion Hin.
Qed.

Lemma state_after_reachable n code vm0 vm1 vm :
  pushFrame vm0 None true = Some vm1 ->
  steps natives_nil n code vm1 = Some vm ->
  reachable natives_nil code vm0 (state_after n code vm0).
Proof.
  intros Hpush Hsteps. unfold state_after. rewrite Hpush, Hsteps. simpl.
  eapply steps_reachable; [|exact Hsteps]. apply reach_entry. exact Hpush.
Qed.

Lemma frame_invariant_witness :
  let vm := state_after 3 call_code vm_f12 in
  frame_inv vm /\
  (forall lambda top vm',
      pushFrame vm lambda top = Some vm' ->
      fp vm' = length (stack vm) /\
      stack vm' !! fp vm' = Some [VFrame (mkFrame (fp vm) lambda top)]) /\
  (forall vm', popFrame vm = Some vm' -> frame_inv vm').
Proof.
  apply (frame_invariant natives_nil call_code vm_f12
           (state_after 3 call_code vm_f12)).
  - exact call_code_local_sets.
  - split; reflexivity.
  - eapply state_after_reachable; vm_compute; reflexivity.
Defined.

(** A store through [OpLocalSet] with [I = -1] addresses the scope at
    [fp] itself. *)
Definition overwrite_code : Code :=
  [ instr_global "f"; instr_op OpPushF 0 0;
    mkInstr OpConst (VNumber 5) 0 0 None; instr_op OpLocalSet (-1) 0 ].

(** C2 as stated fails: after the four instructions of [overwrite_code]
    the machine continues with [fp = 1] on a scope that holds the number
    5 and no frame. *)
Lemma frame_invariant_counterexample :
  let vm := state_after 4 overwrite_code vm_f12 in
  fresh vm_f12 /\
  reachable natives_nil overwrite_code vm_f12 vm /\
  fp vm = 1%nat /\
  stack vm !! fp vm = Some [VNumber 5] /\
  ~ frame_inv vm.
Proof.
  cbv zeta. split; [split; reflexivity|]. split.
  - eapply state_after_reachable; vm_compute; reflexivity.
  - split; [vm_compute; reflexivity|].
    split; [vm_compute; reflexivity|].
    intros [H|[f H]]; vm_compute in H; discriminate.
Qed.

(** ** The [Global] instruction *)

(** A symbol interned with no global value. *)
Definition vm_x : VM := fst (Intern new_vm "x").
Definition global_code : Code := [ instr_global "x" ].

End VMFacts.

(** ** Numbers *)

Module NumbersFacts.
Import Values Numbers.

Lemma plus_loop_int64s sum l :
  in_int64 sum ->
  plus_loop sum (map int_in_base l)
  = Ok (VNumber (mkNumber 0 (NInt64 (wrap64 (sum + sumZ (map snd l)))))).
Proof.
  revert sum. induction l as [|[b z] l IH]; intros sum Hsum; simpl.
  - unfold sumZ; simpl. rewrite Z.add_0_r, wrap64_id by exact Hsum.
    reflexivity.
  - rewrite IH by apply wrap64_range.
    rewrite wrap64_add_l.
    replace (sum + z + sumZ (map snd l)) with (sum + sumZ (z :: map snd l))
      by (unfold sumZ; simpl; lia).
    reflexivity.
Qed.

Lemma plus_loop_stops l bad post e :
  (forall sum, plus_loop sum (bad :: post) = Err e) ->
  forall sum, plus_loop sum (map int_in_base l ++ bad :: post) = Err e.
Proof.
  intros Hbad. induction l as [|[b z] l IH]; intros sum; simpl.
  - apply Hbad.
  - apply IH.
Qed.

Lemma compare_eq_true (v w : Z) :
  match v ?= w with Eq => true | _ => false end = true <-> v = w.
Proof.
  destruct (Z.compare_spec v w); split; intros; try lia; try discriminate;
    reflexivity.
Qed.

Lemma Equal_num_val n m : Equal n (VNumber m) = true <-> num_val n = num_val m.
Proof.
  unfold Equal, num_val.
  destruct (NValue n) as [v|v], (NValue m) as [w|w].
  - apply Z.eqb_eq.
  - rewrite compare_eq_true. split; congruence.
  - apply compare_eq_true.
  - apply compare_eq_true.
Qed.

(** C3, as the code has it.  On exact integers held as [int64],
    whatever their bases, the builtin [+] returns the number of base 0
    whose value is the sum wrapped around to 64 bits, which is the
    exact sum whenever that fits an [int64] (so [(+ 1 2 3)] is 6); a
    big integer among the arguments is an invalid-argument error, and
    so is a value that is no number; [Equal] on numbers compares the
    integers they stand for, whatever their base and representation. *)
Theorem plus_wraps_and_Equal_normalizes :
  (forall l : list (Z * Z),
      exists r,
        plus (map int_in_base l) = Ok (VNumber r) /\
        Base r = 0 /\
        num_val r = wrap64 (sumZ (map snd l)) /\
        (in_int64 (sumZ (map snd l)) -> num_val r = sumZ (map snd l))) /\
  plus [int 1; int 2; int 3] = Ok (int 6) /\
  (forall pre base v post,
      plus (map int_in_base pre ++ VNumber (mkNumber base (NBigInt v)) :: post)
      = Err (InvalidAgument (mkNumber base (NBigInt v)))) /\
  (forall pre arg post,
      not_number arg = true ->
      plus (map int_in_base pre ++ arg :: post) = Err (InvalidArgument arg)) /\
  (forall n m : Number,
      Equal n (VNumber m) = true <-> num_val n = num_val m).
Proof.
  split; [|split; [reflexivity|split; [|split]]].
  - intros l. unfold plus.
    rewrite plus_loop_int64s by (unfold in_int64; lia).
    eexists; split; [reflexivity|]. unfold num_val; simpl.
    split; [reflexivity|]. split; [reflexivity|].
    intros Hfit. apply wrap64_id. exact Hfit.
  - intros pre base v post. unfold plus.
    apply plus_loop_stops. intros sum. reflexivity.
  - intros pre arg post Harg. unfold plus.
    apply plus_loop_stops. intros sum.
    destruct arg; try reflexivity; discriminate.
  - apply Equal_num_val.
Qed.

(** C3 as stated fails: the sum of the largest [int64] and 1 comes back
    as the smallest [int64], a number that is not [Equal] to the exact
    sum in either representation; and a big integer argument is refused. *)
Lemma plus_counterexample :
  plus [int (2 ^ 63 - 1); int 1] = Ok (int (- 2 ^ 63)) /\
  sumZ [2 ^ 63 - 1; 1] = 2 ^ 63 /\
  Equal (mkNumber 0 (NInt64 (- 2 ^ 63)))
        (VNumber (mkNumber 0 (NBigInt (2 ^ 63)))) = false /\
  plus [VNumber (mkNumber 0 (NBigInt 1))]
  = Err (InvalidAgument (mkNumber 0 (NBigInt 1))).
Proof. repeat split; vm_compute; reflexivity. Qed.

End NumbersFacts.

(** ** Strings *)

Module StringsFacts.
Import Values Strings.

(** The two bytes of U+00E9 in UTF-8. *)
Definition e_acute : list Z := [0xC3; 0xA9].

(** Forty times U+00E9: eighty bytes, forty runes. *)
Definition forty_e_acute : string :=
  string_of_bytes (repeat_bytes 40 e_acute).

Lemma roundupsize_ge size : size <= roundupsize size.
Proof.
  unfold roundupsize.
  destruct (List.find (fun c => size <=? c) size_classes) as [c|] eqn:E.
  - apply find_some in E as [_ E]. apply Z.leb_le in E. exact E.
  - pose proof (Z.mod_pos_bound (size + 8191) 8192 ltac:(lia)) as Hm.
    pose proof (Z.div_mod (size + 8191) 8192 ltac:(lia)) as Hd.
    lia.
Qed.

(** The capacity holds the runes. *)
Lemma rune_cap_ge n : (n <= rune_cap n)%nat.
Proof.
  unfold rune_cap. destruct (Nat.leb_spec n 32) as [H|H]; [exact H|].
  pose proof (roundupsize_ge (4 * Z.of_nat n)) as Hr.
  assert (Z.of_nat n <= roundupsize (4 * Z.of_nat n) / 4)
    by (apply Z.div_le_lower_bound; lia).
  lia.
Qed.

Lemma slice_in_range (l : list Z) start end_ :
  0 <= start <= end_ -> end_ <= Z.of_nat (length l) ->
  slice l start end_
  = Some (take (Z.to_nat (end_ - start)) (drop (Z.to_nat start) l)).
Proof.
  intros H1 H2. unfold slice.
  pose proof (rune_cap_ge (length l)) as Hc.
  destruct (Z.leb_spec 0 start); [|lia].
  destruct (Z.leb_spec start end_); [|lia].
  destruct (Z.leb_spec end_ (Z.of_nat (rune_cap (length l)))); [|lia].
  simpl. f_equal.
  rewrite drop_app_le by lia.
  rewrite take_app_le by (rewrite length_drop; lia).
  reflexivity.
Qed.

(** Within the runes of the string [substring] returns the characters
    at the positions from [start] up to [end]. *)
Lemma substring_in_range (s : string) (start end_ : Z) :
  0 <= start <= end_ ->
  end_ <= Z.of_nat (length (runes (bytes_of s))) ->
  end_ <= Z.of_nat (String.length s) ->
  substring [VString s; int start; int end_]
  = Ok (VString (string_of_runes
                   (take (Z.to_nat (end_ - start))
                         (drop (Z.to_nat start) (runes (bytes_of s)))))).
Proof.
  intros H1 H2 H3. unfold substring. simpl.
  destruct (Z.ltb_spec start 0); [lia|].
  destruct (Z.ltb_spec end_ start); [lia|].
  destruct (Z.gtb_spec end_ (Z.of_nat (String.length s))); [lia|].
  simpl. rewrite slice_in_range by lia. reflexivity.
Qed.

(** C7 at its failing input.  [(substring "hello" 1 4)] is ["ell"]; on
    the string of forty U+00E9 the indices 0 and 80 pass the validation,
    which compares [end] with the 80 bytes of the string, and the slice
    of its 40 runes, whose capacity is 40, is out of range: the
    evaluation panics. *)
Theorem substring_validates_bytes_slices_runes :
  substring [VString "hello"; int 1; int 4] = Ok (VString "ell") /\
  String.length forty_e_acute = 80%nat /\
  length (runes (bytes_of forty_e_acute)) = 40%nat /\
  substring [VString forty_e_acute; int 0; int 80] = Panic.
Proof. repeat split; vm_compute; reflexivity. Qed.

End StringsFacts.

(** ** Bytevectors *)

Module ByteVectorsFacts.
Import Values ByteVectors.

Lemma equal_loop_refl v : equal_loop v v = true.
Proof.
  induction v as [|b v IH]; simpl; [reflexivity|].
  rewrite Z.eqb_refl. exact IH.
Qed.

Lemma len_zero h v : len h v = 0 <-> bytes h v = [].
Proof.
  unfold len. destruct (bytes h v); simpl; split; intros; try lia;
    try reflexivity; discriminate.
Qed.

Lemma Eq_true h v o :
  Eq h v o = true <->
  exists ov, o = VByteVector ov /\ bytes h v = [] /\ bytes h ov = [].
Proof.
  unfold Eq. split.
  - destruct o; try discriminate.
    destruct (Z.eqb_spec (len h v) 0) as [Hv|]; [|discriminate].
    destruct (Z.eqb_spec (len h v0) 0) as [Ho|]; [|discriminate].
    intros _. exists v0. rewrite <- !len_zero. auto.
  - intros (ov & -> & Hv & Ho).
    apply len_zero in Hv. apply len_zero in Ho. rewrite Hv, Ho. reflexivity.
Qed.

(** C9, as the code has it.  [Eq] on bytevectors is true exactly when
    the argument is a bytevector and both are empty; so [Eq v v] is true
    exactly for an empty [v], and whenever [Eq] is true [Equal] is true
    as well. *)
Theorem Eq_only_on_empty :
  forall (h : Store) (v : loc) (o : Value),
    (Eq h v o = true <->
     exists ov, o = VByteVector ov /\ bytes h v = [] /\ bytes h ov = []) /\
    (Eq h v (VByteVector v) = true <-> bytes h v = []) /\
    (Eq h v o = true -> Equal h v o = true).
Proof.
  intros h v o. split; [apply Eq_true|]. split.
  - rewrite Eq_true. split.
    + intros (ov & _ & Hv & _). exact Hv.
    + intros Hv. exists v. auto.
  - rewrite Eq_true. intros (ov & -> & Hv & Ho).
    unfold Equal, len. rewrite Hv, Ho. reflexivity.
Qed.

(** A store with the one bytevector [#vu8(1)] at address 0. *)
Definition store_one : Store := {[ 0%nat := [1] ]}.

(** C9 as stated fails: [eq?] of the bytevector [#vu8(1)] with itself is
    false, though [Equal] is true. *)
Lemma Eq_counterexample :
  bytes store_one 0%nat = [1] /\
  Eq store_one 0%nat (VByteVector 0%nat) = false /\
  Equal store_one 0%nat (VByteVector 0%nat) = true.
Proof. repeat split; vm_compute; reflexivity. Qed.

(** ** [bytevector-copy!] *)

(** The [int64] numbers among the arguments hold [int64] values. *)
Definition well_typed (v : Value) : Prop :=
  match v with
  | VNumber n =>
      match NValue n with
      | NInt64 z => in_int64 z
      | NBigInt _ => True
      end
  | _ => True
  end.

Lemma Int64_in_range v z : well_typed v -> Int64 v = Some z -> in_int64 z.
Proof.
  unfold well_typed, Int64. destruct v; try discriminate.
  destruct (NValue n); intros H Hz; inversion Hz; subst.
  - exact H.
  - apply wrap64_range.
Qed.

Lemma wrap64_sum_nonneg a k :
  in_int64 a -> in_int64 k -> 0 <= a -> 0 <= k -> a <= wrap64 (a + k) ->
  wrap64 (a + k) = a + k.
Proof.
  unfold in_int64. intros Ha Hk Ha0 Hk0 Hle.
  destruct (Z_lt_le_dec (a + k) (2 ^ 63)) as [Hs|Hs].
  - apply wrap64_id. unfold in_int64. lia.
  - exfalso. unfold wrap64 in Hle.
    replace (a + k + 2 ^ 63) with (a + k - 2 ^ 63 + 1 * 2 ^ 64) in Hle by lia.
    rewrite Z_mod_plus_full in Hle.
    rewrite Z.mod_small in Hle by lia. lia.
Qed.

Lemma copy_into_length t ts s ss k :
  0 <= ts -> 0 <= ss -> 0 <= k ->
  ts + k <= Z.of_nat (length t) -> ss + k <= Z.of_nat (length s) ->
  length (copy_into t ts (ts + k) s ss (ss + k)) = length t.
Proof.
  intros. unfold copy_into.
  rewrite !length_app, !length_take, !length_drop. lia.
Qed.

Lemma copy_into_inside t ts s ss k i :
  0 <= ts -> 0 <= ss -> 0 <= k ->
  ts + k <= Z.of_nat (length t) -> ss + k <= Z.of_nat (length s) ->
  0 <= i < k ->
  copy_into t ts (ts + k) s ss (ss + k) !! Z.to_nat (ts + i)
  = s !! Z.to_nat (ss + i).
Proof.
  intros Hts Hss Hk Ht Hs Hi. unfold copy_into.
  replace (Z.min (ts + k - ts) (ss + k - ss)) with k by lia.
  rewrite lookup_app_r by (rewrite length_take; lia).
  rewrite length_take.
  replace (Z.to_nat (ts + i) - Z.to_nat ts `min` length t)%nat
    with (Z.to_nat i) by lia.
  rewrite lookup_app_l by (rewrite length_take, length_drop; lia).
  rewrite lookup_take_lt by lia.
  rewrite lookup_drop. f_equal. lia.
Qed.

Lemma copy_into_outside t ts s ss k (j : nat) :
  0 <= ts -> 0 <= ss -> 0 <= k ->
  ts + k <= Z.of_nat (length t) -> ss + k <= Z.of_nat (length s) ->
  (j < Z.to_nat ts \/ Z.to_nat (ts + k) <= j)%nat ->
  copy_into t ts (ts + k) s ss (ss + k) !! j = t !! j.
Proof.
  intros Hts Hss Hk Ht Hs Hj. unfold copy_into.
  replace (Z.min (ts + k - ts) (ss + k - ss)) with k by lia.
  destruct Hj as [Hj|Hj].
  - rewrite lookup_app_l by (rewrite length_take; lia).
    apply lookup_take_lt. lia.
  - rewrite lookup_app_r by (rewrite length_take; lia).
    rewrite length_take.
    rewrite lookup_app_r by (rewrite length_take, length_drop; lia).
    rewrite length_take, length_drop.
    rewrite lookup_drop. f_equal. lia.
Qed.

(** What a call that returns without error went through. *)
Definition copied (h : Store) (args : list Value) (h' : Store)
    (source target : loc) (sourceStart targetStart k : Z) : Prop :=
  args !! 0%nat = Some (VByteVector source) /\
  args !! 2%nat = Some (VByteVector target) /\
  (exists a1, args !! 1%nat = Some a1 /\ Int64 a1 = Some sourceStart) /\
  (exists a3, args !! 3%nat = Some a3 /\ Int64 a3 = Some targetStart) /\
  (exists a4, args !! 4%nat = Some a4 /\ Int64 a4 = Some k) /\
  0 <= sourceStart /\ 0 <= targetStart /\ 0 <= k /\
  wrap64 (sourceStart + k) <= len h source /\
  wrap64 (targetStart + k) <= len h target /\
  sourceStart <= wrap64 (sourceStart + k) /\
  targetStart <= wrap64 (targetStart + k) /\
  h' = <[target :=
           copy_into (bytes h target) targetStart
             (wrap64 (targetStart + k))
             (bytes h source) sourceStart (wrap64 (sourceStart + k))]> h.

Lemma bytevector_copy_inv h args h' r :
  bytevector_copy h args = (h', r) ->
  (h' = h /\ r <> Ok Nil) \/
  (r = Ok Nil /\
   exists source target sourceStart targetStart k,
     copied h args h' source target sourceStart targetStart k).
Proof.
  unfold bytevector_copy.
  assert (Hleft : forall (e : Result Error Value),
             e <> Ok Nil -> (h, e) = (h', r) ->
             (h' = h /\ r <> Ok Nil) \/
             (r = Ok Nil /\
              exists source target sourceStart targetStart k,
                copied h args h' source target sourceStart targetStart k)).
  { intros e He Heq. inversion Heq; subst. left. split; [reflexivity|exact He]. }
  destruct (args !! 0%nat) as [a0|] eqn:H0;
    [|apply Hleft; discriminate].
  destruct a0 as [| | | | |source|]; try (apply Hleft; discriminate).
  destruct (args !! 2%nat) as [a2|] eqn:H2;
    [|apply Hleft; discriminate].
  destruct a2 as [| | | | |target|]; try (apply Hleft; discriminate).
  destruct (args !! 1%nat) as [a1|] eqn:H1;
    [|apply Hleft; discriminate].
  destruct (Int64 a1) as [ss|] eqn:Hss; [|apply Hleft; discriminate].
  destruct (Z.ltb_spec ss 0) as [Hss0|Hss0]; [apply Hleft; discriminate|].
  destruct (args !! 3%nat) as [a3|] eqn:H3;
    [|apply Hleft; discriminate].
  destruct (Int64 a3) as [ts|] eqn:Hts; [|apply Hleft; discriminate].
  destruct (Z.ltb_spec ts 0) as [Hts0|Hts0]; [apply Hleft; discriminate|].
  destruct (args !! 4%nat) as [a4|] eqn:H4;
    [|apply Hleft; discriminate].
  destruct (Int64 a4) as [k|] eqn:Hk; [|apply Hleft; discriminate].
  destruct (Z.ltb_spec k 0) as [Hk0|Hk0]; [apply Hleft; discriminate|].
  cbv zeta.
  destruct (Z.gtb_spec (wrap64 (ss + k)) (len h source)) as [Hse|Hse];
    [apply Hleft; discriminate|].
  destruct (Z.gtb_spec (wrap64 (ts + k)) (len h target)) as [Hte|Hte];
    [apply Hleft; discriminate|].
  destruct (slice_ok (bytes h target) ts (wrap64 (ts + k))
            && slice_ok (bytes h source) ss (wrap64 (ss + k))) eqn:Hok;
    [|apply Hleft; discriminate].
  intros Heq; inversion Heq; subst. right. split; [reflexivity|].
  apply andb_prop in Hok as [Ht Hs]. unfold slice_ok in Ht, Hs.
  apply andb_prop in Ht as [Ht _]. apply andb_prop in Ht as [_ Ht].
  apply andb_prop in Hs as [Hs _]. apply andb_prop in Hs as [_ Hs].
  apply Z.leb_le in Ht, Hs.
  exists source, target, ss, ts, k. unfold copied.
  repeat split; eauto.
Qed.

(** C10.  On well-typed arguments, whenever [bytevector-copy!] returns
    an error (or panics) the store is the one before the call; when it
    succeeds all the bounds hold, the target keeps its length, its [k]
    bytes from [targetStart] are the [k] bytes the source had from
    [sourceStart] before the call, every other byte of the target is
    what it was, every other bytevector of the store is untouched, and
    so is the source when it is not the target. *)
Theorem bytevector_copy_atomic_and_framed :
  forall (h : Store) (args : list Value) (h' : Store)
         (r : Result Error Value),
    Forall well_typed args ->
    bytevector_copy h args = (h', r) ->
    (r <> Ok Nil -> h' = h) /\
    (r = Ok Nil ->
     exists source target sourceStart targetStart k,
       copied h args h' source target sourceStart targetStart k /\
       sourceStart + k <= len h source /\
       targetStart + k <= len h target /\
       length (bytes h' target) = length (bytes h target) /\
       (forall i, 0 <= i < k ->
                  bytes h' target !! Z.to_nat (targetStart + i)
                  = bytes h source !! Z.to_nat (sourceStart + i)) /\
       (forall j : nat,
           (j < Z.to_nat targetStart \/ Z.to_nat (targetStart + k) <= j)%nat ->
           bytes h' target !! j = bytes h target !! j) /\
       (forall l : loc, l <> target -> h' !! l = h !! l) /\
       (source <> target -> bytes h' source = bytes h source)).
Proof.
  intros h args h' r Hwt Hcall.
  destruct (bytevector_copy_inv _ _ _ _ Hcall) as [[-> Hr]|[-> Hex]].
  - split; [reflexivity|]. intros Heq. contradiction.
  - split; [intros Hne; contradiction|]. intros _.
    destruct Hex as (source & target & ss & ts & k & Hc).
    exists source, target, ss, ts, k. split; [exact Hc|].
    destruct Hc as (H0 & H2 & (a1 & H1 & Hss) & (a3 & H3 & Hts)
                    & (a4 & H4 & Hk) & Hss0 & Hts0 & Hk0 & Hse & Hte
                    & Hsle & Htle & ->).
    rewrite Forall_forall in Hwt.
    assert (Rss : in_int64 ss).
    { eapply Int64_in_range; [|exact Hss].
      apply Hwt. eapply list_elem_of_lookup_2; eauto. }
    assert (Rts : in_int64 ts).
    { eapply Int64_in_range; [|exact Hts].
      apply Hwt. eapply list_elem_of_lookup_2; eauto. }
    assert (Rk : in_int64 k).
    { eapply Int64_in_range; [|exact Hk].
      apply Hwt. eapply list_elem_of_lookup_2; eauto. }
    pose proof (wrap64_sum_nonneg ss k Rss Rk Hss0 Hk0 Hsle) as Es.
    pose proof (wrap64_sum_nonneg ts k Rts Rk Hts0 Hk0 Htle) as Et.
    rewrite Es in Hse. rewrite Et in Hte. rewrite Es, Et. clear Hcall.
    unfold len in Hse, Hte.
    assert (Hb : bytes (<[target := copy_into (bytes h target) ts (ts + k)
                                      (bytes h source) ss (ss + k)]> h) target
                 = copy_into (bytes h target) ts (ts + k)
                     (bytes h source) ss (ss + k)).
    { unfold bytes at 1. rewrite lookup_insert_eq. reflexivity. }
    split; [unfold len; exact Hse|]. split; [unfold len; exact Hte|].
    rewrite Hb.
    split; [apply copy_into_length; assumption|].
    split; [intros i Hi; apply copy_into_inside; assumption|].
    split; [intros j Hj; apply copy_into_outside; assumption|].
    split.
    + intros l Hl. apply lookup_insert_ne. congruence.
    + intros Hne. unfold bytes. rewrite lookup_insert_ne by congruence.
      reflexivity.
Qed.

(** Two bytevectors, [#vu8(1 2 3 4)] and [#vu8(9 9 9 9 9)]. *)
Definition store_two : Store :=
  <[ 1%nat := [9; 9; 9; 9; 9] ]> {[ 0%nat := [1; 2; 3; 4] ]}.

Definition copy_args : list Value :=
  [ VByteVector 0%nat; int 1; VByteVector 1%nat; int 2; int 2 ].

Definition store_two_copied : Store :=
  <[ 1%nat := [9; 9; 2; 3; 9] ]> store_two.

Lemma bytevector_copy_witness :
  (Ok Nil <> Ok Nil :> Result Error Value -> store_two_copied = store_two) /\
  (Ok Nil = Ok Nil :> Result Error Value ->
   exists source target sourceStart targetStart k,
     copied store_two copy_args store_two_copied
       source target sourceStart targetStart k /\
     sourceStart + k <= len store_two source /\
     targetStart + k <= len store_two target /\
     length (bytes store_two_copied target)
     = length (bytes store_two target) /\
     (forall i, 0 <= i < k ->
                bytes store_two_copied target !! Z.to_nat (targetStart + i)
                = bytes store_two source !! Z.to_nat (sourceStart + i)) /\
     (forall j : nat,
         (j < Z.to_nat targetStart \/ Z.to_nat (targetStart + k) <= j)%nat ->
         bytes store_two_copied target !! j = bytes store_two target !! j) /\
     (forall l : loc, l <> target ->
                      store_two_copied !! l = store_two !! l) /\
     (source <> target ->
      bytes store_two_copied source = bytes store_two source)).
Proof.
  apply (bytevector_copy_atomic_and_framed store_two copy_args
           store_two_copied (Ok Nil)).
  - unfold copy_args, int.
    repeat constructor; unfold in_int64; simpl; lia.
  - vm_compute. reflexivity.
Defined.

End ByteVectorsFacts.

(** ** The symbol table and the globals *)

Module GlobalsFacts.
Import Values Globals.

Lemma Intern_found scm name id :
  symbols scm !! name = Some id -> Intern scm name = (scm, id).
Proof. unfold Intern. intros ->. reflexivity. Qed.

Lemma Intern_fresh scm name :
  symbols scm !! name = None ->
  Intern scm name
  = (mkScheme (<[name := mkIdentifier name Nil 0]> (symbols scm)),
     mkIdentifier name Nil 0).
Proof. unfold Intern. intros ->. reflexivity. Qed.

(** Interning is idempotent: a second [Intern] of the name returns the
    same identifier and leaves the table alone. *)
Lemma Intern_idempotent scm name :
  Intern (fst (Intern scm name)) name
  = (fst (Intern scm name), snd (Intern scm name)).
Proof.
  unfold Intern. destruct (symbols scm !! name) as [id|] eqn:H; simpl.
  - rewrite H. reflexivity.
  - rewrite lookup_insert_eq. reflexivity.
Qed.

(** C5.  [SetGlobal] returns an error exactly when the interned symbol
    of the name carries the [Const] flag; when it succeeds the symbol
    carries the [Defined] flag and its global value is the given value;
    when it fails the interpreter, so the symbol's flags and global
    value, is as before the call. *)
Theorem SetGlobal_const_guard :
  forall (FlagDefined FlagConst : Z) (scm : Scheme) (name : string)
         (value : Value),
    FlagDefined <> 0 ->
    let id := snd (Intern scm name) in
    let scm' := fst (SetGlobal FlagDefined FlagConst scm name value) in
    let r := snd (SetGlobal FlagDefined FlagConst scm name value) in
    (r = Err (CantResetFinal name) <-> has_flag id FlagConst) /\
    (r = Ok tt <-> ~ has_flag id FlagConst) /\
    (r = Ok tt ->
     exists id',
       symbols scm' !! name = Some id' /\
       has_flag id' FlagDefined /\
       Global id' = value /\
       Flags id' = Z.lor (Flags id) FlagDefined) /\
    (r <> Ok tt ->
     scm' = scm /\ symbols scm' !! name = Some id).
Proof.
  intros FlagDefined FlagConst scm name value HD id scm' r.
  subst id scm' r. unfold SetGlobal, has_flag.
  destruct (Intern scm name) as [scm1 id] eqn:HI. simpl.
  destruct (Z.eqb_spec (Z.land (Flags id) FlagConst) 0) as [Hz|Hnz]; simpl.
  - split; [split; [discriminate|intros H; contradiction]|].
    split; [split; [intros _ H; contradiction|reflexivity]|].
    split; [|intros H; contradiction].
    intros _. eexists. rewrite lookup_insert_eq.
    split; [reflexivity|]. simpl. split; [|split; reflexivity].
    rewrite Z.land_lor_distr_l, Z.land_diag.
    intros H. apply Z.lor_eq_0_iff in H as [_ H]. contradiction.
  - split; [split; [intros _; exact Hnz|reflexivity]|].
    split; [split; [discriminate|intros H; contradiction]|].
    split; [discriminate|].
    intros _. unfold Intern in HI.
    destruct (symbols scm !! name) as [id0|] eqn:Hl.
    + inversion HI; subst. auto.
    + inversion HI; subst. simpl in Hnz. rewrite Z.land_0_l in Hnz.
      contradiction.
Qed.

(** A constant [pi], with the flags [Defined = 1] and [Const = 2]. *)
Definition scm_pi : Scheme :=
  mkScheme {[ "pi" := mkIdentifier "pi" (int 3) 3 ]}.

Lemma SetGlobal_witness :
  let id := snd (Intern scm_pi "pi") in
  let scm' := fst (SetGlobal 1 2 scm_pi "pi" (int 4)) in
  let r := snd (SetGlobal 1 2 scm_pi "pi" (int 4)) in
  (r = Err (CantResetFinal "pi") <-> has_flag id 2) /\
  (r = Ok tt <-> ~ has_flag id 2) /\
  (r = Ok tt ->
   exists id',
     symbols scm' !! "pi" = Some id' /\
     has_flag id' 1 /\
     Global id' = int 4 /\
     Flags id' = Z.lor (Flags id) 1) /\
  (r <> Ok tt ->
   scm' = scm_pi /\ symbols scm' !! "pi" = Some id).
Proof.
  apply (SetGlobal_const_guard 1 2 scm_pi "pi" (int 4)). lia.
Defined.

(** C4, as the code has it.  The [Global] instruction of the first
    machine sets the accumulator to the global value of its symbol,
    which is nil for a symbol without one, and continues: it has no
    failing case.  The embedder's [Global] returns an error exactly
    when the name has no interned symbol carrying the [Defined] flag,
    and the symbol's global value otherwise. *)
Theorem Global_lookup :
  forall (natives : VM.NativeId -> list VM.Value -> VM.Value + string)
         (code : VM.Code) (vm : VM.VM) (instr : VM.Instr)
         (sym : string) (vid : VM.Identifier)
         (FlagDefined : Z) (scm : Scheme) (name : string),
    code !! VM.pc vm = Some instr ->
    VM.Op instr = VM.OpGlobal ->
    VM.Sym instr = Some sym ->
    VM.symbols vm !! sym = Some vid ->
    VM.step natives code vm
    = VM.Continue (VM.set_accu (VM.set_pc vm (S (VM.pc vm)))
                     (VM.Global vid)) /\
    ((exists e, GetGlobal FlagDefined scm name = Err e) <->
     ~ exists id, symbols scm !! name = Some id /\ has_flag id FlagDefined) /\
    (forall id, symbols scm !! name = Some id -> has_flag id FlagDefined ->
                GetGlobal FlagDefined scm name = Ok (Global id)).
Proof.
  intros natives code vm instr sym vid FlagDefined scm name
         Hpc Hop Hsym Hvid.
  split.
  - unfold VM.step. rewrite Hpc, Hop, Hsym. simpl. rewrite Hvid.
    reflexivity.
  - unfold GetGlobal, has_flag. split.
    + destruct (symbols scm !! name) as [id|] eqn:Hl.
      * destruct (Z.eqb_spec (Z.land (Flags id) FlagDefined) 0) as [Hz|Hnz].
        -- split; [|eauto]. intros _ (id' & Heq & Hf).
           inversion Heq; subst. contradiction.
        -- split.
           ++ intros [e He]. discriminate.
           ++ intros Hn. exfalso. apply Hn. eauto.
      * split; [|eauto]. intros _ (id' & Heq & _). discriminate.
    + intros id Hl Hf. rewrite Hl.
      destruct (Z.eqb_spec (Z.land (Flags id) FlagDefined) 0);
        [contradiction|reflexivity].
Qed.

Lemma Global_lookup_witness :
  let vm := VMFacts.state_after 0 VMFacts.call_code VMFacts.vm_f12 in
  VM.step VMFacts.natives_nil VMFacts.call_code vm
  = VM.Continue (VM.set_accu (VM.set_pc vm (S (VM.pc vm)))
                   (VM.VLambda VMFacts.lambda_f12)) /\
  ((exists e, GetGlobal 1 scm_pi "e" = Err e) <->
   ~ exists id, symbols scm_pi !! "e" = Some id /\ has_flag id 1) /\
  (forall id, symbols scm_pi !! "e" = Some id -> has_flag id 1 ->
              GetGlobal 1 scm_pi "e" = Ok (Global id)).
Proof.
  apply (Global_lookup VMFacts.natives_nil VMFacts.call_code
           (VMFacts.state_after 0 VMFacts.call_code VMFacts.vm_f12)
           (VMFacts.instr_global "f") "f"
           (VM.mkIdentifier "f" (VM.VLambda VMFacts.lambda_f12))
           1 scm_pi "e").
  - vm_compute. reflexivity.
  - reflexivity.
  - reflexivity.
  - vm_compute. reflexivity.
Defined.

(** C4 as stated fails: on the symbol [x], interned and never given a
    global value, the [Global] instruction does not fail; the machine
    continues with nil in the accumulator. *)
Lemma Global_counterexample :
  let vm := VMFacts.state_after 0 VMFacts.global_code VMFacts.vm_x in
  VM.symbols vm !! "x" = Some (VM.mkIdentifier "x" VM.Nil) /\
  VM.step VMFacts.natives_nil VMFacts.global_code vm
  = VM.Continue (VM.set_accu (VM.set_pc vm 1) VM.Nil).
Proof. cbv zeta. split; vm_compute; reflexivity. Qed.

End GlobalsFacts.

(** ** The lowering of the AST *)

Module CompileFacts.
Import Values Compile.

(** *** Induction over the AST, through its lists and options *)

Definition OptP (P : AST -> Prop) (o : option AST) : Prop :=
  match o with
  | Some e => P e
  | None => True
  end.

Definition CondChoiceP (P : AST -> Prop) (ch : ASTCondChoice AST) : Prop :=
  OptP P (CCCond AST ch) /\ OptP P (CCFunc AST ch)
  /\ Forall P (CCExprs AST ch).

Definition CaseChoiceP (P : AST -> Prop) (ch : ASTCaseChoice AST) : Prop :=
  Forall P (CaExprs AST ch).

Section AST_induction.

Variable P : AST -> Prop.

Hypothesis HSequence : forall from Items,
    Forall P Items -> P (ASTSequence from Items).
Hypothesis HDefine : forall from Name flags Value,
    P Value -> P (ASTDefine from Name flags Value).
Hypothesis HSet : forall from Name Binding Value,
    P Value -> P (ASTSet from Name Binding Value).
Hypothesis HLet : forall from ty Captures Tail Bindings Body,
    Forall (fun b => P (LBInit b)) Bindings -> Forall P Body ->
    P (ASTLet from ty Captures Tail Bindings Body).
Hypothesis HIf : forall from Cond T F,
    P Cond -> P T -> OptP P F -> P (ASTIf from Cond T F).
Hypothesis HApply : forall from Lambda Args Tail,
    P Lambda -> P Args -> P (ASTApply from Lambda Args Tail).
Hypothesis HCall : forall from Func ArgFrame Args ArgLocs Tail,
    P Func -> Forall P Args ->
    P (ASTCall from Func ArgFrame Args ArgLocs Tail).
Hypothesis HLambda : forall from Name args Body env Captures Define flags,
    P (ASTLambda from Name args Body env Captures Define flags).
Hypothesis HConstant : forall from Value, P (ASTConstant from Value).
Hypothesis HIdentifier : forall from Name Binding,
    P (ASTIdentifier from Name Binding).
Hypothesis HCond : forall from Choices Tail Captures,
    Forall (CondChoiceP P) Choices ->
    P (ASTCond from Choices Tail Captures).
Hypothesis HCase :
  forall from Choices ValueFrame EqvArgFrame Expr Tail Captures,
    Forall (CaseChoiceP P) Choices -> P Expr ->
    P (ASTCase from Choices ValueFrame EqvArgFrame Expr Tail Captures).
Hypothesis HAnd : forall from Exprs, Forall P Exprs -> P (ASTAnd from Exprs).
Hypothesis HOr : forall from Exprs, Forall P Exprs -> P (ASTOr from Exprs).

Fixpoint AST_nested_ind (a : AST) : P a :=
  let all :=
    fix all (l : list AST) : Forall P l :=
      match l with
      | [] => @List.Forall_nil _ P
      | x :: r => @List.Forall_cons _ _ x r (AST_nested_ind x) (all r)
      end in
  match a with
  | ASTSequence from Items => HSequence from Items (all Items)
  | ASTDefine from Name flags Value =>
      HDefine from Name flags Value (AST_nested_ind Value)
  | ASTSet from Name Binding Value =>
      HSet from Name Binding Value (AST_nested_ind Value)
  | ASTLet from ty Captures Tail Bindings Body =>
      HLet from ty Captures Tail Bindings Body
        ((fix allb (l : list (ASTLetBinding AST))
            : Forall (fun b => P (LBInit b)) l :=
            match l with
            | [] => @List.Forall_nil _ _
            | b :: r =>
                @List.Forall_cons _ _ b r
                  (match b return P (LBInit b) with
                   | mkLetBinding _ _ init => AST_nested_ind init
                   end) (allb r)
            end) Bindings)
        (all Body)
  | ASTIf from Cond T F =>
      HIf from Cond T F (AST_nested_ind Cond) (AST_nested_ind T)
        (match F return OptP P F with
         | Some e => AST_nested_ind e
         | None => Logic.I
         end)
  | ASTApply from Lambda Args Tail =>
      HApply from Lambda Args Tail (AST_nested_ind Lambda)
        (AST_nested_ind Args)
  | ASTCall from Func ArgFrame Args ArgLocs Tail =>
      HCall from Func ArgFrame Args ArgLocs Tail (AST_nested_ind Func)
        (all Args)
  | ASTLambda from Name args Body env Captures Define flags =>
      HLambda from Name args Body env Captures Define flags
  | ASTConstant from Value => HConstant from Value
  | ASTIdentifier from Name Binding => HIdentifier from Name Binding
  | ASTCond from Choices Tail Captures =>
      HCond from Choices Tail Captures
        ((fix allc (l : list (ASTCondChoice AST))
            : Forall (CondChoiceP P) l :=
            match l with
            | [] => @List.Forall_nil _ _
            | ch :: r =>
                @List.Forall_cons _ _ ch r
                  (match ch return CondChoiceP P ch with
                   | mkCondChoice _ ccond cfunc _ _ exprs =>
                       conj
                         (match ccond return OptP P ccond with
                          | Some e => AST_nested_ind e
                          | None => Logic.I
                          end)
                         (conj
                            (match cfunc return OptP P cfunc with
                             | Some e => AST_nested_ind e
                             | None => Logic.I
                             end)
                            (all exprs))
                   end) (allc r)
            end) Choices)
  | ASTCase from Choices ValueFrame EqvArgFrame Expr Tail Captures =>
      HCase from Choices ValueFrame EqvArgFrame Expr Tail Captures
        ((fix allc (l : list (ASTCaseChoice AST))
            : Forall (CaseChoiceP P) l :=
            match l with
            | [] => @List.Forall_nil _ _
            | ch :: r =>
                @List.Forall_cons _ _ ch r
                  (match ch return CaseChoiceP P ch with
                   | mkCaseChoice _ _ _ exprs => all exprs
                   end) (allc r)
            end) Choices)
        (AST_nested_ind Expr)
  | ASTAnd from Exprs => HAnd from Exprs (all Exprs)
  | ASTOr from Exprs => HOr from Exprs (all Exprs)
  end.

End AST_induction.

(** *** The lowering only appends to the instruction stream *)

(** [c'] has the instructions of [c] and more after them. *)
Definition ext (c c' : Compiler) : Prop := exists l, code c' = code c ++ l.

Definition extends (c : Compiler) (r : Emit) : Prop :=
  match r with
  | Emitted c' | Failed c' _ => ext c c'
  | Crashed => True
  end.

Lemma ext_refl c : ext c c.
Proof. exists []. rewrite app_nil_r. reflexivity. Qed.

Lemma ext_trans c1 c2 c3 : ext c1 c2 -> ext c2 c3 -> ext c1 c3.
Proof.
  intros [l1 H1] [l2 H2]. exists (l1 ++ l2).
  rewrite H2, H1, app_assoc. reflexivity.
Qed.

Lemma ext_emit c i : ext c (emit c i).
Proof. exists [i]. reflexivity. Qed.

Lemma ext_addInstr c from op v i : ext c (addInstr c from op v i).
Proof. apply ext_emit. Qed.

Lemma ext_addInstrJ c from op v i j : ext c (addInstrJ c from op v i j).
Proof. apply ext_emit. Qed.

Lemma ext_addInstrSym c from op v i name :
  ext c (addInstrSym c from op v i name).
Proof. eexists. reflexivity. Qed.

Lemma ext_addPushS c from n b : ext c (addPushS c from n b).
Proof. apply ext_emit. Qed.

Lemma ext_addPopS c from n b : ext c (addPopS c from n b).
Proof. apply ext_emit. Qed.

Lemma ext_addCall c from n b : ext c (addCall c from n b).
Proof. apply ext_emit. Qed.

Lemma ext_addLabel c l : ext c (addLabel c l).
Proof. apply ext_emit. Qed.

Lemma ext_newLabel c : ext c (fst (newLabel c)).
Proof. exists []. simpl. rewrite app_nil_r. reflexivity. Qed.

(** The compiler [newLabel] leaves, spelled out. *)
Lemma ext_bump c :
  ext c (mkCompiler (code c) (lambdas c) (nextLabel c + 1) (scm c)).
Proof. apply (ext_newLabel c). Qed.

Lemma extends_weaken c1 c2 r : ext c1 c2 -> extends c2 r -> extends c1 r.
Proof.
  intros H. destruct r; simpl; eauto using ext_trans.
Qed.

Lemma extends_andThen c r k :
  extends c r -> (forall c1, extends c1 (k c1)) ->
  extends c (andThen r k).
Proof.
  intros Hr Hk. destruct r as [c1|c1 e|]; simpl in *; auto.
  eapply extends_weaken; eauto.
Qed.

(** Closes [ext c c'] where [c'] is [c] under a stack of appending
    helpers. *)
Ltac ext_chain :=
  repeat first
    [ apply ext_refl
    | (eapply ext_trans; [|first
         [ apply ext_emit | apply ext_addInstr | apply ext_addInstrJ
         | apply ext_addInstrSym | apply ext_addPushS | apply ext_addPopS
         | apply ext_addCall | apply ext_addLabel ]]) ].

Section Extends.

Variable B : AST -> Compiler -> Emit.

Definition appends (a : AST) : Prop := forall c, extends c (B a c).

Lemma emit_items_extends l :
  Forall appends l -> forall c, extends c (emit_items B l c).
Proof.
  induction 1 as [|a l Ha _ IH]; intros c; simpl.
  - apply ext_refl.
  - apply extends_andThen; auto.
Qed.

Lemma emit_bindings_extends (l : list (ASTLetBinding AST)) :
  Forall (fun b => appends (LBInit b)) l ->
  forall c, extends c (emit_bindings B l c).
Proof.
  induction 1 as [|b l Hb _ IH]; intros c; simpl.
  - apply ext_refl.
  - apply extends_andThen; [apply Hb|].
    intros c1. eapply extends_weaken; [apply ext_emit|apply IH].
Qed.

Lemma emit_args_extends ArgFrame ArgLocs l :
  Forall appends l ->
  forall idx c, extends c (emit_args B ArgFrame ArgLocs l idx c).
Proof.
  induction 1 as [|a l Ha _ IH]; intros idx c; simpl.
  - apply ext_refl.
  - apply extends_andThen; [apply Ha|].
    intros c1. destruct (ArgLocs !! idx); simpl; [|exact Logic.I].
    eapply extends_weaken; [apply ext_addInstr|apply IH].
Qed.

Lemma emit_chain_extends op labelEnd l :
  Forall appends l ->
  forall c, extends c (emit_chain B op labelEnd l c).
Proof.
  induction 1 as [|a l Ha Hl IH]; intros c; simpl.
  - exact Logic.I.
  - destruct l as [|a' l']; [apply Ha|].
    apply extends_andThen; [apply Ha|].
    intros c1. eapply extends_weaken; [apply ext_addInstrJ|apply IH].
Qed.

Lemma emit_datums_extends vf ef labelExprs locs l :
  forall idx c, extends c (emit_datums vf ef labelExprs locs l idx c).
Proof.
  induction l as [|d l IH]; intros idx c; simpl.
  - apply ext_refl.
  - destruct (locs !! idx) as [from|]; [|exact Logic.I].
    eapply extends_weaken; [|apply IH]. ext_chain.
Qed.

Lemma cond_choice_extends labelEnd Tail Captures cfrom ccond cfunc
    fvf faf exprs (next : Z) rest labelClause :
  CondChoiceP appends (mkCondChoice cfrom ccond cfunc fvf faf exprs) ->
  (forall lc c, extends c (emit_cond_choices B labelEnd Tail Captures
                             rest lc c)) ->
  forall c2,
    extends c2
      (andThen
         (match ccond with
          | Some cond =>
              andThen (B cond c2) (fun c3 =>
                Emitted (addInstrJ c3 cfrom OpIfNot Nil 0 next))
          | None => Emitted c2
          end) (fun c4 =>
       andThen
         (match cfunc with
          | Some func =>
              let c5 := addInstr c4 cfrom OpPushS Nil 1 in
              let c6 := addInstr c5 cfrom OpLocalSet Nil (FIndex fvf) in
              andThen (B func c6) (fun c7 =>
                let c8 := addInstr c7 cfrom OpPushF Nil 0 in
                let c9 := addInstr c8 cfrom OpPushS Nil 1 in
                let c10 := addInstr c9 cfrom OpLocal Nil (FIndex fvf) in
                let c11 :=
                  addInstr c10 cfrom OpLocalSet Nil (FIndex faf) in
                let c12 := addCall c11 None 1 Tail in
                Emitted (if Tail then c12
                         else addPopS c12 cfrom 1 Captures))
          | None => emit_items B exprs c4
          end) (fun c13 =>
       emit_cond_choices B labelEnd Tail Captures rest labelClause
         (addInstrJ c13 None OpJmp Nil 0 (I labelEnd))))).
Proof.
  intros (Hc & Hf & He) IH c2. simpl in Hc, Hf, He.
  apply extends_andThen.
  - destruct ccond as [cond|]; [|apply ext_refl].
    apply extends_andThen; [apply Hc|].
    intros c3. apply ext_addInstrJ.
  - intros c4. apply extends_andThen.
    + destruct cfunc as [func|].
      * eapply extends_weaken; [|apply extends_andThen; [apply Hf|]].
        -- ext_chain.
        -- intros c7. simpl. destruct Tail; ext_chain.
      * apply emit_items_extends. exact He.
    + intros c13. eapply extends_weaken; [apply ext_addInstrJ|].
      apply IH.
Qed.

Lemma emit_cond_choices_extends labelEnd Tail Captures l :
  Forall (CondChoiceP appends) l ->
  forall labelClause c,
    extends c (emit_cond_choices B labelEnd Tail Captures l
                 labelClause c).
Proof.
  induction 1 as [|ch l Hch _ IH]; intros labelClause c; simpl.
  - apply ext_refl.
  - destruct ch as [cfrom ccond cfunc fvf faf exprs].
    assert (H1 : ext c match labelClause with
                       | Some lc => addLabel c lc
                       | None => c
                       end).
    { destruct labelClause; [apply ext_addLabel|apply ext_refl]. }
    eapply extends_weaken; [exact H1|].
    destruct l as [|ch' l'].
    + apply cond_choice_extends; assumption.
    + eapply extends_weaken; [apply ext_bump|].
      apply cond_choice_extends; assumption.
Qed.

Lemma case_choice_extends vf ef labelEnd datums dlocs exprs
    (next : Z) rest labelClause :
  Forall appends exprs ->
  (forall lc c, extends c (emit_case_choices B vf ef labelEnd rest lc c)) ->
  forall c2,
    extends c2
      (andThen
         (match datums with
          | [] => Emitted c2
          | _ :: _ =>
              let '(c3, labelExprs) := newLabel c2 in
              andThen
                (emit_datums vf ef labelExprs dlocs datums 0 c3)
                (fun c4 =>
                   let c5 := addInstrJ c4 None OpJmp Nil 0 next in
                   Emitted (addLabel c5 labelExprs))
          end) (fun c6 =>
       andThen (emit_items B exprs c6) (fun c7 =>
       emit_case_choices B vf ef labelEnd rest labelClause
         (addInstrJ c7 None OpJmp Nil 0 (I labelEnd))))).
Proof.
  intros He IH c2.
  apply extends_andThen.
  - destruct datums as [|d ds]; [apply ext_refl|].
    unfold newLabel. cbv beta iota zeta.
    eapply extends_weaken; [apply ext_bump|].
    apply extends_andThen; [apply emit_datums_extends|].
    intros c4. simpl. ext_chain.
  - intros c6. apply extends_andThen.
    + apply emit_items_extends. exact He.
    + intros c7. eapply extends_weaken; [apply ext_addInstrJ|].
      apply IH.
Qed.

Lemma emit_case_choices_extends vf ef labelEnd l :
  Forall (CaseChoiceP appends) l ->
  forall labelClause c,
    extends c (emit_case_choices B vf ef labelEnd l labelClause c).
Proof.
  induction 1 as [|ch l Hch _ IH]; intros labelClause c; simpl.
  - apply ext_refl.
  - destruct ch as [cfrom datums dlocs exprs].
    assert (H1 : ext c match labelClause with
                       | Some lc => addLabel c lc
                       | None => c
                       end).
    { destruct labelClause; [apply ext_addLabel|apply ext_refl]. }
    eapply extends_weaken; [exact H1|].
    destruct l as [|ch' l'].
    + apply case_choice_extends; assumption.
    + eapply extends_weaken; [apply ext_bump|].
      apply case_choice_extends; assumption.
Qed.

End Extends.

Lemma newLabel_ext c c' l : newLabel c = (c', l) -> ext c c'.
Proof. intros H. pose proof (ext_newLabel c) as He. rewrite H in He. exact He. Qed.

Section BytecodeAppends.

Variable define :
  Locator -> Env -> option string -> Flags -> Compiler -> Emit.
Hypothesis Hdefine : define_appends define.

Opaque newLabel.

Lemma Bytecode_extends a : forall c, extends c (Bytecode define a c).
Proof.
  induction a using AST_nested_ind; intros c; simpl.
  - (* Sequence *) apply emit_items_extends. assumption.
  - (* Define *)
    apply extends_andThen; [apply IHa|]. intros c1. apply ext_addInstrSym.
  - (* Set *)
    apply extends_andThen; [apply IHa|]. intros c1.
    destruct Binding; [apply ext_emit|apply ext_addInstrSym].
  - (* Let *)
    eapply extends_weaken; [apply ext_addPushS|].
    apply extends_andThen; [apply emit_bindings_extends; eassumption|].
    intros c1. apply extends_andThen; [apply emit_items_extends; assumption|].
    intros c2. destruct Tail; [apply ext_refl|apply ext_addPopS].
  - (* If *)
    destruct (newLabel c) as [c1 labelFalse] eqn:E1.
    destruct (newLabel c1) as [c2 labelEnd] eqn:E2.
    eapply extends_weaken; [eapply newLabel_ext; exact E1|].
    eapply extends_weaken; [eapply newLabel_ext; exact E2|].
    apply extends_andThen; [apply IHa1|]. intros c3.
    apply extends_andThen; [|intros c6; apply ext_addLabel].
    destruct F as [f|].
    + eapply extends_weaken; [apply ext_addInstrJ|].
      apply extends_andThen; [apply IHa2|]. intros c4.
      eapply extends_weaken; [|apply H].
      ext_chain.
    + eapply extends_weaken; [apply ext_addInstrJ|]. apply IHa2.
  - (* Apply *)
    apply extends_andThen; [apply IHa1|]. intros c1.
    eapply extends_weaken; [apply ext_addInstr|].
    apply extends_andThen; [apply IHa2|]. intros c2.
    simpl. ext_chain.
  - (* Call *)
    pose proof (IHa c) as HF.
    destruct (Bytecode define a c) as [c1|c1 e|]; simpl in *; auto.
    eapply extends_weaken; [exact HF|].
    eapply extends_weaken; [apply ext_addInstr|].
    eapply extends_weaken; [apply ext_addInstr|].
    apply extends_andThen; [apply emit_args_extends; assumption|].
    intros c4. apply ext_addCall.
  - (* Lambda *)
    destruct Define.
    + eapply extends_weaken; [|apply Hdefine].
      eexists. reflexivity.
    + eexists. reflexivity.
  - (* Constant *) apply ext_addInstr.
  - (* Identifier *)
    destruct Binding; [apply ext_emit|apply ext_addInstrSym].
  - (* Cond *)
    destruct (newLabel c) as [c1 labelEnd] eqn:E1.
    eapply extends_weaken; [eapply newLabel_ext; exact E1|].
    apply extends_andThen;
      [apply emit_cond_choices_extends; assumption|].
    intros c2. apply ext_addLabel.
  - (* Case *)
    destruct (newLabel c) as [c1 labelEnd] eqn:E1.
    eapply extends_weaken; [eapply newLabel_ext; exact E1|].
    eapply extends_weaken; [apply ext_addInstr|].
    apply extends_andThen; [apply IHa|]. intros c3.
    eapply extends_weaken; [apply ext_addInstr|].
    apply extends_andThen;
      [apply emit_case_choices_extends; assumption|].
    intros c5. simpl. destruct Tail; ext_chain.
  - (* And *)
    destruct Exprs as [|e es]; [apply ext_addInstr|].
    destruct (newLabel c) as [c1 labelEnd] eqn:E1.
    eapply extends_weaken; [eapply newLabel_ext; exact E1|].
    apply extends_andThen; [apply emit_chain_extends; assumption|].
    intros c2. apply ext_addLabel.
  - (* Or *)
    destruct Exprs as [|e es]; [apply ext_addInstr|].
    destruct (newLabel c) as [c1 labelEnd] eqn:E1.
    eapply extends_weaken; [eapply newLabel_ext; exact E1|].
    apply extends_andThen; [apply emit_chain_extends; assumption|].
    intros c2. apply ext_addLabel.
Qed.

Transparent newLabel.

End BytecodeAppends.

(** *** [ASTLet.Bytecode] *)

Section Let.

Variable define :
  Locator -> Env -> option string -> Flags -> Compiler -> Emit.
Hypothesis Hdefine : define_appends define.

Lemma Bytecode_emits a c c' :
  Bytecode define a c = Emitted c' -> exists l, emits define a c l c'.
Proof.
  intros H. pose proof (Bytecode_extends define Hdefine a c) as He.
  rewrite H in He. destruct He as [l Hl].
  exists l. constructor; assumption.
Qed.

Lemma emits_body_code l c ls c' :
  emits_body define l c ls c' -> code c' = code c ++ ls.
Proof.
  induction 1 as [c|a rest c l c1 ls c2 Ha _ IH].
  - rewrite app_nil_r. reflexivity.
  - destruct Ha as [a c l c1 _ Hc]. rewrite IH, Hc, app_assoc.
    reflexivity.
Qed.

Lemma emits_inits_code l c ls c' :
  emits_inits define l c ls c' -> code c' = code c ++ ls.
Proof.
  induction 1 as [c
                 |from frame index init rest c l c1 ls c2 _ Ha _ IH
                 |from frame index init rest c l c1 ls c2 _ Ha _ IH].
  - rewrite app_nil_r. reflexivity.
  - destruct Ha as [a c l c1 _ Hc]. rewrite IH. simpl. rewrite Hc.
    rewrite <- !app_assoc. reflexivity.
  - destruct Ha as [a c l c1 _ Hc]. rewrite IH. simpl. rewrite Hc.
    rewrite <- !app_assoc. reflexivity.
Qed.

Lemma emit_items_emits l c c' :
  emit_items (Bytecode define) l c = Emitted c' <->
  exists ls, emits_body define l c ls c'.
Proof.
  revert c. induction l as [|a l IH]; intros c; simpl.
  - split.
    + intros H. inversion H; subst. exists []. constructor.
    + intros [ls H]. inversion H; subst. reflexivity.
  - split.
    + intros H.
      destruct (Bytecode define a c) as [c1|c1 e|] eqn:Ha;
        try discriminate. simpl in H.
      destruct (Bytecode_emits _ _ _ Ha) as [la Hla].
      apply IH in H as [ls Hls].
      exists (la ++ ls). econstructor; eassumption.
    + intros [ls H]. inversion H as [|a0 rest c0 la c1 ls' c2 Ha Hr]; subst.
      destruct Ha as [a c la c1 Ha _]. rewrite Ha. simpl.
      apply IH. eauto.
Qed.

Lemma emit_bindings_emits l c c' :
  emit_bindings (Bytecode define) l c = Emitted c' <->
  exists ls, emits_inits define l c ls c'.
Proof.
  revert c. induction l as [|b l IH]; intros c; simpl.
  - split.
    + intros H. inversion H; subst. exists []. constructor.
    + intros [ls H]. inversion H; subst. reflexivity.
  - destruct b as [from [frame index] init]. simpl. split.
    + intros H.
      destruct (Bytecode define init c) as [c1|c1 e|] eqn:Ha;
        try discriminate. simpl in H.
      destruct (Bytecode_emits _ _ _ Ha) as [la Hla].
      apply IH in H as [ls Hls].
      unfold binding_set in Hls. simpl in Hls.
      destruct (FType frame) eqn:Hty.
      * eexists. eapply emits_inits_stack; eassumption.
      * eexists. eapply emits_inits_env; eassumption.
    + intros [ls H].
      inversion H as [|from0 frame0 index0 init0 rest c0 la c1 ls' c2 Hty Ha Hr
                      |from0 frame0 index0 init0 rest c0 la c1 ls' c2 Hty Ha Hr];
        subst;
        inversion Ha as [a0 c0 l0 c3 Hb _]; subst; rewrite Hb; simpl;
        apply IH; unfold binding_set; simpl; rewrite Hty; eauto.
Qed.

End Let.

(** C6.  [ASTLet.Bytecode] succeeds exactly when the initializers and
    then the body expressions compile, each from the compiler the one
    before left, and the instructions it appends are then exactly:
    [PushS n] with the captures flag; for each binding in order the code
    of its initializer followed by [LocalSet] when the binding's frame is
    a stack frame and [EnvSet] when it is a heap frame; the code of the
    body expressions in order; and last [PopS n] with the captures flag
    when and only when the let is not in tail position. *)
Theorem let_bytecode :
  forall (define : Locator -> Env -> option string -> Flags -> Compiler
                   -> Emit)
         (from : Locator) (ty : Keyword) (Captures Tail : bool)
         (Bindings : list (ASTLetBinding AST)) (Body : list AST)
         (c c' : Compiler),
    define_appends define ->
    let n := Z.of_nat (length Bindings) in
    let pushS := mkInstr OpPushS Nil n (flag Captures) None from in
    let popS := mkInstr OpPopS Nil n (flag Captures) None None in
    Bytecode define (ASTLet from ty Captures Tail Bindings Body) c
    = Emitted c'
    <->
    exists inits c1 items c2,
      emits_inits define Bindings (emit c pushS) inits c1 /\
      emits_body define Body c1 items c2 /\
      c' = (if Tail then c2 else emit c2 popS) /\
      code c' = code c ++ [pushS] ++ inits ++ items
                  ++ (if Tail then [] else [popS]).
Proof.
  intros define from ty Captures Tail Bindings Body c c' Hdefine n pushS popS.
  simpl. fold n. unfold addPushS, addPopS. fold pushS. fold popS. split.
  - intros H.
    destruct (emit_bindings (Bytecode define) Bindings (emit c pushS))
      as [c1|c1 e|] eqn:Hb; try discriminate. simpl in H.
    destruct (emit_items (Bytecode define) Body c1)
      as [c2|c2 e|] eqn:Hi; try discriminate. simpl in H.
    inversion H; subst c'. clear H.
    apply (emit_bindings_emits define Hdefine) in Hb as [inits Hinits].
    apply (emit_items_emits define Hdefine) in Hi as [items Hitems].
    exists inits, c1, items, c2.
    split; [exact Hinits|]. split; [exact Hitems|].
    split; [reflexivity|].
    pose proof (emits_inits_code define _ _ _ _ Hinits) as E1.
    pose proof (emits_body_code define _ _ _ _ Hitems) as E2.
    simpl in E1.
    destruct Tail; simpl; rewrite E2, E1; rewrite <- ?app_assoc; simpl.
    + rewrite app_nil_r. reflexivity.
    + reflexivity.
  - intros (inits & c1 & items & c2 & Hinits & Hitems & -> & _).
    assert (Hb : emit_bindings (Bytecode define) Bindings (emit c pushS)
                 = Emitted c1)
      by (apply (emit_bindings_emits define Hdefine); eauto).
    assert (Hi : emit_items (Bytecode define) Body c1 = Emitted c2)
      by (apply (emit_items_emits define Hdefine); eauto).
    rewrite Hb. simpl. rewrite Hi. simpl. reflexivity.
Qed.

(** A [define] that appends the [Define] instruction of the name. *)
Definition define_instr (from : Locator) (env : Env) (name : option string)
    (flags : Flags) (c : Compiler) : Emit :=
  Emitted (addInstrSym c from OpDefine Nil flags (default "" name)).

Lemma define_instr_appends : define_appends define_instr.
Proof. intros from env name flags c. simpl. eexists. reflexivity. Qed.

Definition empty_compiler : Compiler :=
  mkCompiler [] [] 0 (Globals.mkScheme ∅).

Definition frame_stack : EnvFrame := mkEnvFrame TypeStack 3.
Definition frame_env : EnvFrame := mkEnvFrame TypeEnv 1.

(** [(let ((x 1) (y 2)) x y)], [x] in a stack frame and [y] in a heap
    frame, not in tail position. *)
Definition let_example : AST :=
  ASTLet None 0 true false
    [ mkLetBinding None (mkEnvBinding frame_stack 0)
        (ASTConstant None (int 1));
      mkLetBinding None (mkEnvBinding frame_env 1)
        (ASTConstant None (int 2)) ]
    [ ASTIdentifier None "x" (Some (mkEnvBinding frame_stack 0));
      ASTIdentifier None "y" (Some (mkEnvBinding frame_env 1)) ].

(** The compiler after the lowering of [let_example]: the scope of two
    slots is pushed, 1 goes to the stack slot 3 + 0 with [LocalSet],
    2 to the slot 1 of the heap frame 1 with [EnvSet], the body reads
    both, and the scope is popped. *)
Definition let_example_compiled : Compiler :=
  mkCompiler
    [ mkInstr OpPushS Nil 2 1 None None;
      mkInstr OpConst (int 1) 0 0 None None;
      mkInstr OpLocalSet Nil 3 0 None None;
      mkInstr OpConst (int 2) 0 0 None None;
      mkInstr OpEnvSet Nil 1 1 None None;
      mkInstr OpLocal Nil 3 0 None None;
      mkInstr OpEnv Nil 1 1 None None;
      mkInstr OpPopS Nil 2 1 None None ]
    [] 0 (Globals.mkScheme ∅).

Lemma let_bytecode_witness :
  let Bindings :=
    [ mkLetBinding None (mkEnvBinding frame_stack 0)
        (ASTConstant None (int 1));
      mkLetBinding None (mkEnvBinding frame_env 1)
        (ASTConstant None (int 2)) ] in
  let Body :=
    [ ASTIdentifier None "x" (Some (mkEnvBinding frame_stack 0));
      ASTIdentifier None "y" (Some (mkEnvBinding frame_env 1)) ] in
  let pushS := mkInstr OpPushS Nil 2 (flag true) None None in
  let popS := mkInstr OpPopS Nil 2 (flag true) None None in
  Bytecode define_instr let_example empty_compiler
  = Emitted let_example_compiled /\
  (Bytecode define_instr let_example empty_compiler
   = Emitted let_example_compiled
   <->
   exists inits c1 items c2,
     emits_inits define_instr Bindings (emit empty_compiler pushS) inits c1 /\
     emits_body define_instr Body c1 items c2 /\
     let_example_compiled = (if false then c2 else emit c2 popS) /\
     code let_example_compiled
     = code empty_compiler ++ [pushS] ++ inits ++ items
         ++ (if false then [] else [popS])).
Proof.
  split; [reflexivity|].
  exact (let_bytecode define_instr None 0 true false _ _
           empty_compiler let_example_compiled define_instr_appends).
Defined.

End CompileFacts.

Module ByteVectorOpsFacts.
Import Values ByteVectors ByteVectorOps.

Lemma alloc_fresh h data h' l :
  alloc h data = (h', l) ->
  h !! l = None /\ h' = <[l := data]> h.
Proof.
  unfold alloc. intros H. inversion H; subst. split; [|reflexivity].
  apply not_elem_of_dom. apply is_fresh.
Qed.

Lemma bytes_insert_eq h l data : bytes (<[l := data]> h) l = data.
Proof. unfold bytes. rewrite lookup_insert_eq. reflexivity. Qed.

Lemma bytes_insert_ne h l l' data :
  l <> l' -> bytes (<[l := data]> h) l' = bytes h l'.
Proof. intros H. unfold bytes. rewrite lookup_insert_ne by exact H. reflexivity. Qed.

Lemma byte_of_int64_range f : 0 <= byte_of_int64 f < 256.
Proof. unfold byte_of_int64. apply Z.mod_pos_bound. lia. Qed.

(** The fill byte [make-bytevector] and [bytevector-fill] store for the
    fill argument [f]: [f] itself from 0 to 255, [f + 256] for a negative
    [f]. *)
Lemma byte_of_int64_fill f :
  -128 <= f <= 255 ->
  byte_of_int64 f = if f <? 0 then f + 256 else f.
Proof.
  intros Hf. unfold byte_of_int64. destruct (Z.ltb_spec f 0).
  - replace f with (f + 256 + (-1) * 256) at 1 by lia.
    rewrite Z_mod_plus_full. apply Z.mod_small. lia.
  - apply Z.mod_small. lia.
Qed.

Lemma alloc_replicate h k fill :
  0 <= k ->
  exists l,
    (let '(h', l0) := alloc h (replicate (Z.to_nat k) fill) in
     (h', Ok (VByteVector l0) : Result OpError Value))
    = (<[l := replicate (Z.to_nat k) fill]> h, Ok (VByteVector l)) /\
    h !! l = None /\
    len (<[l := replicate (Z.to_nat k) fill]> h) l = k /\
    (forall i : nat,
        (i < Z.to_nat k)%nat ->
        bytes (<[l := replicate (Z.to_nat k) fill]> h) l !! i = Some fill) /\
    (forall l', l' <> l ->
                bytes (<[l := replicate (Z.to_nat k) fill]> h) l'
                = bytes h l').
Proof.
  intros Hk.
  destruct (alloc h (replicate (Z.to_nat k) fill)) as [h' l] eqn:Ha.
  apply alloc_fresh in Ha as [Hl ->]. exists l.
  split; [reflexivity|]. split; [exact Hl|].
  split; [unfold len; rewrite bytes_insert_eq, length_replicate; lia|].
  split; [intros i Hi; rewrite bytes_insert_eq;
          apply lookup_replicate_2; exact Hi|].
  intros l' Hne. apply bytes_insert_ne. congruence.
Qed.

(** [make-bytevector] fails, leaving the store alone, when the length is
    not a number or is negative, or when a fill is given (exactly two
    arguments) that is not a number from -128 to 255.  Otherwise, for a
    length of at most [maxAlloc], it returns a bytevector at an address
    the store did not have, of the length asked for, whose every byte is
    the fill taken modulo 256 (0 without a fill), and no other
    bytevector of the store changes; for a longer one it panics in the
    allocation, the store as it was. *)
Theorem make_bytevector_fresh_filled :
  forall (h : Store) (a0 : Value) (rest : list Value),
    let args := a0 :: rest in
    let fill_ok :=
      match rest with
      | [a1] => match Int64 a1 with
                | Some f => (-128 <=? f) && (f <=? 255)
                | None => false
                end
      | _ => true
      end in
    let fill :=
      match rest with
      | [a1] => byte_of_int64 (default 0 (Int64 a1))
      | _ => 0
      end in
    match Int64 a0 with
    | Some k =>
        if (0 <=? k) && fill_ok then
          if k <=? maxAlloc then
            exists l,
              make_bytevector h args
              = (<[l := replicate (Z.to_nat k) fill]> h, Ok (VByteVector l)) /\
              h !! l = None /\
              len (<[l := replicate (Z.to_nat k) fill]> h) l = k /\
              (forall i : nat,
                  (i < Z.to_nat k)%nat ->
                  bytes (<[l := replicate (Z.to_nat k) fill]> h) l !! i
                  = Some fill) /\
              0 <= fill < 256 /\
              (forall l', l' <> l ->
                          bytes (<[l := replicate (Z.to_nat k) fill]> h) l'
                          = bytes h l')
          else make_bytevector h args = (h, Panic)
        else
          exists e, make_bytevector h args = (h, Err e)
    | None => make_bytevector h args = (h, Err (NegativeLength a0))
    end.
Proof.
  intros h a0 rest args fill_ok fill. subst args.
  unfold make_bytevector. simpl.
  destruct (Int64 a0) as [k|]; [|reflexivity].
  destruct (Z.ltb_spec k 0) as [Hk|Hk].
  - destruct (Z.leb_spec 0 k); [lia|]. simpl. eauto.
  - destruct (Z.leb_spec 0 k); [|lia]. simpl.
    assert (Hmake : forall b,
               0 <= b < 256 ->
               if k <=? maxAlloc then
                 exists l,
                   (if maxAlloc <? k then (h, Panic) else
                    let '(h', l0) := alloc h (replicate (Z.to_nat k) b) in
                    (h', Ok (VByteVector l0) : Result OpError Value))
                   = (<[l := replicate (Z.to_nat k) b]> h,
                      Ok (VByteVector l)) /\
                   h !! l = None /\
                   len (<[l := replicate (Z.to_nat k) b]> h) l = k /\
                   (forall i : nat,
                       (i < Z.to_nat k)%nat ->
                       bytes (<[l := replicate (Z.to_nat k) b]> h) l !! i
                       = Some b) /\
                   0 <= b < 256 /\
                   (forall l', l' <> l ->
                               bytes (<[l := replicate (Z.to_nat k) b]> h) l'
                               = bytes h l')
               else
                 (if maxAlloc <? k then (h, Panic) else
                  let '(h', l0) := alloc h (replicate (Z.to_nat k) b) in
                  (h', Ok (VByteVector l0) : Result OpError Value))
                 = (h, Panic)).
    { intros b Hb.
      destruct (Z.leb_spec k maxAlloc) as [Hle|Hgt];
        destruct (Z.ltb_spec maxAlloc k) as [Hlt|Hge];
        try lia; [|reflexivity].
      destruct (alloc_replicate h k b Hk) as (l & A1 & A2 & A3 & A4 & A5).
      exists l. repeat split; try assumption; lia. }
    subst fill_ok fill.
    destruct rest as [|a1 [|a2 rest]]; simpl.
    + apply Hmake. lia.
    + destruct (Int64 a1) as [f|]; simpl; [|eauto].
      destruct (Z.ltb_spec f (-128)); destruct (Z.gtb_spec f 255);
        destruct (Z.leb_spec (-128) f); destruct (Z.leb_spec f 255);
        try lia; simpl; eauto.
      apply Hmake. apply byte_of_int64_range.
    + destruct (length rest); apply Hmake; lia.
Qed.

Lemma bytevector_fill_valid h v a1 f :
  Int64 a1 = Some f -> -128 <= f <= 255 ->
  snd (bytevector_fill h [VByteVector v; a1]) = Ok (VByteVector v) /\
  bytes (fst (bytevector_fill h [VByteVector v; a1])) v
  = replicate (length (bytes h v)) (byte_of_int64 f) /\
  (forall l', l' <> v ->
              bytes (fst (bytevector_fill h [VByteVector v; a1])) l'
              = bytes h l').
Proof.
  intros Ha1 Hf. unfold bytevector_fill. simpl. rewrite Ha1.
  destruct (Z.ltb_spec f (-128)); [lia|].
  destruct (Z.gtb_spec f 255); [lia|]. simpl.
  destruct (bytes h v) as [|b bs] eqn:Hb; simpl.
  - rewrite Hb. auto.
  - rewrite bytes_insert_eq.
    repeat split; try reflexivity.
    intros l' Hne. apply bytes_insert_ne. congruence.
Qed.

(** [bytevector-fill] fails, leaving the store alone, when the fill is
    not a number from -128 to 255.  Otherwise it returns the bytevector it
    was given, which keeps its length and holds the fill modulo 256 in
    every element; no other bytevector changes. *)
Theorem bytevector_fill_in_place :
  forall (h : Store) (v : loc) (a1 : Value),
    let args := [VByteVector v; a1] in
    match Int64 a1 with
    | Some f =>
        if (-128 <=? f) && (f <=? 255) then
          let h' := fst (bytevector_fill h args) in
          snd (bytevector_fill h args) = Ok (VByteVector v) /\
          bytes h' v = replicate (length (bytes h v)) (byte_of_int64 f) /\
          len h' v = len h v /\
          (forall l', l' <> v -> bytes h' l' = bytes h l')
        else bytevector_fill h args = (h, Err (InvalidFill a1))
    | None => bytevector_fill h args = (h, Err (InvalidFill a1))
    end.
Proof.
  intros h v a1 args. subst args.
  destruct (Int64 a1) as [f|] eqn:Ha1.
  - destruct (Z.leb_spec (-128) f) as [H1|H1];
      destruct (Z.leb_spec f 255) as [H2|H2]; simpl.
    + destruct (bytevector_fill_valid h v a1 f Ha1 (conj H1 H2))
        as (Hr & Hb & Ho).
      split; [exact Hr|]. split; [exact Hb|]. split; [|exact Ho].
      unfold len. rewrite Hb, length_replicate. reflexivity.
    + unfold bytevector_fill. simpl. rewrite Ha1.
      destruct (Z.gtb_spec f 255); [|lia]. rewrite orb_true_r. reflexivity.
    + unfold bytevector_fill. simpl. rewrite Ha1.
      destruct (Z.ltb_spec f (-128)); [|lia]. reflexivity.
    + unfold bytevector_fill. simpl. rewrite Ha1.
      destruct (Z.ltb_spec f (-128)); [|lia]. reflexivity.
  - unfold bytevector_fill. simpl. rewrite Ha1. reflexivity.
Qed.

Lemma equal_loop_eq v ov :
  length v = length ov -> (equal_loop v ov = true <-> v = ov).
Proof.
  revert ov. induction v as [|b v IH]; intros [|o ov] Hlen; simpl in *;
    try discriminate.
  - split; reflexivity.
  - injection Hlen as Hlen. destruct (Z.eqb_spec b o) as [->|Hne]; simpl.
    + rewrite (IH ov Hlen). split; congruence.
    + split; [discriminate|congruence].
Qed.

Lemma Equal_bytes h v w :
  Equal h v (VByteVector w) = true <-> bytes h v = bytes h w.
Proof.
  unfold Equal, len.
  destruct (Z.eqb_spec (Z.of_nat (length (bytes h v)))
                       (Z.of_nat (length (bytes h w)))) as [He|Hne]; simpl.
  - apply equal_loop_eq. lia.
  - split; [discriminate|]. intros H. rewrite H in Hne. contradiction.
Qed.

Lemma bytes_Equal_Equal h v w :
  bytes_Equal (bytes h v) (bytes h w) = Equal h v (VByteVector w).
Proof.
  unfold bytes_Equal. destruct (Equal h v (VByteVector w)) eqn:E.
  - apply bool_decide_eq_true. apply Equal_bytes. exact E.
  - apply bool_decide_eq_false. intros Hb. apply Equal_bytes in Hb. congruence.
Qed.

(** [Equal] on bytevectors decides the equality of their contents, so it
    is reflexive, symmetric and transitive; it is false on every value
    that is no bytevector; and the primitive [bytevector=?], which goes
    through [bytes.Equal], returns the same answer. *)
Theorem Equal_decides_contents :
  forall (h : Store) (u v w : loc) (o : Value),
    (Equal h v (VByteVector w) = true <-> bytes h v = bytes h w) /\
    Equal h v (VByteVector v) = true /\
    Equal h v (VByteVector w) = Equal h w (VByteVector v) /\
    (Equal h u (VByteVector v) = true -> Equal h v (VByteVector w) = true ->
     Equal h u (VByteVector w) = true) /\
    ((forall x, o <> VByteVector x) -> Equal h v o = false) /\
    bytevector_eq h [VByteVector v; VByteVector w]
    = Ok (VBoolean (Equal h v (VByteVector w))).
Proof.
  intros h u v w o.
  split; [apply Equal_bytes|].
  split; [apply Equal_bytes; reflexivity|].
  split.
  { destruct (Equal h v (VByteVector w)) eqn:E1;
      destruct (Equal h w (VByteVector v)) eqn:E2; try reflexivity.
    - apply Equal_bytes in E1. symmetry in E1. apply Equal_bytes in E1.
      congruence.
    - apply Equal_bytes in E2. symmetry in E2. apply Equal_bytes in E2.
      congruence. }
  split.
  { rewrite !Equal_bytes. congruence. }
  split.
  { intros Ho. destruct o; try reflexivity. exfalso. eapply Ho. reflexivity. }
  rewrite <- bytes_Equal_Equal. reflexivity.
Qed.

(** [bytevector-copy] of a bytevector of the store returns a bytevector
    at a new address with the same contents ([Equal] and [bytevector=?]
    both say so), and the two are independent: filling the copy
    afterwards leaves the original as it was. *)
Theorem bytevector_copy_independent :
  forall (h : Store) (v : loc) (a1 : Value) (f : Z),
    is_Some (h !! v) ->
    Int64 a1 = Some f -> -128 <= f <= 255 ->
    exists l,
      bytevector_copy_new h [VByteVector v]
      = (<[l := bytes h v]> h, Ok (VByteVector l)) /\
      l <> v /\ h !! l = None /\
      let h1 := <[l := bytes h v]> h in
      bytes h1 l = bytes h v /\
      bytes h1 v = bytes h v /\
      Equal h1 v (VByteVector l) = true /\
      bytevector_eq h1 [VByteVector v; VByteVector l] = Ok (VBoolean true) /\
      let h2 := fst (bytevector_fill h1 [VByteVector l; a1]) in
      bytes h2 v = bytes h v /\
      bytes h2 l = replicate (length (bytes h v)) (byte_of_int64 f).
Proof.
  intros h v a1 f [bs Hv] Ha1 Hf.
  unfold bytevector_copy_new.
  change ([VByteVector v] !! 0%nat) with (Some (VByteVector v)).
  cbv beta iota.
  destruct (alloc h (bytes h v)) as [h' l] eqn:Ha.
  apply alloc_fresh in Ha as [Hl ->]. exists l.
  assert (Hne : l <> v) by congruence.
  split; [reflexivity|]. split; [exact Hne|]. split; [exact Hl|].
  cbv zeta.
  assert (E1 : bytes (<[l := bytes h v]> h) l = bytes h v)
    by apply bytes_insert_eq.
  assert (E2 : bytes (<[l := bytes h v]> h) v = bytes h v)
    by (apply bytes_insert_ne; exact Hne).
  split; [exact E1|]. split; [exact E2|].
  assert (E3 : Equal (<[l := bytes h v]> h) v (VByteVector l) = true)
    by (apply Equal_bytes; congruence).
  split; [exact E3|].
  split.
  { unfold bytevector_eq. cbn [lookup list_lookup].
    rewrite bytes_Equal_Equal, E3. reflexivity. }
  destruct (bytevector_fill_valid (<[l := bytes h v]> h) l a1 f Ha1 Hf)
    as (_ & Hb & Hother).
  split.
  - rewrite Hother by congruence. exact E2.
  - rewrite Hb, E1. reflexivity.
Qed.

Lemma bytevector_copy_independent_witness :
  exists l,
    bytevector_copy_new ByteVectorsFacts.store_two [VByteVector 0%nat]
    = (<[l := bytes ByteVectorsFacts.store_two 0%nat]>
         ByteVectorsFacts.store_two, Ok (VByteVector l)) /\
    l <> 0%nat /\ ByteVectorsFacts.store_two !! l = None /\
    let h1 := <[l := bytes ByteVectorsFacts.store_two 0%nat]>
                ByteVectorsFacts.store_two in
    bytes h1 l = bytes ByteVectorsFacts.store_two 0%nat /\
    bytes h1 0%nat = bytes ByteVectorsFacts.store_two 0%nat /\
    Equal h1 0%nat (VByteVector l) = true /\
    bytevector_eq h1 [VByteVector 0%nat; VByteVector l]
    = Ok (VBoolean true) /\
    let h2 := fst (bytevector_fill h1 [VByteVector l; int (-1)]) in
    bytes h2 0%nat = bytes ByteVectorsFacts.store_two 0%nat /\
    bytes h2 l
    = replicate (length (bytes ByteVectorsFacts.store_two 0%nat))
        (byte_of_int64 (-1)).
Proof.
  apply (bytevector_copy_independent ByteVectorsFacts.store_two 0%nat
           (int (-1)) (-1)).
  - exists [1; 2; 3; 4]. vm_compute. reflexivity.
  - reflexivity.
  - lia.
Defined.

Lemma int8_of_byte_range b :
  0 <= b < 256 ->
  -128 <= int8_of_byte b < 128 /\
  (b - int8_of_byte b = 0 \/ b - int8_of_byte b = 256) /\
  byte_of_int64 (int8_of_byte b) = b.
Proof.
  intros Hb. unfold int8_of_byte, byte_of_int64.
  destruct (Z.ltb_spec b 128).
  - repeat split; try lia. apply Z.mod_small. lia.
  - repeat split; try lia.
    replace (b - 256) with (b + (-1) * 256) by lia.
    rewrite Z_mod_plus_full. apply Z.mod_small. lia.
Qed.

(** [bytevector-u8-ref] and [bytevector-s8-ref] fail with the same error
    exactly when the index is outside [0, length); inside they never
    panic: the first returns the byte at the index, from 0 to 255, the
    second the same byte read in two's complement, from -128 to 127, and
    the two results differ by 0 or by 256. *)
Theorem bytevector_ref_bounds :
  forall (h : Store) (v : loc) (k : Z),
    store_bytes h ->
    let args := [VByteVector v; int k] in
    if (0 <=? k) && (k <? len h v) then
      exists b,
        bytes h v !! Z.to_nat k = Some b /\
        bytevector_u8_ref h args = Ok (int b) /\
        bytevector_s8_ref h args = Ok (int (int8_of_byte b)) /\
        0 <= b < 256 /\
        -128 <= int8_of_byte b < 128 /\
        (b - int8_of_byte b = 0 \/ b - int8_of_byte b = 256)
    else
      bytevector_u8_ref h args = Err (IndexOutOfRange k (len h v)) /\
      bytevector_s8_ref h args = Err (IndexOutOfRange k (len h v)).
Proof.
  intros h v k Hst args. subst args.
  unfold bytevector_u8_ref, bytevector_s8_ref, bytevector_ref. simpl.
  destruct (Z.leb_spec 0 k) as [H0|H0];
    destruct (Z.ltb_spec k (len h v)) as [H1|H1];
    destruct (Z.ltb_spec k 0); destruct (Z.geb_spec k (len h v));
    try lia; simpl; auto.
  unfold len in H1.
  destruct (bytes h v !! Z.to_nat k) as [b|] eqn:Hb.
  - exists b. split; [reflexivity|].
    assert (Hr : 0 <= b < 256).
    { unfold bytes in Hb. destruct (h !! v) as [bs|] eqn:Hv; simpl in Hb.
      - specialize (Hst v bs Hv). rewrite Forall_forall in Hst.
        apply Hst. eapply list_elem_of_lookup_2. exact Hb.
      - rewrite lookup_nil in Hb. discriminate. }
    destruct (int8_of_byte_range b Hr) as (R1 & R2 & _).
    repeat split; try assumption; try lia; reflexivity.
  - apply lookup_ge_None in Hb. lia.
Qed.

(** Two bytevectors of bytes. *)
Lemma store_two_bytes : store_bytes ByteVectorsFacts.store_two.
Proof.
  intros l bs Hl. unfold ByteVectorsFacts.store_two in Hl.
  destruct (decide (l = 1%nat)) as [->|N1].
  - rewrite lookup_insert_eq in Hl. inversion Hl; subst.
    repeat constructor; lia.
  - rewrite lookup_insert_ne in Hl by congruence.
    destruct (decide (l = 0%nat)) as [->|N0].
    + rewrite lookup_singleton_eq in Hl. inversion Hl; subst.
      repeat constructor; lia.
    + rewrite lookup_singleton_ne in Hl by congruence. discriminate.
Qed.

Lemma bytevector_ref_bounds_witness :
  exists b,
    bytes ByteVectorsFacts.store_two 0%nat !! Z.to_nat 2 = Some b /\
    bytevector_u8_ref ByteVectorsFacts.store_two [VByteVector 0%nat; int 2]
    = Ok (int b) /\
    bytevector_s8_ref ByteVectorsFacts.store_two [VByteVector 0%nat; int 2]
    = Ok (int (int8_of_byte b)) /\
    0 <= b < 256 /\
    -128 <= int8_of_byte b < 128 /\
    (b - int8_of_byte b = 0 \/ b - int8_of_byte b = 256).
Proof.
  exact (bytevector_ref_bounds ByteVectorsFacts.store_two 0%nat 2
           store_two_bytes).
Defined.

Lemma Forall_byte_copy_into t ts te s ss se :
  Forall (fun b => 0 <= b < 256) t -> Forall (fun b => 0 <= b < 256) s ->
  Forall (fun b => 0 <= b < 256) (copy_into t ts te s ss se).
Proof.
  intros Ht Hs. unfold copy_into.
  repeat apply Forall_app_2;
    auto using Forall_take, Forall_drop.
Qed.

Lemma store_bytes_insert h l bs :
  store_bytes h -> Forall (fun b => 0 <= b < 256) bs ->
  store_bytes (<[l := bs]> h).
Proof.
  intros Hst Hbs l' bs' Hl. destruct (decide (l = l')) as [->|Hne].
  - rewrite lookup_insert_eq in Hl. inversion Hl; subst. exact Hbs.
  - rewrite lookup_insert_ne in Hl by exact Hne. eapply Hst; eauto.
Qed.

Lemma store_bytes_bytes h l :
  store_bytes h -> Forall (fun b => 0 <= b < 256) (bytes h l).
Proof.
  intros Hst. unfold bytes. destruct (h !! l) as [bs|] eqn:Hl; simpl.
  - eapply Hst; eauto.
  - constructor.
Qed.

(** The store holds bytes and keeps holding bytes: whatever the
    arguments, [make-bytevector], [bytevector-fill], [bytevector-copy] and
    [bytevector-copy!] leave a store whose every element is from 0 to
    255. *)
Theorem primitives_keep_bytes :
  forall (h : Store) (args : list Value),
    store_bytes h ->
    store_bytes (fst (make_bytevector h args)) /\
    store_bytes (fst (bytevector_fill h args)) /\
    store_bytes (fst (bytevector_copy_new h args)) /\
    store_bytes (fst (bytevector_copy h args)).
Proof.
  intros h args Hst. repeat split.
  - unfold make_bytevector.
    destruct (args !! 0%nat) as [a0|]; [|exact Hst].
    destruct (Int64 a0) as [k|]; [|exact Hst].
    destruct (k <? 0); [exact Hst|].
    destruct (length args =? 2)%nat.
    + destruct (args !! 1%nat) as [a1|]; [|exact Hst].
      destruct (Int64 a1) as [f|]; [|exact Hst].
      destruct ((f <? -128) || (f >? 255)); [exact Hst|].
      destruct (maxAlloc <? k); [exact Hst|].
      unfold alloc. simpl. apply store_bytes_insert; [exact Hst|].
      apply Forall_replicate. apply byte_of_int64_range.
    + destruct (maxAlloc <? k); [exact Hst|].
      unfold alloc. simpl. apply store_bytes_insert; [exact Hst|].
      apply Forall_replicate. lia.
  - unfold bytevector_fill.
    destruct (args !! 0%nat) as [[| | | | |v|]|]; try exact Hst.
    destruct (args !! 1%nat) as [a1|]; [|exact Hst].
    destruct (Int64 a1) as [f|]; [|exact Hst].
    destruct ((f <? -128) || (f >? 255)); [exact Hst|].
    destruct (bytes h v); [exact Hst|]. simpl.
    apply store_bytes_insert; [exact Hst|].
    constructor; [apply byte_of_int64_range|].
    apply Forall_replicate. apply byte_of_int64_range.
  - unfold bytevector_copy_new.
    destruct (args !! 0%nat) as [[| | | | |v|]|]; try exact Hst.
    unfold alloc. simpl. apply store_bytes_insert; [exact Hst|].
    apply store_bytes_bytes. exact Hst.
  - destruct (bytevector_copy h args) as [h' r] eqn:Hc. simpl.
    destruct (ByteVectorsFacts.bytevector_copy_inv _ _ _ _ Hc)
      as [[-> _]|[_ (s & t & ss & ts & k & Hcopied)]]; [exact Hst|].
    destruct Hcopied as (_ & _ & _ & _ & _ & _ & _ & _ & _ & _ & _ & _ & ->).
    apply store_bytes_insert; [exact Hst|].
    apply Forall_byte_copy_into; apply store_bytes_bytes; exact Hst.
Qed.

Lemma primitives_keep_bytes_witness :
  store_bytes (fst (make_bytevector ByteVectorsFacts.store_two
                      ByteVectorsFacts.copy_args)) /\
  store_bytes (fst (bytevector_fill ByteVectorsFacts.store_two
                      ByteVectorsFacts.copy_args)) /\
  store_bytes (fst (bytevector_copy_new ByteVectorsFacts.store_two
                      ByteVectorsFacts.copy_args)) /\
  store_bytes (fst (bytevector_copy ByteVectorsFacts.store_two
                      ByteVectorsFacts.copy_args)).
Proof.
  exact (primitives_keep_bytes ByteVectorsFacts.store_two
           ByteVectorsFacts.copy_args store_two_bytes).
Defined.

(** A made bytevector reads back its fill: for a length of at most
    [maxAlloc], a fill [f] from -128 to 255 and an index inside the
    length, [bytevector-length] of [(make-bytevector k f)] is [k],
    [bytevector-u8-ref] is [f] taken modulo 256, and
    [bytevector-s8-ref] is [f] itself when [f] is at most 127 and
    [f - 256] above. *)
Theorem make_then_ref :
  forall (h : Store) (k f i : Z),
    k <= maxAlloc -> -128 <= f <= 255 -> 0 <= i < k ->
    exists l h',
      make_bytevector h [int k; int f] = (h', Ok (VByteVector l)) /\
      bytevector_length h' [VByteVector l] = Ok (int k) /\
      bytevector_u8_ref h' [VByteVector l; int i]
      = Ok (int (if f <? 0 then f + 256 else f)) /\
      bytevector_s8_ref h' [VByteVector l; int i]
      = Ok (int (if f <? 128 then f else f - 256)).
Proof.
  intros h k f i Hk Hf Hi.
  assert (Hm : exists l,
             make_bytevector h [int k; int f]
             = (<[l := replicate (Z.to_nat k) (byte_of_int64 f)]> h,
                Ok (VByteVector l)) /\
             h !! l = None /\
             len (<[l := replicate (Z.to_nat k) (byte_of_int64 f)]> h) l = k /\
             (forall i : nat,
                 (i < Z.to_nat k)%nat ->
                 bytes (<[l := replicate (Z.to_nat k) (byte_of_int64 f)]> h) l
                   !! i = Some (byte_of_int64 f)) /\
             (forall l', l' <> l ->
                         bytes (<[l := replicate (Z.to_nat k)
                                            (byte_of_int64 f)]> h) l'
                         = bytes h l')).
  { unfold make_bytevector. simpl.
    destruct (Z.ltb_spec k 0); [lia|].
    destruct (Z.ltb_spec f (-128)); [lia|].
    destruct (Z.gtb_spec f 255); [lia|]. simpl.
    destruct (Z.ltb_spec maxAlloc k); [lia|].
    apply alloc_replicate. lia. }
  destruct Hm as (l & Hmake & Hl & Hlen & Hget & _).
  exists l, (<[l := replicate (Z.to_nat k) (byte_of_int64 f)]> h).
  split; [exact Hmake|].
  split; [unfold bytevector_length; simpl; rewrite Hlen; reflexivity|].
  unfold bytevector_u8_ref, bytevector_s8_ref, bytevector_ref. simpl.
  rewrite Hlen.
  destruct (Z.ltb_spec i 0); [lia|]. destruct (Z.geb_spec i k); [lia|]. simpl.
  rewrite Hget by lia.
  rewrite byte_of_int64_fill by lia.
  split; [reflexivity|].
  assert (E : int8_of_byte (if f <? 0 then f + 256 else f)
              = if f <? 128 then f else f - 256).
  { unfold int8_of_byte.
    destruct (Z.ltb_spec f 0); destruct (Z.ltb_spec f 128);
      try match goal with
          | |- context [?a <? 128] => destruct (Z.ltb_spec a 128)
          end; lia. }
  rewrite E. reflexivity.
Qed.

Lemma make_then_ref_witness :
  exists l h',
    make_bytevector ByteVectorsFacts.store_two [int 3; int (-2)]
    = (h', Ok (VByteVector l)) /\
    bytevector_length h' [VByteVector l] = Ok (int 3) /\
    bytevector_u8_ref h' [VByteVector l; int 1]
    = Ok (int (if -2 <? 0 then -2 + 256 else -2)) /\
    bytevector_s8_ref h' [VByteVector l; int 1]
    = Ok (int (if -2 <? 128 then -2 else -2 - 256)).
Proof.
  apply (make_then_ref ByteVectorsFacts.store_two 3 (-2) 1);
    unfold maxAlloc; lia.
Defined.

End ByteVectorOpsFacts.

Module StringOpsFacts.
Import Values Strings StringOps.

(** ** The UTF-8 conversions *)

(** [n] values from [z] on all pass the test [f]. *)
Fixpoint check_from (n : nat) (z : Z) (f : Z -> bool) : bool :=
  match n with
  | O => true
  | S n' => f z && check_from n' (z + 1) f
  end.

Lemma check_from_sound n z f :
  check_from n z f = true ->
  forall r, z <= r < z + Z.of_nat n -> f r = true.
Proof.
  revert z. induction n as [|n IH]; intros z H r Hr; simpl in H.
  - lia.
  - apply andb_prop in H as [Hz Hn].
    destruct (Z.eq_dec r z) as [->|Hne]; [exact Hz|].
    apply (IH (z + 1) Hn). lia.
Qed.

Definition list_eqb (a b : list Z) : bool := bool_decide (a = b).

(** The encoding of [r] is one complete sequence of at most four bytes
    that decodes to [sanitize r]. *)
Definition encoding_ok (r : Z) : bool :=
  let bs := encoderune r in
  (length bs <=? 4)%nat
  && match bs with
     | [b0] => b0 <? 0x80
     | _ => (2 <=? length bs)%nat
     end
  && forallb (fun b => (0 <=? b) && (b <? 256)) bs
  && list_eqb (runes bs) [sanitize r].

Lemma encoding_ok_in_range :
  check_from (Z.to_nat 0x110000) 0 encoding_ok = true.
Proof. vm_compute. reflexivity. Qed.

Lemma runes_nil l : runes l = [] -> l = [].
Proof.
  destruct l as [|b0 t0]; [reflexivity|]. cbn [runes].
  repeat match goal with
         | |- context [if ?c then _ else _] => destruct c
         | |- context [match ?l with [] => _ | _ :: _ => _ end] => destruct l
         end; discriminate.
Qed.

Lemma runes_cons_not_nil b l x : x :: runes (b :: l) = [x] -> False.
Proof.
  intros H. assert (H' : runes (b :: l) = []) by congruence.
  apply (runes_nil (b :: l)) in H'. discriminate.
Qed.

Lemma runes_one_complete bs r rest :
  (length bs <= 4)%nat ->
  match bs with
  | [b0] => (b0 <? 0x80) = true
  | _ => (2 <= length bs)%nat
  end ->
  runes bs = [r] ->
  runes (bs ++ rest) = r :: runes rest.
Proof.
  intros Hlen Hshape Hr.
  destruct bs as [|b0 [|b1 [|b2 [|b3 [|b4 bs]]]]]; simpl in Hlen, Hshape;
    try lia.
  - (* one byte *)
    cbn [runes app] in *. rewrite Hshape in *. congruence.
  - (* two bytes *)
    cbn [runes app] in *.
    repeat match type of Hr with
           | context [if ?c then _ else _] => destruct c
           end;
      try (exfalso; eapply runes_cons_not_nil; exact Hr);
      try discriminate; congruence.
  - (* three bytes *)
    cbn [runes app] in *.
    repeat match type of Hr with
           | context [if ?c then _ else _] => destruct c
           end;
      try (exfalso; eapply runes_cons_not_nil; exact Hr);
      try discriminate; congruence.
  - (* four bytes *)
    cbn [runes app] in *.
    repeat match type of Hr with
           | context [if ?c then _ else _] => destruct c
           end;
      try (exfalso; eapply runes_cons_not_nil; exact Hr);
      try discriminate; congruence.
Qed.

Lemma encoderune_invalid r :
  valid_rune r = false -> encoderune r = [0xEF; 0xBF; 0xBD].
Proof.
  unfold valid_rune, encoderune. intros H.
  destruct (Z.leb_spec 0 r); destruct (Z.leb_spec r 0x10FFFF);
    destruct (Z.leb_spec 0xD800 r); destruct (Z.leb_spec r 0xDFFF);
    simpl in H; try discriminate;
    destruct (Z.leb_spec r 0x7F); destruct (Z.leb_spec r 0x7FF);
    destruct (Z.ltb_spec r 0); destruct (Z.ltb_spec 0x10FFFF r);
    simpl; try lia; reflexivity.
Qed.

Lemma encoding_ok_all r : encoding_ok r = true.
Proof.
  destruct (Z_lt_le_dec r 0) as [Hneg|Hpos].
  - unfold encoding_ok, sanitize.
    assert (Hv : valid_rune r = false).
    { unfold valid_rune. destruct (Z.leb_spec 0 r); [lia|]. reflexivity. }
    rewrite Hv, (encoderune_invalid r Hv). vm_compute. reflexivity.
  - destruct (Z_lt_le_dec r 0x110000) as [Hin|Hout].
    + apply (check_from_sound _ _ _ encoding_ok_in_range). lia.
    + unfold encoding_ok, sanitize.
      assert (Hv : valid_rune r = false).
      { unfold valid_rune. destruct (Z.leb_spec r 0x10FFFF); [lia|].
        rewrite andb_false_r. reflexivity. }
      rewrite Hv, (encoderune_invalid r Hv). vm_compute. reflexivity.
Qed.

Lemma encoderune_facts r :
  Forall (fun b => 0 <= b < 256) (encoderune r) /\
  forall rest, runes (encoderune r ++ rest) = sanitize r :: runes rest.
Proof.
  pose proof (encoding_ok_all r) as H. unfold encoding_ok in H.
  cbv zeta in H.
  apply andb_prop in H as [H Hr]. apply andb_prop in H as [H Hb].
  apply andb_prop in H as [Hl Hs].
  split.
  - rewrite forallb_forall in Hb. apply Forall_forall. intros b Hin.
    apply list_elem_of_In in Hin.
    specialize (Hb b Hin). apply andb_prop in Hb as [H0 H1].
    apply Z.leb_le in H0. apply Z.ltb_lt in H1. lia.
  - intros rest. apply runes_one_complete.
    + apply Nat.leb_le. exact Hl.
    + destruct (encoderune r) as [|b0 [|b1 bs]]; simpl in *;
        try discriminate; try exact Hs; try lia.
    + unfold list_eqb in Hr. apply bool_decide_eq_true in Hr. exact Hr.
Qed.

Lemma runes_encoded rs rest :
  runes (concat (map encoderune rs) ++ rest) = map sanitize rs ++ runes rest.
Proof.
  induction rs as [|r rs IH]; simpl; [reflexivity|].
  rewrite <- app_assoc. rewrite (proj2 (encoderune_facts r)). rewrite IH.
  reflexivity.
Qed.

Lemma encoded_bytes rs :
  Forall (fun b => 0 <= b < 256) (concat (map encoderune rs)).
Proof.
  induction rs as [|r rs IH]; simpl; [constructor|].
  apply Forall_app_2; [apply encoderune_facts|exact IH].
Qed.

Lemma byte_of_ascii_of b : 0 <= b < 256 -> byte_of (ascii_of b) = b.
Proof.
  intros Hb. unfold byte_of, ascii_of.
  rewrite Z.mod_small by lia.
  rewrite N_ascii_embedding by lia. lia.
Qed.

Lemma bytes_of_string_of_bytes l :
  Forall (fun b => 0 <= b < 256) l -> bytes_of (string_of_bytes l) = l.
Proof.
  intros H. unfold bytes_of, string_of_bytes.
  rewrite list_ascii_of_string_of_list_ascii.
  induction H as [|b l Hb _ IH]; simpl; [reflexivity|].
  rewrite byte_of_ascii_of by exact Hb. rewrite IH. reflexivity.
Qed.

Lemma bytes_of_range s : Forall (fun b => 0 <= b < 256) (bytes_of s).
Proof.
  unfold bytes_of. apply Forall_forall. intros b Hin.
  apply list_elem_of_In, in_map_iff in Hin as (c & <- & _).
  unfold byte_of. pose proof (N_ascii_bounded c). lia.
Qed.

Lemma string_of_bytes_of s : string_of_bytes (bytes_of s) = s.
Proof.
  unfold string_of_bytes, bytes_of.
  rewrite <- (string_of_list_ascii_of_string s) at 2. f_equal.
  rewrite map_map. induction (list_ascii_of_string s) as [|c l IH];
    simpl; [reflexivity|].
  rewrite IH. f_equal. unfold ascii_of, byte_of.
  pose proof (N_ascii_bounded c).
  rewrite Z.mod_small by lia. rewrite N2Z.id. apply ascii_N_embedding.
Qed.

(** The runes of a string made from runes. *)
Lemma runes_of_string_of_runes rs :
  runes_of (string_of_runes rs) = map sanitize rs.
Proof.
  unfold runes_of, string_of_runes.
  rewrite bytes_of_string_of_bytes by apply encoded_bytes.
  rewrite <- (app_nil_r (concat _)). rewrite runes_encoded. simpl.
  apply app_nil_r.
Qed.

Lemma lor_bound a b n :
  0 <= n -> 0 <= a < 2 ^ n -> 0 <= b < 2 ^ n -> 0 <= Z.lor a b < 2 ^ n.
Proof.
  intros Hn Ha Hb. split; [apply Z.lor_nonneg; lia|].
  destruct (Z.eq_dec a 0) as [->|Ha0]; [rewrite Z.lor_0_l; lia|].
  destruct (Z.eq_dec b 0) as [->|Hb0]; [rewrite Z.lor_0_r; lia|].
  assert (Hl : 0 <= Z.lor a b) by (apply Z.lor_nonneg; lia).
  destruct (Z.eq_dec (Z.lor a b) 0) as [->|Hl0]; [lia|].
  apply Z.log2_lt_pow2; [lia|].
  rewrite Z.log2_lor by lia.
  apply Z.max_lub_lt; apply Z.log2_lt_pow2; lia.
Qed.

Lemma land_mask b n : 0 <= n -> 0 <= Z.land b (Z.ones n) < 2 ^ n.
Proof.
  intros Hn. rewrite Z.land_ones by exact Hn.
  apply Z.mod_pos_bound. apply Z.pow_pos_nonneg; lia.
Qed.

Lemma two_byte_bound b0 b1 :
  0 <= Z.lor (Z.shiftl (Z.land b0 0x1F) 6) (Z.land b1 0x3F) < 2 ^ 11.
Proof.
  pose proof (land_mask b0 5 ltac:(lia)) as H0.
  pose proof (land_mask b1 6 ltac:(lia)) as H1.
  change (Z.ones 5) with 0x1F in H0. change (Z.ones 6) with 0x3F in H1.
  apply lor_bound; [lia| |lia].
  rewrite Z.shiftl_mul_pow2 by lia. lia.
Qed.

Lemma three_byte_bound b0 b1 b2 :
  0 <= Z.lor (Z.lor (Z.shiftl (Z.land b0 0x0F) 12)
                    (Z.shiftl (Z.land b1 0x3F) 6))
             (Z.land b2 0x3F) < 2 ^ 16.
Proof.
  pose proof (land_mask b0 4 ltac:(lia)) as H0.
  pose proof (land_mask b1 6 ltac:(lia)) as H1.
  pose proof (land_mask b2 6 ltac:(lia)) as H2.
  change (Z.ones 4) with 0x0F in H0. change (Z.ones 6) with 0x3F in H1, H2.
  apply lor_bound; [lia| |lia].
  apply lor_bound; [lia| |]; rewrite Z.shiftl_mul_pow2 by lia; lia.
Qed.

Lemma four_byte_nonneg b0 b1 b2 b3 :
  0 <= Z.lor (Z.lor (Z.lor (Z.shiftl (Z.land b0 0x07) 18)
                           (Z.shiftl (Z.land b1 0x3F) 12))
                    (Z.shiftl (Z.land b2 0x3F) 6))
             (Z.land b3 0x3F).
Proof.
  assert (Hl : forall b m, 0 <= m -> 0 <= Z.land b m)
    by (intros b m Hm; apply Z.land_nonneg; right; exact Hm).
  assert (Hs : forall x k, 0 <= x -> 0 <= Z.shiftl x k)
    by (intros x k Hx; apply Z.shiftl_nonneg; exact Hx).
  apply Z.lor_nonneg. split; [|apply Hl; lia].
  apply Z.lor_nonneg. split; [|apply Hs, Hl; lia].
  apply Z.lor_nonneg. split; apply Hs, Hl; lia.
Qed.

Lemma valid_rune_iff r :
  valid_rune r = true <-> 0 <= r <= 0x10FFFF /\ ~ (0xD800 <= r <= 0xDFFF).
Proof.
  unfold valid_rune.
  destruct (Z.leb_spec 0 r); destruct (Z.leb_spec r 0x10FFFF);
    destruct (Z.leb_spec 0xD800 r); destruct (Z.leb_spec r 0xDFFF);
    simpl; split; intros; try discriminate; try reflexivity; lia.
Qed.

Lemma runes_valid_fuel n :
  forall l, (length l <= n)%nat -> Forall (fun b => 0 <= b) l ->
            Forall (fun r => valid_rune r = true) (runes l).
Proof.
  induction n as [|n IH]; intros l Hlen Hb.
  - destruct l; [constructor|simpl in Hlen; lia].
  - destruct l as [|b0 t0]; [constructor|].
    simpl in Hlen. apply Forall_cons in Hb as [Hb0 Ht0].
    assert (Hbad : Forall (fun r => valid_rune r = true)
                          (runeError :: runes t0)).
    { constructor; [reflexivity|]. apply IH; [lia|exact Ht0]. }
    cbn [runes]. cbv zeta.
    destruct (Z.ltb_spec b0 0x80).
    { constructor; [apply valid_rune_iff; lia|]. apply IH; [lia|exact Ht0]. }
    destruct ((0xC0 <=? b0) && (b0 <? 0xE0)).
    { destruct t0 as [|b1 t1]; [exact Hbad|].
      apply Forall_cons in Ht0 as [_ Ht1]. simpl in Hlen.
      match goal with
      | |- context [if ?c then _ else _] => destruct c eqn:Ec
      end; [|exact Hbad].
      apply andb_prop in Ec as [_ Ec]. apply Z.ltb_lt in Ec.
      pose proof (two_byte_bound b0 b1).
      constructor; [apply valid_rune_iff; lia|]. apply IH; [lia|exact Ht1]. }
    destruct ((0xE0 <=? b0) && (b0 <? 0xF0)).
    { destruct t0 as [|b1 [|b2 t2]]; try exact Hbad.
      apply Forall_cons in Ht0 as [_ Ht1].
      apply Forall_cons in Ht1 as [_ Ht2]. simpl in Hlen.
      match goal with
      | |- context [if ?c then _ else _] => destruct c eqn:Ec
      end; [|exact Hbad].
      apply andb_prop in Ec as [Ec Es]. apply negb_true_iff in Es.
      pose proof (three_byte_bound b0 b1 b2) as Hr.
      constructor; [|apply IH; [lia|exact Ht2]].
      unfold valid_rune. rewrite Es. simpl.
      rewrite andb_true_r. apply andb_true_intro. split.
      - apply Z.leb_le. lia.
      - apply Z.leb_le. lia. }
    destruct ((0xF0 <=? b0) && (b0 <? 0xF8)); [|exact Hbad].
    destruct t0 as [|b1 [|b2 [|b3 t3]]]; try exact Hbad.
    apply Forall_cons in Ht0 as [_ Ht1].
    apply Forall_cons in Ht1 as [_ Ht2].
    apply Forall_cons in Ht2 as [_ Ht3]. simpl in Hlen.
    match goal with
    | |- context [if ?c then _ else _] => destruct c eqn:Ec
    end; [|exact Hbad].
    apply andb_prop in Ec as [Ec Hhi]. apply andb_prop in Ec as [_ Hlo].
    apply Z.leb_le in Hhi. apply Z.ltb_lt in Hlo.
    constructor; [apply valid_rune_iff; lia|]. apply IH; [lia|exact Ht3].
Qed.

Lemma runes_of_valid s : Forall (fun r => valid_rune r = true) (runes_of s).
Proof.
  unfold runes_of. apply (runes_valid_fuel (length (bytes_of s))); [lia|].
  eapply Forall_impl; [apply bytes_of_range|]. simpl. intros; lia.
Qed.

Lemma map_sanitize_valid rs :
  Forall (fun r => valid_rune r = true) rs -> map sanitize rs = rs.
Proof.
  induction 1 as [|r rs Hr _ IH]; simpl; [reflexivity|].
  unfold sanitize at 1. rewrite Hr, IH. reflexivity.
Qed.

Lemma sanitize_valid r : valid_rune (sanitize r) = true.
Proof.
  unfold sanitize. destruct (valid_rune r) eqn:E; [exact E|reflexivity].
Qed.

Lemma encoderune_sanitize r : encoderune (sanitize r) = encoderune r.
Proof.
  unfold sanitize. destruct (valid_rune r) eqn:E; [reflexivity|].
  rewrite (encoderune_invalid r E). reflexivity.
Qed.

Lemma string_of_runes_sanitize rs :
  string_of_runes (map sanitize rs) = string_of_runes rs.
Proof.
  unfold string_of_runes. f_equal. f_equal. rewrite map_map.
  apply map_ext. intros r. apply encoderune_sanitize.
Qed.

Lemma runes_of_copy s : runes_of (string_of_runes (runes_of s)) = runes_of s.
Proof.
  rewrite runes_of_string_of_runes.
  apply map_sanitize_valid, runes_of_valid.
Qed.

Lemma bytes_of_append a b :
  bytes_of (String.append a b) = bytes_of a ++ bytes_of b.
Proof.
  unfold bytes_of. induction a as [|c a IH]; simpl; [reflexivity|].
  f_equal. exact IH.
Qed.

Lemma bytes_of_string_of_runes rs :
  bytes_of (string_of_runes rs) = concat (map encoderune rs).
Proof.
  unfold string_of_runes. apply bytes_of_string_of_bytes, encoded_bytes.
Qed.

(** [string-copy] keeps the characters of a string and normalises its
    bytes: the copy has the runes of the original, copying the copy
    returns it unchanged, and the copy is the original exactly when the
    original is the conversion of some sequence of runes. *)
Theorem string_copy_normalizes :
  forall s : string,
  exists s',
    string_copy [VString s] = Ok (VString s') /\
    runes_of s' = runes_of s /\
    string_copy [VString s'] = Ok (VString s') /\
    (s' = s <-> exists rs, s = string_of_runes rs).
Proof.
  intros s. exists (string_of_runes (runes_of s)).
  split; [reflexivity|]. split; [apply runes_of_copy|].
  split.
  - unfold string_copy. simpl. rewrite runes_of_copy. reflexivity.
  - split.
    + intros E. exists (runes_of s). symmetry. exact E.
    + intros [rs ->]. rewrite runes_of_string_of_runes.
      apply string_of_runes_sanitize.
Qed.

Lemma length_runes_replicate n ch :
  runes_of (string_of_runes (replicate n ch)) = replicate n (sanitize ch).
Proof.
  rewrite runes_of_string_of_runes.
  induction n as [|n IH]; simpl; [reflexivity|]. f_equal. exact IH.
Qed.

(** A made string reads back its fill: for [n] runes that take at most
    [maxAlloc] bytes, [(make-string n ch)] has [n] characters and each
    of them is [ch] when [ch] is a scalar value and U+FFFD otherwise;
    without a fill the characters are spaces.  For more runes than
    that [make-string] panics in the allocation. *)
Theorem make_string_filled :
  forall n ch k : Z,
    0 <= k < n ->
    if 4 * n <=? maxAlloc then
    exists s s0,
      make_string [int n; VCharacter ch] = Ok (VString s) /\
      string_length [VString s] = Ok (int n) /\
      string_ref [VString s; int k] = Ok (VCharacter (sanitize ch)) /\
      make_string [int n] = Ok (VString s0) /\
      string_length [VString s0] = Ok (int n) /\
      string_ref [VString s0; int k] = Ok (VCharacter 32)
    else
      make_string [int n; VCharacter ch] = Panic /\
      make_string [int n] = Panic.
Proof.
  intros n ch k Hk.
  destruct (Z.leb_spec (4 * n) maxAlloc) as [Hle|Hgt];
    [|unfold make_string; simpl;
      destruct (Z.ltb_spec n 0); [lia|];
      destruct (Z.ltb_spec maxAlloc (4 * n)); [|lia];
      split; reflexivity].
  assert (Hgen : forall c,
             string_length [VString (string_of_runes
                                       (replicate (Z.to_nat n) c))]
             = Ok (int n) /\
             string_ref [VString (string_of_runes
                                    (replicate (Z.to_nat n) c)); int k]
             = Ok (VCharacter (sanitize c))).
  { intros c. unfold string_length, string_ref. simpl.
    rewrite length_runes_replicate, length_replicate.
    rewrite Z2Nat.id by lia. split; [reflexivity|].
    destruct (Z.ltb_spec k 0); [lia|]. destruct (Z.geb_spec k n); [lia|].
    simpl. rewrite lookup_replicate_2 by lia. reflexivity. }
  exists (string_of_runes (replicate (Z.to_nat n) ch)),
         (string_of_runes (replicate (Z.to_nat n) 32)).
  unfold make_string. simpl.
  destruct (Z.ltb_spec n 0); [lia|].
  destruct (Z.ltb_spec maxAlloc (4 * n)); [lia|].
  destruct (Hgen ch) as [L1 R1]. destruct (Hgen 32) as [L2 R2].
  repeat split; assumption.
Qed.

Lemma make_string_filled_witness :
  exists s s0,
    make_string [int 3; VCharacter 0xE9] = Ok (VString s) /\
    string_length [VString s] = Ok (int 3) /\
    string_ref [VString s; int 2] = Ok (VCharacter (sanitize 0xE9)) /\
    make_string [int 3] = Ok (VString s0) /\
    string_length [VString s0] = Ok (int 3) /\
    string_ref [VString s0; int 2] = Ok (VCharacter 32).
Proof. apply (make_string_filled 3 0xE9 2). lia. Defined.

(** [string-ref] checks the index against the number of characters, not
    of bytes, so it never indexes out of range: an index from 0 below
    the number of runes yields that rune, a scalar value, and every
    other second argument the error [invalid index]. *)
Theorem string_ref_bounds :
  forall (s : string) (a1 : Value),
    match Int64 a1 with
    | Some k =>
        if (0 <=? k) && (k <? Z.of_nat (length (runes_of s))) then
          exists ch,
            runes_of s !! Z.to_nat k = Some ch /\
            valid_rune ch = true /\
            string_ref [VString s; a1] = Ok (VCharacter ch)
        else string_ref [VString s; a1] = Err (InvalidIndex a1)
    | None => string_ref [VString s; a1] = Err (InvalidIndex a1)
    end.
Proof.
  intros s a1. unfold string_ref. simpl.
  destruct (Int64 a1) as [k|]; [|reflexivity].
  destruct (Z.leb_spec 0 k); destruct (Z.ltb_spec k (Z.of_nat (length (runes_of s))));
    destruct (Z.ltb_spec k 0); destruct (Z.geb_spec k (Z.of_nat (length (runes_of s))));
    simpl; try lia; try reflexivity.
  destruct (lookup_lt_is_Some_2 (runes_of s) (Z.to_nat k) ltac:(lia))
    as [ch Hch].
  exists ch. rewrite Hch. split; [reflexivity|]. split; [|reflexivity].
  pose proof (runes_of_valid s) as Hv.
  rewrite Forall_lookup in Hv. exact (Hv _ _ Hch).
Qed.

(** A value that is no string. *)
Definition not_string (v : Value) : bool :=
  match v with
  | VString _ => false
  | _ => true
  end.

Lemma string_append_loop_strings l : forall acc,
  string_append_loop acc (map VString l)
  = Ok (VString (fold_left String.append l acc)).
Proof.
  induction l as [|x l IH]; intros acc; simpl; [reflexivity|]. apply IH.
Qed.

Lemma string_append_loop_stops l a rest : forall acc,
  not_string a = true ->
  string_append_loop acc (map VString l ++ a :: rest)
  = Err (InvalidStringArg a).
Proof.
  induction l as [|x l IH]; intros acc Ha; simpl.
  - destruct a; try reflexivity; discriminate.
  - apply IH. exact Ha.
Qed.

Lemma bytes_of_fold_left l : forall acc,
  bytes_of (fold_left String.append l acc)
  = bytes_of acc ++ concat (map bytes_of l).
Proof.
  induction l as [|x l IH]; intros acc; simpl.
  - symmetry. apply app_nil_r.
  - rewrite IH, bytes_of_append, <- app_assoc. reflexivity.
Qed.

Lemma runes_concat_encoded (l : list (list Z)) :
  runes (concat (map (fun rs => concat (map encoderune rs)) l))
  = concat (map (map sanitize) l).
Proof.
  induction l as [|rs l IH]; simpl; [reflexivity|].
  rewrite runes_encoded, IH. reflexivity.
Qed.

(** [string-append] joins the bytes of its arguments in order and stops
    at the first argument that is no string with the error
    [invalid string]; the characters of the result are the characters
    of the arguments in order when each argument is the conversion of a
    sequence of runes. *)
Theorem string_append_concatenates :
  forall l : list string,
    (exists s,
        string_append (map VString l) = Ok (VString s) /\
        bytes_of s = concat (map bytes_of l)) /\
    (forall a rest,
        not_string a = true ->
        string_append (map VString l ++ a :: rest)
        = Err (InvalidStringArg a)) /\
    (forall ls : list (list Z),
        exists s,
          string_append (map (fun rs => VString (string_of_runes rs)) ls)
          = Ok (VString s) /\
          runes_of s = concat (map (map sanitize) ls) /\
          runes_of s
          = concat (map (fun rs => runes_of (string_of_runes rs)) ls)).
Proof.
  intros l. split; [|split].
  - exists (fold_left String.append l EmptyString). split.
    + apply string_append_loop_strings.
    + rewrite bytes_of_fold_left. reflexivity.
  - intros a rest Ha. apply string_append_loop_stops. exact Ha.
  - intros ls.
    exists (fold_left String.append (map string_of_runes ls) EmptyString).
    assert (E : runes_of (fold_left String.append (map string_of_runes ls)
                                    EmptyString)
                = concat (map (map sanitize) ls)).
    { unfold runes_of. rewrite bytes_of_fold_left. simpl.
      rewrite map_map.
      rewrite (map_ext (fun rs => bytes_of (string_of_runes rs))
                       (fun rs => concat (map encoderune rs)))
        by apply bytes_of_string_of_runes.
      apply runes_concat_encoded. }
    split; [|split].
    + unfold string_append. rewrite <- (map_map string_of_runes VString).
      apply string_append_loop_strings.
    + exact E.
    + rewrite E. f_equal. apply map_ext. intros rs. symmetry.
      apply runes_of_string_of_runes.
Qed.

Lemma string_loop_chars chs :
  string_loop (map VCharacter chs) = Ok (map (fun ch => ch mod 256) chs).
Proof.
  induction chs as [|ch chs IH]; simpl; [reflexivity|].
  rewrite IH. reflexivity.
Qed.

Lemma runes_ascii l :
  Forall (fun ch => 0 <= ch < 128) l -> runes l = l.
Proof.
  induction 1 as [|b l Hb _ IH]; [reflexivity|].
  cbn [runes]. cbv zeta.
  destruct (Z.ltb_spec b 0x80); [|lia]. rewrite IH. reflexivity.
Qed.

Lemma runes_high_byte b : 128 <= b -> runes [b] = [runeError].
Proof.
  intros Hb. cbn [runes]. cbv zeta.
  destruct (Z.ltb_spec b 0x80); [lia|].
  repeat match goal with
         | |- context [if ?c then _ else _] => destruct c
         end; reflexivity.
Qed.

(** The builtin [string] keeps one byte of every character, its value
    modulo 256: the characters below 128 read back as themselves, and a
    single character whose low byte is 128 or more makes a string that
    reads back as U+FFFD. *)
Theorem string_keeps_low_bytes :
  forall chs : list Z,
    (exists s,
        string_of_chars (map VCharacter chs) = Ok (VString s) /\
        bytes_of s = map (fun ch => ch mod 256) chs /\
        string_length [VString s]
        = Ok (int (Z.of_nat (length (runes_of s)))) /\
        (Forall (fun ch => 0 <= ch < 128) chs -> runes_of s = chs)) /\
    (forall ch,
        128 <= ch mod 256 ->
        exists s,
          string_of_chars [VCharacter ch] = Ok (VString s) /\
          runes_of s = [runeError]).
Proof.
  assert (Hbytes : forall l,
             bytes_of (string_of_bytes (map (fun ch => ch mod 256) l))
             = map (fun ch => ch mod 256) l).
  { intros l. apply bytes_of_string_of_bytes. apply Forall_forall.
    intros b Hin. apply list_elem_of_In, in_map_iff in Hin as (c & <- & _).
    apply Z.mod_pos_bound. lia. }
  intros chs. split.
  - exists (string_of_bytes (map (fun ch => ch mod 256) chs)).
    split; [|split; [|split]].
    + unfold string_of_chars. rewrite string_loop_chars. reflexivity.
    + apply Hbytes.
    + reflexivity.
    + intros Hascii. unfold runes_of. rewrite Hbytes.
      assert (E : map (fun ch => ch mod 256) chs = chs).
      { induction Hascii as [|c l Hc _ IH]; simpl; [reflexivity|].
        rewrite IH, Z.mod_small by lia. reflexivity. }
      rewrite E. apply runes_ascii. exact Hascii.
  - intros ch Hch. exists (string_of_bytes [ch mod 256]). split.
    + reflexivity.
    + unfold runes_of.
      change [ch mod 256] with (map (fun ch => ch mod 256) [ch]).
      rewrite Hbytes. apply runes_high_byte. exact Hch.
Qed.

Lemma string_compare_refl s : String.compare s s = Datatypes.Eq.
Proof.
  pose proof (String.compare_antisym s s) as H.
  destruct (String.compare s s); [reflexivity|discriminate|discriminate].
Qed.

(** The comparisons of two strings: [string=?] is the equality [Equal]
    of the values and holds exactly for the same string, exactly one of
    [string=?], [string<?] and [string>?] holds, and [string>?] is
    [string<?] with the arguments exchanged. *)
Theorem string_comparisons :
  forall a b : string,
  exists e l g : bool,
    string_eq [VString a; VString b] = Ok (VBoolean e) /\
    string_lt [VString a; VString b] = Ok (VBoolean l) /\
    string_gt [VString a; VString b] = Ok (VBoolean g) /\
    e = Equal a (VString b) /\
    (e = true <-> a = b) /\
    (if e then (l || g) = false else xorb l g = true) /\
    string_gt [VString b; VString a] = Ok (VBoolean l) /\
    string_lt [VString b; VString a] = Ok (VBoolean g).
Proof.
  intros a b.
  unfold string_eq, string_lt, string_gt, string_compare, Equal. simpl.
  rewrite (String.compare_antisym a b).
  pose proof (String.compare_eq_iff b a) as Heq.
  pose proof (String.eqb_eq a b) as Heqb.
  destruct (String.compare b a) eqn:E; simpl.
  - assert (b = a) as -> by (apply Heq; reflexivity).
    rewrite String.eqb_refl.
    exists true, false, false. repeat split; reflexivity.
  - assert (Hne : a <> b).
    { intros ->. rewrite string_compare_refl in E. discriminate. }
    destruct (String.eqb a b) eqn:Eb; [exfalso; apply Hne, Heqb; reflexivity|].
    exists false, false, true.
    repeat split; try reflexivity; try discriminate.
    intros Hab. contradiction.
  - assert (Hne : a <> b).
    { intros ->. rewrite string_compare_refl in E. discriminate. }
    destruct (String.eqb a b) eqn:Eb; [exfalso; apply Hne, Heqb; reflexivity|].
    exists false, true, false.
    repeat split; try reflexivity; try discriminate.
    intros Hab. contradiction.
Qed.

(** Reading the escapes of [StringToScheme] back, for the proof that
    the literal determines the characters. *)
Definition unescape_char (x : Z) : Z :=
  if x =? 97 then 7 else if x =? 102 then 12 else if x =? 110 then 10
  else if x =? 114 then 13 else if x =? 116 then 9 else if x =? 118 then 11
  else if x =? 98 then 8 else if x =? 48 then 0 else x.

Fixpoint unescape (l : list Z) : list Z :=
  match l with
  | [] => []
  | r :: t =>
      if r =? 92 then
        match t with
        | [] => [r]
        | x :: t' => unescape_char x :: unescape t'
        end
      else r :: unescape t
  end.

Lemma unescape_escape_rune r rest :
  unescape (escape_rune r ++ rest) = r :: unescape rest.
Proof.
  unfold escape_rune.
  destruct (Z.eqb_spec r 92) as [->|H92]; [reflexivity|].
  destruct (Z.eqb_spec r 34) as [->|H34]; [reflexivity|].
  destruct (Z.eqb_spec r 124) as [->|H124]; [reflexivity|].
  destruct (Z.eqb_spec r 40) as [->|H40]; [reflexivity|].
  destruct (Z.eqb_spec r 7) as [->|H7]; [reflexivity|].
  destruct (Z.eqb_spec r 12) as [->|H12]; [reflexivity|].
  destruct (Z.eqb_spec r 10) as [->|H10]; [reflexivity|].
  destruct (Z.eqb_spec r 13) as [->|H13]; [reflexivity|].
  destruct (Z.eqb_spec r 9) as [->|H9]; [reflexivity|].
  destruct (Z.eqb_spec r 11) as [->|H11]; [reflexivity|].
  destruct (Z.eqb_spec r 8) as [->|H8]; [reflexivity|].
  destruct (Z.eqb_spec r 0) as [->|H0]; [reflexivity|].
  cbn [orb app unescape].
  destruct (Z.eqb_spec r 92); [contradiction|reflexivity].
Qed.

Lemma unescape_escape rs : unescape (flat_map escape_rune rs) = rs.
Proof.
  induction rs as [|r rs IH]; simpl; [reflexivity|].
  rewrite unescape_escape_rune, IH. reflexivity.
Qed.

Lemma escape_rune_valid r :
  valid_rune r = true -> Forall (fun x => valid_rune x = true) (escape_rune r).
Proof.
  intros Hr. unfold escape_rune.
  repeat match goal with
         | |- context [if ?c then _ else _] => destruct c
         end;
    repeat constructor; exact Hr.
Qed.

Lemma escaped_valid rs :
  Forall (fun x => valid_rune x = true) rs ->
  Forall (fun x => valid_rune x = true) (flat_map escape_rune rs).
Proof.
  induction 1 as [|r rs Hr _ IH]; simpl; [constructor|].
  apply Forall_app_2; [apply escape_rune_valid; exact Hr|exact IH].
Qed.

Lemma runes_of_StringToScheme s :
  runes_of (StringToScheme s)
  = [34] ++ flat_map escape_rune (runes_of s) ++ [34].
Proof.
  unfold StringToScheme. rewrite runes_of_string_of_runes.
  apply map_sanitize_valid.
  apply Forall_app_2; [repeat constructor|].
  apply Forall_app_2; [|repeat constructor].
  apply escaped_valid, runes_of_valid.
Qed.

(** The literal [StringToScheme] writes determines the characters of
    the string: it is a double quote, the escaped characters and a
    double quote, and two strings have the same literal exactly when
    they have the same runes. *)
Theorem StringToScheme_unambiguous :
  forall s1 s2 : string,
    runes_of (StringToScheme s1)
    = [34] ++ flat_map escape_rune (runes_of s1) ++ [34] /\
    (StringToScheme s1 = StringToScheme s2 <-> runes_of s1 = runes_of s2).
Proof.
  intros s1 s2. split; [apply runes_of_StringToScheme|]. split.
  - intros E.
    assert (E' : runes_of (StringToScheme s1) = runes_of (StringToScheme s2))
      by (rewrite E; reflexivity).
    rewrite !runes_of_StringToScheme in E'.
    apply app_inv_head, app_inv_tail in E'.
    rewrite <- (unescape_escape (runes_of s1)), E'.
    apply unescape_escape.
  - intros E. unfold StringToScheme. rewrite E. reflexivity.
Qed.

Lemma runes_length_fuel n :
  forall l, (length l <= n)%nat -> (length (runes l) <= length l)%nat.
Proof.
  induction n as [|n IH]; intros l Hlen.
  - destruct l; [simpl; lia|simpl in Hlen; lia].
  - destruct l as [|b0 t0]; [simpl; lia|].
    simpl in Hlen.
    assert (Hbad : (length (runeError :: runes t0) <= length (b0 :: t0))%nat).
    { simpl. specialize (IH t0 ltac:(lia)). lia. }
    cbn [runes]. cbv zeta.
    destruct (b0 <? 0x80); [exact Hbad|].
    destruct ((0xC0 <=? b0) && (b0 <? 0xE0)).
    { destruct t0 as [|b1 t1]; [exact Hbad|]. simpl in Hlen.
      match goal with
      | |- context [if ?c then _ else _] => destruct c
      end; [|exact Hbad].
      simpl. specialize (IH t1 ltac:(lia)). lia. }
    destruct ((0xE0 <=? b0) && (b0 <? 0xF0)).
    { destruct t0 as [|b1 [|b2 t2]]; try exact Hbad. simpl in Hlen.
      match goal with
      | |- context [if ?c then _ else _] => destruct c
      end; [|exact Hbad].
      simpl. specialize (IH t2 ltac:(lia)). lia. }
    destruct ((0xF0 <=? b0) && (b0 <? 0xF8)); [|exact Hbad].
    destruct t0 as [|b1 [|b2 [|b3 t3]]]; try exact Hbad. simpl in Hlen.
    match goal with
    | |- context [if ?c then _ else _] => destruct c
    end; [|exact Hbad].
    simpl. specialize (IH t3 ltac:(lia)). lia.
Qed.

Lemma length_bytes_of s : length (bytes_of s) = String.length s.
Proof.
  unfold bytes_of. rewrite length_map.
  induction s as [|c s IH]; simpl; [reflexivity|]. rewrite IH. reflexivity.
Qed.

Lemma runes_of_length s : (length (runes_of s) <= String.length s)%nat.
Proof.
  unfold runes_of. rewrite <- length_bytes_of.
  apply (runes_length_fuel (length (bytes_of s))). lia.
Qed.

(** Inside the characters of the string [substring] is safe: for
    [0 <= start <= end] with [end] at most the number of runes it
    returns the string of the characters from [start] up to [end],
    whose [string-length] is [end - start]. *)
Theorem substring_characters :
  forall (s : string) (start end_ : Z),
    0 <= start <= end_ ->
    end_ <= Z.of_nat (length (runes_of s)) ->
    exists s',
      substring [VString s; int start; int end_] = Ok (VString s') /\
      runes_of s'
      = take (Z.to_nat (end_ - start)) (drop (Z.to_nat start) (runes_of s)) /\
      string_length [VString s'] = Ok (int (end_ - start)).
Proof.
  intros s start end_ H1 H2.
  pose proof (runes_of_length s) as Hlen.
  set (rs := take (Z.to_nat (end_ - start))
                  (drop (Z.to_nat start) (runes_of s))).
  assert (Hrs : runes_of (string_of_runes rs) = rs).
  { rewrite runes_of_string_of_runes. apply map_sanitize_valid.
    unfold rs. apply Forall_take, Forall_drop, runes_of_valid. }
  exists (string_of_runes rs). split; [|split].
  - unfold substring. simpl.
    destruct (Z.ltb_spec start 0); [lia|].
    destruct (Z.ltb_spec end_ start); [lia|].
    destruct (Z.gtb_spec end_ (Z.of_nat (String.length s))); [lia|].
    simpl. fold (runes_of s).
    rewrite StringsFacts.slice_in_range by lia. reflexivity.
  - exact Hrs.
  - unfold string_length. simpl. rewrite Hrs. unfold rs.
    assert (E : Z.of_nat (length (take (Z.to_nat (end_ - start))
                                       (drop (Z.to_nat start) (runes_of s))))
                = end_ - start)
      by (rewrite length_take, length_drop; lia).
    rewrite E. reflexivity.
Qed.

Lemma substring_characters_witness :
  exists s',
    substring [VString "hello"; int 1; int 4] = Ok (VString s') /\
    runes_of s'
    = take (Z.to_nat (4 - 1)) (drop (Z.to_nat 1) (runes_of "hello")) /\
    string_length [VString s'] = Ok (int (4 - 1)).
Proof.
  apply (substring_characters "hello" 1 4); [lia|].
  vm_compute. discriminate.
Defined.

End StringOpsFacts.

(** ** The builtin [*] *)

Module NumberOpsFacts.
Import Values Numbers NumberOps.

Lemma wrap64_mul_l a b : wrap64 (wrap64 a * b) = wrap64 (a * b).
Proof.
  unfold wrap64. f_equal.
  rewrite (Z.mod_eq (a + 2 ^ 63) (2 ^ 64)) by lia.
  set (q := (a + 2 ^ 63) / 2 ^ 64).
  replace ((a + 2 ^ 63 - 2 ^ 64 * q - 2 ^ 63) * b + 2 ^ 63)
    with (a * b + 2 ^ 63 + (- q * b) * 2 ^ 64) by ring.
  apply Z_mod_plus_full.
Qed.

Lemma times_loop_int64s product l :
  in_int64 product ->
  times_loop product (map int_in_base l)
  = Ok (VNumber (mkNumber 0 (NInt64 (wrap64 (product * prodZ (map snd l)))))).
Proof.
  revert product. induction l as [|[b z] l IH]; intros product Hp; simpl.
  - unfold prodZ; simpl. rewrite Z.mul_1_r, wrap64_id by exact Hp.
    reflexivity.
  - rewrite IH by apply wrap64_range.
    rewrite wrap64_mul_l.
    replace (product * z * prodZ (map snd l))
      with (product * prodZ (z :: map snd l))
      by (unfold prodZ; simpl; ring).
    reflexivity.
Qed.

Lemma loops_fail_alike args :
  forall product sum e,
    times_loop product args = Err e <-> plus_loop sum args = Err e.
Proof.
  induction args as [|arg rest IH]; intros product sum e; simpl.
  - split; discriminate.
  - destruct arg as [| | |num| | |]; try tauto.
    destruct (NValue num); [apply IH|tauto].
Qed.

Lemma loops_never_panic args :
  forall product sum,
    times_loop product args <> Panic /\ plus_loop sum args <> Panic.
Proof.
  induction args as [|arg rest IH]; intros product sum; simpl.
  - split; discriminate.
  - destruct arg as [| | |num| | |]; try (split; discriminate).
    destruct (NValue num); [apply IH|split; discriminate].
Qed.

(** On exact integers held as [int64], whatever their bases, the
    builtin [*] returns the number of base 0 whose value is the product
    wrapped around to 64 bits, the exact product whenever that fits an
    [int64], and 1 for no arguments; it fails on exactly the argument
    lists on which [+] fails, with the same error, and neither of the
    two panics. *)
Theorem times_wraps_and_fails_as_plus :
  (forall l : list (Z * Z),
      exists r,
        times (map int_in_base l) = Ok (VNumber r) /\
        Base r = 0 /\
        num_val r = wrap64 (prodZ (map snd l)) /\
        (in_int64 (prodZ (map snd l)) -> num_val r = prodZ (map snd l))) /\
  times [] = Ok (int 1) /\
  (forall args e, times args = Err e <-> plus args = Err e) /\
  (forall args, times args <> Panic /\ plus args <> Panic).
Proof.
  split; [|split; [reflexivity|split]].
  - intros l. unfold times.
    rewrite times_loop_int64s by (unfold in_int64; lia).
    rewrite Z.mul_1_l.
    eexists; split; [reflexivity|]. unfold num_val; simpl.
    split; [reflexivity|].
    split; [reflexivity|]. intros Hfit. apply wrap64_id. exact Hfit.
  - intros args e. apply loops_fail_alike.
  - intros args. apply loops_never_panic.
Qed.

End NumberOpsFacts.

(** ** Running a call on the first virtual machine *)

Module VMRunFacts.
Import VM VMFacts.

(** The instructions that store the arguments [vs] in the argument
    scope from position [j] on: each value is loaded into the
    accumulator and written to the scope above the frame. *)
Fixpoint set_args (j : Z) (vs : list Value) : Code :=
  match vs with
  | [] => []
  | v :: rest =>
      mkInstr OpConst v 0 0 None :: instr_op OpLocalSet 0 j
        :: set_args (j + 1) rest
  end.

(** The call of the global [name] on the values [vs], and the end of
    the program: fetch the function, push its frame and the argument
    scope, store the arguments, call, halt. *)
Definition call_sequence (name : string) (vs : list Value) : Code :=
  [ instr_global name; instr_op OpPushF 0 0;
    instr_op OpPushS (Z.of_nat (length vs)) 0 ]
  ++ set_args 0 vs
  ++ [ instr_op OpCall 0 0; instr_op OpHalt 0 0 ].

Lemma length_set_args vs : forall j, length (set_args j vs) = (2 * length vs)%nat.
Proof.
  induction vs as [|v vs IH]; intros j; simpl; [reflexivity|].
  rewrite IH. lia.
Qed.

Lemma run_steps natives n code vm vm' :
  steps natives n code vm = Some vm' ->
  forall m, run natives (n + m) code vm = run natives m code vm'.
Proof.
  revert vm. induction n as [|n IH]; intros vm H m; simpl in *.
  - inversion H; reflexivity.
  - destruct (step natives code vm) as [vm1| | |]; try discriminate.
    apply IH. exact H.
Qed.

Lemma steps_app natives n m code vm vm1 vm2 :
  steps natives n code vm = Some vm1 ->
  steps natives m code vm1 = Some vm2 ->
  steps natives (n + m) code vm = Some vm2.
Proof.
  revert vm. induction n as [|n IH]; intros vm H1 H2; simpl in *.
  - inversion H1; subst. exact H2.
  - destruct (step natives code vm) as [vm'| | |]; try discriminate.
    eapply IH; eauto.
Qed.

(** The argument stores fill the scope above the frame in order. *)
Lemma set_args_steps natives (code : Code) vs :
  forall done pre post c a base f syms,
    code = pre ++ set_args (Z.of_nat (length done)) vs ++ post ->
    length base = S f ->
    steps natives (2 * length vs) code
          (mkVM c (length pre) f a
                (base ++ [done ++ replicate (length vs) Nil]) syms)
    = Some (mkVM c (length pre + 2 * length vs) f (default a (last vs))
                 (base ++ [done ++ vs]) syms).
Proof.
  induction vs as [|v vs IH]; intros done pre post c a base f syms Hcode Hf.
  - simpl. rewrite Nat.add_0_r. reflexivity.
  - simpl set_args in Hcode.
    replace (2 * length (v :: vs))%nat with (S (S (2 * length vs)))
      by (simpl; lia).
    cbn [steps].
    (* OpConst *)
    assert (H1 : code !! length pre = Some (mkInstr OpConst v 0 0 None)).
    { rewrite Hcode. apply list_lookup_middle. reflexivity. }
    unfold step at 1. cbn [pc]. rewrite H1.
    unfold set_accu, set_pc. cbn [Op V compiled pc fp accu stack symbols].
    (* OpLocalSet *)
    assert (H2 : code !! S (length pre)
                 = Some (instr_op OpLocalSet 0 (Z.of_nat (length done)))).
    { rewrite Hcode. cbn [app].
      rewrite (cons_middle (mkInstr OpConst v 0 0 None) pre), app_assoc.
      apply list_lookup_middle. rewrite length_app. simpl. lia. }
    cbn [steps]. unfold step at 1. cbn [pc]. rewrite H2.
    unfold set_stack, set_pc, instr_op.
    cbn [Op I J compiled pc fp accu stack symbols].
    assert (Hset : stack_set (base ++ [done ++ replicate (length (v :: vs)) Nil])
                             (Z.of_nat f + 1 + 0) (Z.of_nat (length done)) v
                   = Some (base ++ [(done ++ [v]) ++ replicate (length vs) Nil])).
    { unfold stack_set.
      destruct (Z.ltb_spec (Z.of_nat f + 1 + 0) 0); [lia|].
      destruct (Z.ltb_spec (Z.of_nat (length done)) 0); [lia|]. simpl orb.
      replace (Z.to_nat (Z.of_nat f + 1 + 0)) with (length base) by lia.
      rewrite list_lookup_middle by reflexivity.
      rewrite Nat2Z.id.
      destruct (Nat.ltb_spec (length done)
                  (length (done ++ replicate (length (v :: vs)) Nil)))
        as [_|Hge]; [|rewrite length_app, length_replicate in Hge; simpl in Hge; lia].
      f_equal.
      rewrite insert_app_r_alt by lia.
      rewrite Nat.sub_diag. simpl. f_equal. f_equal.
      rewrite insert_app_r_alt by lia.
      rewrite Nat.sub_diag. simpl. rewrite <- app_assoc. reflexivity. }
    rewrite Hset.
    assert (Hcode' : code
                     = (pre ++ [mkInstr OpConst v 0 0 None;
                                instr_op OpLocalSet 0 (Z.of_nat (length done))])
                       ++ set_args (Z.of_nat (length (done ++ [v]))) vs
                       ++ post).
    { rewrite Hcode, <- app_assoc. simpl.
      rewrite length_app. simpl.
      replace (Z.of_nat (length done + 1)) with (Z.of_nat (length done) + 1)
        by lia.
      reflexivity. }
    pose proof (IH (done ++ [v]) _ post c v base f syms Hcode' Hf) as IH'.
    rewrite length_app in IH'. simpl length in IH'.
    replace (length pre + 2)%nat with (S (S (length pre))) in IH' by lia.
    unfold instr_op in IH'. rewrite IH'.
    f_equal. f_equal.
    + simpl. lia.
    + destruct vs as [|w ws]; [reflexivity|].
      change (last (v :: w :: ws)) with (last (w :: ws)).
      destruct (last (w :: ws)) eqn:E; [reflexivity|].
      apply last_None in E. discriminate.
    + rewrite <- app_assoc. reflexivity.
Qed.

Lemma DefineBuiltin_symbol vm name minArgs maxArgs native :
  exists id,
    symbols (DefineBuiltin vm name minArgs maxArgs native) !! name = Some id /\
    Global id = VLambda (mkLambda minArgs maxArgs (Some native) None).
Proof.
  unfold DefineBuiltin, Intern.
  destruct (symbols vm !! name) as [id|]; simpl;
    eexists; (split; [apply lookup_insert_eq|reflexivity]).
Qed.

Lemma DefineBuiltin_registers vm name minArgs maxArgs native :
  stack (DefineBuiltin vm name minArgs maxArgs native) = stack vm /\
  fp (DefineBuiltin vm name minArgs maxArgs native) = fp vm /\
  pc (DefineBuiltin vm name minArgs maxArgs native) = pc vm.
Proof.
  unfold DefineBuiltin, Intern.
  destruct (symbols vm !! name); simpl; auto.
Qed.

(** [pushFrame] and [popFrame] are inverse to each other, and so are
    [pushScope] and [popScope]: when [pushFrame] does not panic the
    frame it pushed is the one at [fp] and [popFrame] gives the machine
    back as it was; it panics only when [fp] is inside the stack and
    the scope there is no frame; a scope that was pushed, of a size
    from 0 up to what [maxAlloc] holds, is popped to the machine as it
    was, and [pushScope] panics on every other size: a negative one and
    one past the allocation limit. *)
Theorem push_pop_round_trip :
  forall (vm : VM) (lambda : option Lambda) (toplevel : bool) (size : Z),
    match pushFrame vm lambda toplevel with
    | Some vm1 =>
        frame_at vm1 = Some (mkFrame (fp vm) lambda toplevel) /\
        popFrame vm1 = Some vm
    | None => (fp vm < length (stack vm))%nat /\ frame_at vm = None
    end /\
    match pushScope vm size with
    | Some vm1 =>
        0 <= size /\ 16 * size <= maxAlloc /\
        last (stack vm1) = Some (replicate (Z.to_nat size) Nil) /\
        popScope vm1 = Some vm
    | None => size < 0 \/ maxAlloc < 16 * size
    end.
Proof.
  intros vm lambda toplevel size. split.
  - unfold pushFrame.
    destruct (Nat.ltb_spec (fp vm) (length (stack vm))) as [Hlt|Hge].
    + destruct (frame_at vm) as [f|] eqn:Hf; [|split; [exact Hlt|reflexivity]].
      destruct vm as [c p f0 a s m]. simpl in *.
      unfold frame_at, popFrame, frame_at. simpl.
      rewrite list_lookup_middle by reflexivity. split; [reflexivity|].
      unfold set_fp, set_stack. simpl.
      rewrite take_app_length. reflexivity.
    + destruct vm as [c p f0 a s m]. simpl in *.
      unfold frame_at, popFrame, frame_at. simpl.
      rewrite list_lookup_middle by reflexivity. split; [reflexivity|].
      unfold set_fp, set_stack. simpl.
      rewrite take_app_length. reflexivity.
  - unfold pushScope.
    destruct (Z.ltb_spec size 0) as [Hneg|Hpos]; [left; exact Hneg|].
    destruct (Z.ltb_spec maxAlloc (16 * size)) as [Hbig|Hfit];
      [right; exact Hbig|].
    cbn [orb].
    split; [exact Hpos|]. split; [exact Hfit|].
    destruct vm as [c p f0 a s m]. simpl.
    split; [apply last_snoc|].
    unfold popScope. simpl.
    destruct (s ++ [replicate (Z.to_nat size) Nil]) eqn:E.
    + apply app_eq_nil in E as [_ E]. discriminate.
    + rewrite <- E. unfold set_stack. simpl.
      rewrite length_app. simpl.
      replace (length s + 1 - 1)%nat with (length s) by lia.
      rewrite take_app_length. reflexivity.
Qed.

(** A call of a builtin runs from start to end.  On a machine as [NewVM]
    leaves it, with the builtin [name] defined, the call sequence for
    the arguments [vs] returns what the native returns on exactly [vs]
    when their number is inside the bounds of the builtin, whatever the
    fuel beyond the [2 * length vs + 5] turns it takes; the stack is
    empty again and [fp] is 0, and [pc] stays past the end of the code:
    [Execute] does not reset it, so running the machine once more
    panics on the fetch of the instruction.  This for a number of
    arguments within the allocation limit of a scope; for more of them
    the run panics at [PushS]. *)
Theorem builtin_call_returns :
  forall (natives : NativeId -> list Value -> Value + string)
         (vm0 : VM) (name : string) (minArgs maxArgs : Z)
         (native : NativeId) (vs : list Value) (r : Value) (k : nat),
    fresh vm0 -> pc vm0 = 0%nat ->
    minArgs <= Z.of_nat (length vs) <= maxArgs ->
    natives native vs = inl r ->
    let vm := DefineBuiltin vm0 name minArgs maxArgs native in
    let code := call_sequence name vs in
    if 16 * Z.of_nat (length vs) <=? maxAlloc then
      exists vm',
        Execute natives (2 * length vs + 5 + k) code vm
        = Some (Return vm' r) /\
        fresh vm' /\
        symbols vm' = symbols vm /\
        pc vm' = length code /\
        Execute natives (S k) code vm' = Some Panic
    else
      Execute natives (2 * length vs + 5 + k) code vm = Some Panic.
Proof.
  intros natives vm0 name minArgs maxArgs native vs r k [Hs Hfp] Hpc
         Hargs Hnat vm code.
  destruct (DefineBuiltin_symbol vm0 name minArgs maxArgs native)
    as (id & Hid & Hglobal).
  destruct (DefineBuiltin_registers vm0 name minArgs maxArgs native)
    as (Hs' & Hfp' & Hpc').
  fold vm in Hid, Hs', Hfp', Hpc'.
  rewrite Hs in Hs'. rewrite Hfp in Hfp'. rewrite Hpc in Hpc'.
  destruct vm as [c p f a s m]. simpl in Hid, Hs', Hfp', Hpc'. subst p f s.
  set (lam := mkLambda minArgs maxArgs (Some native) None) in *.
  set (F0 := VFrame (mkFrame 0 None true)).
  set (F1 := VFrame (mkFrame 0 (Some lam) false)).
  destruct (Z.leb_spec (16 * Z.of_nat (length vs)) maxAlloc) as [Hfit|Hbig];
    cycle 1.
  { (* the scope is past the allocation limit *)
    replace (2 * length vs + 5 + k)%nat
      with (S (S (S (2 * length vs + 2 + k)))) by lia.
    generalize (2 * length vs + 2 + k)%nat. intros fuel.
    unfold Execute, pushFrame, set_fp, set_stack.
    cbn [symbols compiled pc fp accu stack length Nat.ltb Nat.leb app].
    fold F0.
    unfold code, call_sequence. cbn [run].
    unfold step at 1. cbn [pc app lookup list_lookup].
    unfold instr_global. cbn [Op Sym].
    unfold set_pc at 1. cbn [symbols compiled pc fp accu stack].
    unfold set_pc. cbn [symbols compiled pc fp accu stack]. rewrite Hid.
    unfold set_accu. cbn [symbols compiled pc fp accu stack].
    rewrite Hglobal.
    unfold step at 1. cbn [pc app lookup list_lookup].
    unfold instr_op. cbn [Op I].
    unfold set_pc. cbn [symbols compiled pc fp accu stack].
    unfold pushFrame, frame_at. cbn.
    unfold pushScope.
    destruct (Z.ltb_spec maxAlloc (16 * Z.of_nat (length vs))); [|lia].
    rewrite orb_true_r. reflexivity. }
  (* the three instructions before the arguments *)
  assert (H3 : steps natives 3 code (mkVM c 0 0 a [[F0]] m)
               = Some (mkVM c 3 1 (VLambda lam)
                            ([[F0]; [F1]] ++ [[] ++ replicate (length vs) Nil])
                            m)).
  { unfold code, call_sequence. cbn [steps].
    unfold step at 1. cbn [pc app lookup list_lookup].
    unfold instr_global. cbn [Op Sym].
    unfold set_pc at 1. cbn [symbols compiled pc fp accu stack].
    unfold set_pc. cbn [symbols compiled pc fp accu stack]. rewrite Hid.
    unfold set_accu. cbn [symbols compiled pc fp accu stack].
    rewrite Hglobal.
    unfold step at 1. cbn [pc app lookup list_lookup].
    unfold instr_op. cbn [Op I].
    unfold set_pc. cbn [symbols compiled pc fp accu stack].
    unfold pushFrame, frame_at. cbn.
    unfold pushScope.
    destruct (Z.ltb_spec (Z.of_nat (length vs)) 0); [lia|].
    destruct (Z.ltb_spec maxAlloc (16 * Z.of_nat (length vs))); [lia|].
    cbn [orb]. rewrite Nat2Z.id. reflexivity. }
  (* the arguments *)
  assert (Hargs_run :
            steps natives (2 * length vs) code
                  (mkVM c 3 1 (VLambda lam)
                        ([[F0]; [F1]] ++ [[] ++ replicate (length vs) Nil]) m)
            = Some (mkVM c (3 + 2 * length vs) 1
                         (default (VLambda lam) (last vs))
                         ([[F0]; [F1]] ++ [[] ++ vs]) m)).
  { apply (set_args_steps natives code vs []
             [ instr_global name; instr_op OpPushF 0 0;
               instr_op OpPushS (Z.of_nat (length vs)) 0 ]
             [ instr_op OpCall 0 0; instr_op OpHalt 0 0 ]
             c (VLambda lam) [[F0]; [F1]] 1%nat m); reflexivity. }
  cbn [app] in H3, Hargs_run.
  set (a' := default (VLambda lam) (last vs)) in *.
  assert (Hcall_at : code !! (3 + 2 * length vs)%nat
                     = Some (instr_op OpCall 0 0)).
  { unfold code, call_sequence, Code.
    rewrite lookup_app_r by (simpl; lia). simpl length.
    replace (3 + 2 * length vs - 3)%nat with (length (set_args 0 vs))
      by (rewrite length_set_args; lia).
    apply list_lookup_middle. reflexivity. }
  assert (Hhalt_at : code !! S (3 + 2 * length vs)%nat
                     = Some (instr_op OpHalt 0 0)).
  { unfold code, call_sequence, Code.
    rewrite lookup_app_r by (simpl; lia). simpl length.
    rewrite (cons_middle (instr_op OpCall 0 0)), app_assoc.
    apply list_lookup_middle.
    rewrite length_app, length_set_args. simpl. lia. }
  assert (Hlen : length code = S (S (3 + 2 * length vs))).
  { unfold code, call_sequence.
    rewrite !length_app, length_set_args. simpl. lia. }
  (* call and halt *)
  assert (H2 : run natives (S (S k)) code
                   (mkVM c (3 + 2 * length vs) 1 a' [[F0]; [F1]; vs] m)
               = Some (Return (mkVM c (S (S (3 + 2 * length vs))) 0 r [] m) r)).
  { cbn [run].
    unfold step at 1. cbn [pc]. rewrite Hcall_at.
    unfold instr_op at 1. cbn [Op].
    unfold call_dispatch, set_pc. cbn [symbols compiled pc fp accu stack].
    cbn [lookup list_lookup F1 last].
    change (last [[F0]; [VFrame (mkFrame 0 (Some lam) false)]; vs])
      with (Some vs).
    cbn [MinArgs MaxArgs Native lam].
    destruct (Z.ltb_spec (Z.of_nat (length vs)) minArgs); [lia|].
    destruct (Z.gtb_spec (Z.of_nat (length vs)) maxArgs); [lia|].
    rewrite Hnat.
    unfold popFrame, frame_at, set_accu, set_stack, set_fp.
    cbn [symbols compiled pc fp accu stack lookup list_lookup take Next].
    unfold F1 at 1. cbn [Next].
    unfold step at 1. cbn [pc]. rewrite Hhalt_at.
    unfold instr_op at 1. cbn [Op].
    unfold popFrame, frame_at, set_pc, set_stack, set_fp.
    cbn [symbols compiled pc fp accu stack lookup list_lookup take Next].
    unfold F0. cbn [Next take]. reflexivity. }
  exists (mkVM c (S (S (3 + 2 * length vs))) 0 r [] m).
  split; [|split; [split; reflexivity|split; [reflexivity|split]]].
  - replace (2 * length vs + 5 + k)%nat with (3 + (2 * length vs + S (S k)))%nat
      by lia.
    unfold Execute, pushFrame, set_fp, set_stack.
    cbn [symbols compiled pc fp accu stack length Nat.ltb Nat.leb app].
    fold F0.
    rewrite (run_steps natives 3 code _ _ H3).
    rewrite (run_steps natives (2 * length vs) code _ _ Hargs_run).
    exact H2.
  - cbn [pc]. symmetry. exact Hlen.
  - unfold Execute, pushFrame, set_fp, set_stack.
    cbn [symbols compiled pc fp accu stack length Nat.ltb Nat.leb app run].
    assert (Hnone : code !! S (S (3 + 2 * length vs)) = None).
    { apply lookup_ge_None_2. rewrite Hlen. lia. }
    unfold step. cbn [pc]. rewrite Hnone. reflexivity.
Qed.

(** The builtin ["f"] of the witness: native 7, one or two arguments. *)
Lemma builtin_call_returns_witness :
  let vm := DefineBuiltin new_vm "f" 1 2 7%nat in
  let code := call_sequence "f" [VNumber 5] in
  exists vm',
    Execute natives_nil (2 * length [VNumber 5] + 5 + 0) code vm
    = Some (Return vm' Nil) /\
    fresh vm' /\
    symbols vm' = symbols vm /\
    pc vm' = length code /\
    Execute natives_nil 1 code vm' = Some Panic.
Proof.
  apply (builtin_call_returns natives_nil new_vm "f" 1 2 7%nat
           [VNumber 5] Nil 0%nat).
  - split; reflexivity.
  - reflexivity.
  - simpl. lia.
  - reflexivity.
Defined.

End VMRunFacts.

(** ** The type descriptors *)

Module TypeOpsFacts.
Import Types TypeOps.

(** A property of an optional component. *)
Definition OptT (P : Ty -> Prop) (o : option Ty) : Prop :=
  match o with
  | Some t => P t
  | None => True
  end.

Section Ty_induction.

Variable P : Ty -> Prop.

Hypothesis HmkType : forall e args rest ret car cdr el,
    Forall (OptT P) args -> OptT P rest -> OptT P ret ->
    OptT P car -> OptT P cdr -> OptT P el ->
    P (mkType e args rest ret car cdr el).

Fixpoint Ty_nested_ind (t : Ty) : P t :=
  let opt (o : option Ty) : OptT P o :=
    match o return OptT P o with
    | Some x => Ty_nested_ind x
    | None => Logic.I
    end in
  match t with
  | mkType e args rest ret car cdr el =>
      HmkType e args rest ret car cdr el
        ((fix all (l : list (option Ty)) : Forall (OptT P) l :=
            match l with
            | [] => @List.Forall_nil _ _
            | o :: r =>
                @List.Forall_cons _ _ o r
                  (match o return OptT P o with
                   | Some x => Ty_nested_ind x
                   | None => Logic.I
                   end) (all r)
            end) args)
        (opt rest) (opt ret) (opt car) (opt cdr) (opt el)
  end.

End Ty_induction.

(** *** One method against another, component by component *)

Section Components.

Variables M1 M2 : Ty -> Ty -> Answer.

(** [M2] holds wherever [M1] does, on the first argument [a]. *)
Definition carries (a : Ty) : Prop :=
  forall b, M1 a b = Bool true -> M2 a b = Bool true.

Lemma deref2_carries a b :
  OptT carries a ->
  deref2 M1 a b = Bool true -> deref2 M2 a b = Bool true.
Proof.
  destruct a as [x|], b as [y|]; simpl; try discriminate.
  intros H. apply H.
Qed.

Lemma and_then_true x y :
  and_then x y = Bool true <-> x = Bool true /\ y = Bool true.
Proof.
  destruct x as [[|]| |]; simpl; split; intros H;
    try discriminate; try tauto; destruct H; discriminate.
Qed.

Lemma all_args_carries ts :
  Forall (OptT carries) ts ->
  forall os, all_args M1 ts os = Bool true -> all_args M2 ts os = Bool true.
Proof.
  induction 1 as [|a ts Ha _ IH]; intros os; simpl; [auto|].
  destruct os as [|b os]; [discriminate|].
  rewrite !and_then_true. intros [H1 H2]. split.
  - apply deref2_carries; assumption.
  - apply IH. exact H2.
Qed.

Lemma rest_ok_carries a b :
  OptT carries a ->
  rest_ok M1 a b = Bool true -> rest_ok M2 a b = Bool true.
Proof.
  destruct a as [x|], b as [y|]; simpl; try discriminate; auto.
Qed.

Lemma components_carries e targs trest tret tcar tcdr tel o :
  Forall (OptT carries) targs -> OptT carries trest -> OptT carries tret ->
  OptT carries tcar -> OptT carries tcdr -> OptT carries tel ->
  components M1 e targs trest tret tcar tcdr tel o = Bool true ->
  components M2 e targs trest tret tcar tcdr tel o = Bool true.
Proof.
  intros Hargs Hrest Hret Hcar Hcdr Hel.
  unfold components. destruct e; try (intros; reflexivity).
  - destruct (negb (length targs =? length (Args o))%nat); [discriminate|].
    rewrite !and_then_true. intros (H1 & H2 & H3). repeat split.
    + apply all_args_carries; assumption.
    + apply rest_ok_carries; assumption.
    + apply deref2_carries; assumption.
  - rewrite !and_then_true. intros (H1 & H2).
    split; apply deref2_carries; assumption.
  - apply deref2_carries; assumption.
  - apply deref2_carries; assumption.
Qed.

End Components.

(** *** A method that always answers *)

Section Answers.

Variable M : Ty -> Ty -> Answer.

Definition answers (a : Ty) : Prop := forall b, M a b <> OutOfFuel.

Lemma deref2_answers a b : OptT answers a -> deref2 M a b <> OutOfFuel.
Proof.
  destruct a as [x|], b as [y|]; simpl; try discriminate.
  intros H. apply H.
Qed.

Lemma and_then_answers x y :
  x <> OutOfFuel -> y <> OutOfFuel -> and_then x y <> OutOfFuel.
Proof. destruct x as [[|]| |]; simpl; auto. Qed.

Lemma all_args_answers ts :
  Forall (OptT answers) ts -> forall os, all_args M ts os <> OutOfFuel.
Proof.
  induction 1 as [|a ts Ha _ IH]; intros os; simpl; [discriminate|].
  destruct os as [|b os]; [discriminate|].
  apply and_then_answers; [apply deref2_answers; assumption|apply IH].
Qed.

Lemma rest_ok_answers a b : OptT answers a -> rest_ok M a b <> OutOfFuel.
Proof.
  destruct a as [x|], b as [y|]; simpl; try discriminate.
  intros H. apply H.
Qed.

Lemma components_answers e targs trest tret tcar tcdr tel o :
  Forall (OptT answers) targs -> OptT answers trest -> OptT answers tret ->
  OptT answers tcar -> OptT answers tcdr -> OptT answers tel ->
  components M e targs trest tret tcar tcdr tel o <> OutOfFuel.
Proof.
  intros Hargs Hrest Hret Hcar Hcdr Hel.
  unfold components. destruct e; try discriminate.
  - destruct (negb (length targs =? length (Args o))%nat); [discriminate|].
    apply and_then_answers; [apply all_args_answers; assumption|].
    apply and_then_answers;
      [apply rest_ok_answers|apply deref2_answers]; assumption.
  - apply and_then_answers; apply deref2_answers; assumption.
  - apply deref2_answers; assumption.
  - apply deref2_answers; assumption.
Qed.

End Answers.

(** *** The walk up the supertypes *)

Lemma kind_walk_ancestorb n e oe :
  kind_walk (4 + n) e oe = Some (ancestorb oe e).
Proof. destruct e, oe; reflexivity. Qed.

Lemma kind_walk_same n e : kind_walk (S n) e e = Some true.
Proof.
  simpl. unfold Enum_eqb. rewrite bool_decide_eq_true_2 by reflexivity.
  reflexivity.
Qed.

Lemma ancestorb_Unify n e oe :
  ancestorb oe e = true <-> Unify (4 + n) e oe = Some oe.
Proof.
  destruct e, oe; split; intros H; try reflexivity;
    try (vm_compute in H; discriminate);
    try (exfalso; revert H; cbn; discriminate).
Qed.

(** The enums whose descriptors have components. *)
Definition composite (e : Types.Enum) : bool :=
  match e with
  | EnumLambda | EnumPair | EnumList | EnumVector => true
  | _ => false
  end.

(** Whatever [IsA] accepts [IsKindOf] accepts: a descriptor that is a
    second one is also a kind of it, with one turn or more allowed to
    the walk; and [IsA] holds only between descriptors of the same
    enum. *)
Theorem IsA_implies_IsKindOf :
  forall (n : nat) (t o : Ty),
    (IsA t o = Bool true -> IsKindOf (S n) t o = Bool true) /\
    (IsA t o = Bool true -> Enum t = Enum o) /\
    IsA t o <> OutOfFuel.
Proof.
  intros n t. induction t as [e args rest ret car cdr el Hargs Hrest Hret
                                Hcar Hcdr Hel] using Ty_nested_ind.
  assert (Hsub : forall l,
             Forall (OptT (fun x => forall o,
                               (IsA x o = Bool true ->
                                IsKindOf (S n) x o = Bool true) /\
                               (IsA x o = Bool true -> Enum x = Enum o) /\
                               IsA x o <> OutOfFuel)) l ->
             Forall (OptT (carries IsA (IsKindOf (S n)))) l /\
             Forall (OptT (answers IsA)) l).
  { intros l Hl. split; eapply Forall_impl; try exact Hl;
      intros [x|] Hx; simpl in *; try exact Logic.I;
      intros b; apply (Hx b). }
  assert (Hopt : forall c,
             OptT (fun x => forall o,
                       (IsA x o = Bool true ->
                        IsKindOf (S n) x o = Bool true) /\
                       (IsA x o = Bool true -> Enum x = Enum o) /\
                       IsA x o <> OutOfFuel) c ->
             OptT (carries IsA (IsKindOf (S n))) c /\ OptT (answers IsA) c).
  { intros [x|] Hx; simpl in *; [|auto].
    split; intros b; apply (Hx b). }
  destruct (Hsub _ Hargs) as [Ca Aa].
  destruct (Hopt _ Hrest) as [Cr Ar]. destruct (Hopt _ Hret) as [Ct At].
  destruct (Hopt _ Hcar) as [Cc Ac]. destruct (Hopt _ Hcdr) as [Cd Ad].
  destruct (Hopt _ Hel) as [Ce Ae].
  intros o. cbn [IsA IsKindOf Enum].
  destruct (Enum_eqb e (Enum o)) eqn:Ee; cbn [negb].
  - apply bool_decide_eq_true in Ee. split; [|split].
    + intros H. rewrite <- Ee, kind_walk_same.
      apply (components_carries IsA (IsKindOf (S n))); assumption.
    + intros _. exact Ee.
    + apply components_answers; assumption.
  - split; [discriminate|]. split; discriminate.
Qed.

(** [IsKindOf] walks the supertypes of the enum.  With four turns or
    more it always answers; between descriptors of different enums, and
    on every descriptor whose enum has no components, the answer is
    whether the enum of the second is reached from the enum of the
    first by [Super] steps; and it is true only then, which is when
    [Unify] of the two enums is the second. *)
Theorem IsKindOf_walks_supertypes :
  forall (n : nat) (t o : Ty),
    IsKindOf (4 + n) t o <> OutOfFuel /\
    (Enum t <> Enum o \/ composite (Enum t) = false ->
     IsKindOf (4 + n) t o = Bool (ancestorb (Enum o) (Enum t))) /\
    (IsKindOf (4 + n) t o = Bool true ->
     ancestor (Enum o) (Enum t) /\
     Unify (4 + n) (Enum t) (Enum o) = Some (Enum o)).
Proof.
  intros n t. induction t as [e args rest ret car cdr el Hargs Hrest Hret
                                Hcar Hcdr Hel] using Ty_nested_ind.
  assert (Hopt : forall c,
             OptT (fun x => forall o,
                       IsKindOf (4 + n) x o <> OutOfFuel /\
                       (Enum x <> Enum o \/ composite (Enum x) = false ->
                        IsKindOf (4 + n) x o
                        = Bool (ancestorb (Enum o) (Enum x))) /\
                       (IsKindOf (4 + n) x o = Bool true ->
                        ancestor (Enum o) (Enum x) /\
                        Unify (4 + n) (Enum x) (Enum o) = Some (Enum o))) c ->
             OptT (answers (IsKindOf (4 + n))) c).
  { intros [x|] Hx; simpl in *; [|auto]. intros b; apply (Hx b). }
  assert (Aa : Forall (OptT (answers (IsKindOf (4 + n)))) args).
  { eapply Forall_impl; [exact Hargs|]. exact Hopt. }
  pose proof (Hopt _ Hrest) as Ar. pose proof (Hopt _ Hret) as At.
  pose proof (Hopt _ Hcar) as Ac. pose proof (Hopt _ Hcdr) as Ad.
  pose proof (Hopt _ Hel) as Ae.
  intros o.
  assert (E : IsKindOf (4 + n) (mkType e args rest ret car cdr el) o
              = if ancestorb (Enum o) e
                then if negb (Enum_eqb e (Enum o)) then Bool true
                     else components (IsKindOf (4 + n)) e args rest ret
                                     car cdr el o
                else Bool false).
  { change (IsKindOf (4 + n) (mkType e args rest ret car cdr el) o)
      with (match kind_walk (4 + n) e (Enum o) with
            | None => OutOfFuel
            | Some false => Bool false
            | Some true =>
                if negb (Enum_eqb e (Enum o)) then Bool true
                else components (IsKindOf (4 + n)) e args rest ret
                                car cdr el o
            end).
    rewrite kind_walk_ancestorb.
    destruct (ancestorb (Enum o) e); reflexivity. }
  rewrite E. cbn [Enum]. clear E.
  destruct (ancestorb (Enum o) e) eqn:Ea.
  - destruct (Enum_eqb e (Enum o)) eqn:Ee; cbn [negb].
    + apply bool_decide_eq_true in Ee. split; [|split].
      * apply components_answers; assumption.
      * intros [Hne|Hplain]; [contradiction|].
        unfold components. destruct e; try reflexivity; discriminate.
      * intros _. split.
        -- apply TypesFacts.ancestorb_ancestor. exact Ea.
        -- apply ancestorb_Unify. exact Ea.
    + split; [discriminate|]. split; [reflexivity|].
      intros _. split.
      * apply TypesFacts.ancestorb_ancestor. exact Ea.
      * apply ancestorb_Unify. exact Ea.
  - split; [discriminate|]. split; [reflexivity|]. discriminate.
Qed.

End TypeOpsFacts.

(** ** Setting a global and reading it back *)

Module GlobalOpsFacts.
Import Values Globals.

Lemma SetGlobal_symbols FlagDefined FlagConst scm name value :
  let id := snd (Intern scm name) in
  Z.land (Flags id) FlagConst = 0 ->
  SetGlobal FlagDefined FlagConst scm name value
  = (mkScheme (<[name := mkIdentifier (Name id) value
                           (Z.lor (Flags id) FlagDefined)]> (symbols scm)),
     Ok tt).
Proof.
  intros id Hc. subst id. unfold SetGlobal, Intern in *.
  destruct (symbols scm !! name) as [id0|] eqn:Hl; simpl in *.
  - rewrite Hc. reflexivity.
  - simpl. rewrite insert_insert_eq. reflexivity.
Qed.

Lemma lor_land_same a d : Z.land (Z.lor a d) d = d.
Proof.
  rewrite Z.land_lor_distr_l, Z.land_diag.
  apply Z.bits_inj'. intros n Hn.
  rewrite Z.lor_spec, Z.land_spec.
  destruct (Z.testbit a n), (Z.testbit d n); reflexivity.
Qed.

(** A global that was set reads back.  When [SetGlobal] succeeds,
    [Global] of the name returns the value that was set, [Global] of
    every other name answers as before the call, and, the two flags
    being different bits, the symbol stays settable: a second
    [SetGlobal] succeeds and its value is the one read back. *)
Theorem SetGlobal_then_Global :
  forall (FlagDefined FlagConst : Z) (scm : Scheme) (name : string)
         (value value2 : Value),
    FlagDefined <> 0 ->
    Z.land FlagDefined FlagConst = 0 ->
    snd (SetGlobal FlagDefined FlagConst scm name value) = Ok tt ->
    let scm1 := fst (SetGlobal FlagDefined FlagConst scm name value) in
    let scm2 := fst (SetGlobal FlagDefined FlagConst scm1 name value2) in
    GetGlobal FlagDefined scm1 name = Ok value /\
    (forall other, other <> name ->
                   GetGlobal FlagDefined scm1 other
                   = GetGlobal FlagDefined scm other) /\
    snd (SetGlobal FlagDefined FlagConst scm1 name value2) = Ok tt /\
    GetGlobal FlagDefined scm2 name = Ok value2.
Proof.
  intros FlagDefined FlagConst scm name value value2 HD Hdisj Hok scm1 scm2.
  set (id := snd (Intern scm name)).
  assert (Hc : Z.land (Flags id) FlagConst = 0).
  { unfold SetGlobal in Hok. fold id in Hok.
    destruct (Intern scm name) as [s0 id0] eqn:HI. simpl in id. subst id.
    destruct (Z.eqb_spec (Z.land (Flags id0) FlagConst) 0) as [Hz|Hnz];
      [exact Hz|discriminate]. }
  pose proof (SetGlobal_symbols FlagDefined FlagConst scm name value Hc) as E1.
  fold id in E1.
  assert (Es1 : scm1
                = mkScheme (<[name := mkIdentifier (Name id) value
                                        (Z.lor (Flags id) FlagDefined)]>
                              (symbols scm)))
    by (unfold scm1; rewrite E1; reflexivity).
  assert (Hget : forall s i v,
             symbols s !! name = Some (mkIdentifier i v
                                         (Z.lor (Flags id) FlagDefined)) ->
             GetGlobal FlagDefined s name = Ok v).
  { intros s i v Hl. unfold GetGlobal. rewrite Hl. simpl.
    rewrite lor_land_same.
    destruct (Z.eqb_spec FlagDefined 0); [contradiction|reflexivity]. }
  assert (Hid1 : snd (Intern scm1 name)
                 = mkIdentifier (Name id) value
                     (Z.lor (Flags id) FlagDefined)).
  { rewrite Es1. unfold Intern. simpl. rewrite lookup_insert_eq.
    reflexivity. }
  assert (Hc1 : Z.land (Flags (snd (Intern scm1 name))) FlagConst = 0).
  { rewrite Hid1. simpl. rewrite Z.land_lor_distr_l, Hc, Hdisj.
    reflexivity. }
  pose proof (SetGlobal_symbols FlagDefined FlagConst scm1 name value2 Hc1)
    as E2.
  rewrite Hid1 in E2. simpl in E2.
  split; [|split; [|split]].
  - apply (Hget scm1 (Name id)). rewrite Es1. simpl.
    apply lookup_insert_eq.
  - intros other Hne. unfold GetGlobal. rewrite Es1. simpl.
    rewrite lookup_insert_ne by congruence. reflexivity.
  - rewrite E2. reflexivity.
  - unfold scm2. rewrite E2. simpl.
    unfold GetGlobal. simpl. rewrite lookup_insert_eq. simpl.
    rewrite lor_land_same.
    destruct (Z.eqb_spec FlagDefined 0); [contradiction|reflexivity].
Qed.

Lemma SetGlobal_then_Global_witness :
  let scm1 := fst (SetGlobal 1 2 GlobalsFacts.scm_pi "e" (int 2)) in
  let scm2 := fst (SetGlobal 1 2 scm1 "e" (int 3)) in
  GetGlobal 1 scm1 "e" = Ok (int 2) /\
  (forall other, other <> "e" ->
                 GetGlobal 1 scm1 other
                 = GetGlobal 1 GlobalsFacts.scm_pi other) /\
  snd (SetGlobal 1 2 scm1 "e" (int 3)) = Ok tt /\
  GetGlobal 1 scm2 "e" = Ok (int 3).
Proof.
  apply (SetGlobal_then_Global 1 2 GlobalsFacts.scm_pi "e" (int 2) (int 3)).
  - lia.
  - reflexivity.
  - vm_compute. reflexivity.
Defined.

End GlobalOpsFacts.

(** ** More of the lowering to bytecode *)

Module CompileOpsFacts.
Import Values Compile CompileFacts.

(** The label with number [n], and the branches to it. *)
Definition label (n : Z) : Instr := mkInstr OpLabel Nil n 0 None None.
Definition branch (op : Operand) (from : Locator) (n : Z) : Instr :=
  mkInstr op Nil 0 n None from.

(** The compiler after [k] labels were generated. *)
Definition bump (c : Compiler) (k : Z) : Compiler :=
  mkCompiler (code c) (lambdas c) (nextLabel c + k) (scm c).

Lemma emits_code define a c l c' :
  emits define a c l c' -> code c' = code c ++ l.
Proof. destruct 1; assumption. Qed.

Lemma emits_run define a c l c' :
  emits define a c l c' -> Bytecode define a c = Emitted c'.
Proof. destruct 1; assumption. Qed.

(** [ASTIf.Bytecode] generates two labels, used or not, and succeeds
    exactly when the condition and the branches compile, each from the
    compiler the one before left.  Without an else branch it appends
    the code of the condition, [IfNot] to the second label, the code of
    the true branch and the second label; with one, the code of the
    condition, [IfNot] to the first label, the code of the true branch,
    [Jmp] to the second label, the first label, the code of the false
    branch and the second label. *)
Theorem if_bytecode :
  forall (define : Locator -> Env -> option string -> Flags -> Compiler
                   -> Emit)
         (from : Locator) (Cond T : AST) (F : option AST)
         (c c' : Compiler),
    define_appends define ->
    let labelFalse := nextLabel c in
    let labelEnd := nextLabel c + 1 in
    Bytecode define (ASTIf from Cond T F) c = Emitted c'
    <->
    exists lc c3 lt c4,
      emits define Cond (bump c 2) lc c3 /\
      match F with
      | None =>
          emits define T (emit c3 (branch OpIfNot from labelEnd)) lt c4 /\
          c' = emit c4 (label labelEnd) /\
          code c' = code c ++ lc ++ [branch OpIfNot from labelEnd] ++ lt
                      ++ [label labelEnd]
      | Some f =>
          exists lf c6,
            emits define T (emit c3 (branch OpIfNot from labelFalse)) lt c4 /\
            emits define f
              (emit (emit c4 (branch OpJmp None labelEnd)) (label labelFalse))
              lf c6 /\
            c' = emit c6 (label labelEnd) /\
            code c' = code c ++ lc ++ [branch OpIfNot from labelFalse] ++ lt
                        ++ [branch OpJmp None labelEnd; label labelFalse]
                        ++ lf ++ [label labelEnd]
      end.
Proof.
  intros define from Cond T F c c' Hdefine labelFalse labelEnd.
  assert (Hb : bump c 2
               = mkCompiler (code c) (lambdas c) (nextLabel c + 1 + 1) (scm c)).
  { unfold bump. f_equal. lia. }
  cbn [Bytecode newLabel code lambdas nextLabel scm I].
  rewrite <- Hb. fold labelEnd. fold labelFalse.
  unfold addInstrJ, addLabel. fold (branch OpIfNot from labelEnd).
  fold (branch OpIfNot from labelFalse). fold (branch OpJmp None labelEnd).
  fold (label labelFalse). fold (label labelEnd).
  split.
  - intros H.
    destruct (Bytecode define Cond (bump c 2)) as [c3|c3 e|] eqn:Hc;
      try discriminate. cbn [andThen] in H.
    destruct (Bytecode_emits define Hdefine _ _ _ Hc) as [lc Hlc].
    pose proof (emits_code _ _ _ _ _ Hlc) as Ec.
    destruct F as [f|].
    + destruct (Bytecode define T (emit c3 (branch OpIfNot from labelFalse)))
        as [c4|c4 e|] eqn:Ht; try discriminate. cbn [andThen] in H.
      destruct (Bytecode_emits define Hdefine _ _ _ Ht) as [lt Hlt].
      pose proof (emits_code _ _ _ _ _ Hlt) as Et.
      destruct (Bytecode define f
                  (emit (emit c4 (branch OpJmp None labelEnd))
                        (label labelFalse))) as [c6|c6 e|] eqn:Hf;
        try discriminate. cbn [andThen] in H.
      destruct (Bytecode_emits define Hdefine _ _ _ Hf) as [lf Hlf].
      pose proof (emits_code _ _ _ _ _ Hlf) as Ef.
      injection H as <-.
      exists lc, c3, lt, c4. split; [exact Hlc|].
      exists lf, c6. repeat split; try assumption.
      cbn [emit code] in *. rewrite Ef, Et, Ec. cbn [bump code].
      rewrite <- !app_assoc. reflexivity.
    + destruct (Bytecode define T (emit c3 (branch OpIfNot from labelEnd)))
        as [c4|c4 e|] eqn:Ht; try discriminate. cbn [andThen] in H.
      destruct (Bytecode_emits define Hdefine _ _ _ Ht) as [lt Hlt].
      pose proof (emits_code _ _ _ _ _ Hlt) as Et.
      injection H as <-.
      exists lc, c3, lt, c4. repeat split; try assumption.
      cbn [emit code] in *. rewrite Et, Ec. cbn [bump code].
      rewrite <- !app_assoc. reflexivity.
  - intros (lc & c3 & lt & c4 & Hlc & HF).
    rewrite (emits_run _ _ _ _ _ Hlc). cbn [andThen].
    destruct F as [f|].
    + destruct HF as (lf & c6 & Hlt & Hlf & -> & _).
      rewrite (emits_run _ _ _ _ _ Hlt). cbn [andThen].
      rewrite (emits_run _ _ _ _ _ Hlf). reflexivity.
    + destruct HF as (Hlt & -> & _).
      rewrite (emits_run _ _ _ _ _ Hlt). reflexivity.
Qed.

(** [(if #t 1 2)] *)
Definition if_example : AST :=
  ASTIf None (ASTConstant None (VBoolean true))
    (ASTConstant None (int 1)) (Some (ASTConstant None (int 2))).

Definition if_example_compiled : Compiler :=
  match Bytecode define_instr if_example empty_compiler with
  | Emitted c => c
  | _ => empty_compiler
  end.

Lemma if_bytecode_witness :
  Bytecode define_instr if_example empty_compiler
  = Emitted if_example_compiled
  <->
  exists lc c3 lt c4,
    emits define_instr (ASTConstant None (VBoolean true))
          (bump empty_compiler 2) lc c3 /\
    exists lf c6,
      emits define_instr (ASTConstant None (int 1))
            (emit c3 (branch OpIfNot None 0)) lt c4 /\
      emits define_instr (ASTConstant None (int 2))
            (emit (emit c4 (branch OpJmp None (0 + 1))) (label 0)) lf c6 /\
      if_example_compiled = emit c6 (label (0 + 1)) /\
      code if_example_compiled
      = code empty_compiler ++ lc ++ [branch OpIfNot None 0] ++ lt
          ++ [branch OpJmp None (0 + 1); label 0] ++ lf ++ [label (0 + 1)].
Proof.
  exact (if_bytecode define_instr None (ASTConstant None (VBoolean true))
           (ASTConstant None (int 1)) (Some (ASTConstant None (int 2)))
           empty_compiler if_example_compiled define_instr_appends).
Defined.

(** *** What every [Bytecode] method preserves *)

Section Preserved.

(** A relation between the compiler before and after: reflexive,
    transitive, and kept by each of the ways the lowering changes the
    compiler (an instruction appended, a symbol interned, a label
    generated, a lambda added to the table) and by [define]. *)
Variable R : Compiler -> Compiler -> Prop.
Variable define :
  Locator -> Env -> option string -> Flags -> Compiler -> Emit.

Definition keeps (c : Compiler) (r : Emit) : Prop :=
  match r with
  | Emitted c' | Failed c' _ => R c c'
  | Crashed => True
  end.

Hypothesis R_refl : forall c, R c c.
Hypothesis R_trans : forall c1 c2 c3, R c1 c2 -> R c2 c3 -> R c1 c3.
Hypothesis R_emit : forall c i, R c (emit c i).
Hypothesis R_intern : forall c name,
    R c (mkCompiler (code c) (lambdas c) (nextLabel c)
           (fst (Globals.Intern (scm c) name))).
Hypothesis R_label : forall c,
    R c (mkCompiler (code c) (lambdas c) (nextLabel c + 1) (scm c)).
Hypothesis R_lambda : forall c l,
    R c (mkCompiler (code c) (lambdas c ++ [l]) (nextLabel c) (scm c)).
Hypothesis R_define : forall from env name flags c,
    keeps c (define from env name flags c).

Lemma R_addInstrSym c from op v i name :
  R c (addInstrSym c from op v i name).
Proof.
  unfold addInstrSym. eapply R_trans; [apply R_emit|apply R_intern].
Qed.

Lemma keeps_weaken c1 c2 r : R c1 c2 -> keeps c2 r -> keeps c1 r.
Proof. intros H. destruct r; simpl; eauto. Qed.

Lemma keeps_andThen c r k :
  keeps c r -> (forall c1, keeps c1 (k c1)) -> keeps c (andThen r k).
Proof.
  intros Hr Hk. destruct r as [c1|c1 e|]; simpl in *; auto.
  eapply keeps_weaken; eauto.
Qed.

(** Closes [R c c'] where [c'] is [c] under a stack of appending
    helpers. *)
Ltac R_chain :=
  unfold addInstr, addInstrJ, addPushS, addPopS, addCall, addLabel;
  repeat first
    [ apply R_refl
    | (eapply R_trans; [|first [ apply R_emit | apply R_addInstrSym ]]) ].

Section Loops.

Variable B : AST -> Compiler -> Emit.

Definition preserves (a : AST) : Prop := forall c, keeps c (B a c).

Lemma emit_items_keeps l :
  Forall preserves l -> forall c, keeps c (emit_items B l c).
Proof.
  induction 1 as [|a l Ha _ IH]; intros c; simpl.
  - apply R_refl.
  - apply keeps_andThen; auto.
Qed.

Lemma emit_bindings_keeps (l : list (ASTLetBinding AST)) :
  Forall (fun b => preserves (LBInit b)) l ->
  forall c, keeps c (emit_bindings B l c).
Proof.
  induction 1 as [|b l Hb _ IH]; intros c; simpl.
  - apply R_refl.
  - apply keeps_andThen; [apply Hb|].
    intros c1. eapply keeps_weaken; [apply R_emit|apply IH].
Qed.

Lemma emit_args_keeps ArgFrame ArgLocs l :
  Forall preserves l ->
  forall idx c, keeps c (emit_args B ArgFrame ArgLocs l idx c).
Proof.
  induction 1 as [|a l Ha _ IH]; intros idx c; simpl.
  - apply R_refl.
  - apply keeps_andThen; [apply Ha|].
    intros c1. destruct (ArgLocs !! idx); simpl; [|exact Logic.I].
    eapply keeps_weaken; [apply R_emit|apply IH].
Qed.

Lemma emit_chain_keeps op labelEnd l :
  Forall preserves l ->
  forall c, keeps c (emit_chain B op labelEnd l c).
Proof.
  induction 1 as [|a l Ha Hl IH]; intros c; simpl.
  - exact Logic.I.
  - destruct l as [|a' l']; [apply Ha|].
    apply keeps_andThen; [apply Ha|].
    intros c1. eapply keeps_weaken; [apply R_emit|apply IH].
Qed.

Lemma emit_datums_keeps vf ef labelExprs locs l :
  forall idx c, keeps c (emit_datums vf ef labelExprs locs l idx c).
Proof.
  induction l as [|d l IH]; intros idx c; simpl.
  - apply R_refl.
  - destruct (locs !! idx) as [from|]; [|exact Logic.I].
    eapply keeps_weaken; [|apply IH]. R_chain.
Qed.

Lemma cond_choice_keeps labelEnd Tail Captures cfrom ccond cfunc
    fvf faf exprs (next : Z) rest labelClause :
  CondChoiceP preserves (mkCondChoice cfrom ccond cfunc fvf faf exprs) ->
  (forall lc c, keeps c (emit_cond_choices B labelEnd Tail Captures
                           rest lc c)) ->
  forall c2,
    keeps c2
      (andThen
         (match ccond with
          | Some cond =>
              andThen (B cond c2) (fun c3 =>
                Emitted (addInstrJ c3 cfrom OpIfNot Nil 0 next))
          | None => Emitted c2
          end) (fun c4 =>
       andThen
         (match cfunc with
          | Some func =>
              let c5 := addInstr c4 cfrom OpPushS Nil 1 in
              let c6 := addInstr c5 cfrom OpLocalSet Nil (FIndex fvf) in
              andThen (B func c6) (fun c7 =>
                let c8 := addInstr c7 cfrom OpPushF Nil 0 in
                let c9 := addInstr c8 cfrom OpPushS Nil 1 in
                let c10 := addInstr c9 cfrom OpLocal Nil (FIndex fvf) in
                let c11 :=
                  addInstr c10 cfrom OpLocalSet Nil (FIndex faf) in
                let c12 := addCall c11 None 1 Tail in
                Emitted (if Tail then c12
                         else addPopS c12 cfrom 1 Captures))
          | None => emit_items B exprs c4
          end) (fun c13 =>
       emit_cond_choices B labelEnd Tail Captures rest labelClause
         (addInstrJ c13 None OpJmp Nil 0 (I labelEnd))))).
Proof.
  intros (Hc & Hf & He) IH c2. simpl in Hc, Hf, He.
  apply keeps_andThen.
  - destruct ccond as [cond|]; [|apply R_refl].
    apply keeps_andThen; [apply Hc|].
    intros c3. apply R_emit.
  - intros c4. apply keeps_andThen.
    + destruct cfunc as [func|].
      * eapply keeps_weaken; [|apply keeps_andThen; [apply Hf|]].
        -- R_chain.
        -- intros c7. simpl. destruct Tail; R_chain.
      * apply emit_items_keeps. exact He.
    + intros c13. eapply keeps_weaken; [apply R_emit|].
      apply IH.
Qed.

Lemma emit_cond_choices_keeps labelEnd Tail Captures l :
  Forall (CondChoiceP preserves) l ->
  forall labelClause c,
    keeps c (emit_cond_choices B labelEnd Tail Captures l labelClause c).
Proof.
  induction 1 as [|ch l Hch _ IH]; intros labelClause c; simpl.
  - apply R_refl.
  - destruct ch as [cfrom ccond cfunc fvf faf exprs].
    assert (H1 : R c match labelClause with
                     | Some lc => addLabel c lc
                     | None => c
                     end).
    { destruct labelClause; [apply R_emit|apply R_refl]. }
    eapply keeps_weaken; [exact H1|].
    destruct l as [|ch' l'].
    + apply cond_choice_keeps; assumption.
    + eapply keeps_weaken; [apply R_label|].
      apply cond_choice_keeps; assumption.
Qed.

Lemma case_choice_keeps vf ef labelEnd datums dlocs exprs
    (next : Z) rest labelClause :
  Forall preserves exprs ->
  (forall lc c, keeps c (emit_case_choices B vf ef labelEnd rest lc c)) ->
  forall c2,
    keeps c2
      (andThen
         (match datums with
          | [] => Emitted c2
          | _ :: _ =>
              let '(c3, labelExprs) := newLabel c2 in
              andThen
                (emit_datums vf ef labelExprs dlocs datums 0 c3)
                (fun c4 =>
                   let c5 := addInstrJ c4 None OpJmp Nil 0 next in
                   Emitted (addLabel c5 labelExprs))
          end) (fun c6 =>
       andThen (emit_items B exprs c6) (fun c7 =>
       emit_case_choices B vf ef labelEnd rest labelClause
         (addInstrJ c7 None OpJmp Nil 0 (I labelEnd))))).
Proof.
  intros He IH c2.
  apply keeps_andThen.
  - destruct datums as [|d ds]; [apply R_refl|].
    unfold newLabel. cbv beta iota zeta.
    eapply keeps_weaken; [apply R_label|].
    apply keeps_andThen; [apply emit_datums_keeps|].
    intros c4. simpl. R_chain.
  - intros c6. apply keeps_andThen.
    + apply emit_items_keeps. exact He.
    + intros c7. eapply keeps_weaken; [apply R_emit|].
      apply IH.
Qed.

Lemma emit_case_choices_keeps vf ef labelEnd l :
  Forall (CaseChoiceP preserves) l ->
  forall labelClause c,
    keeps c (emit_case_choices B vf ef labelEnd l labelClause c).
Proof.
  induction 1 as [|ch l Hch _ IH]; intros labelClause c; simpl.
  - apply R_refl.
  - destruct ch as [cfrom datums dlocs exprs].
    assert (H1 : R c match labelClause with
                     | Some lc => addLabel c lc
                     | None => c
                     end).
    { destruct labelClause; [apply R_emit|apply R_refl]. }
    eapply keeps_weaken; [exact H1|].
    destruct l as [|ch' l'].
    + apply case_choice_keeps; assumption.
    + eapply keeps_weaken; [apply R_label|].
      apply case_choice_keeps; assumption.
Qed.

End Loops.

Lemma newLabel_R c c' l : newLabel c = (c', l) -> R c c'.
Proof. unfold newLabel. intros H. injection H as <- _. apply R_label. Qed.

Opaque newLabel.

Lemma Bytecode_keeps a : forall c, keeps c (Bytecode define a c).
Proof.
  induction a using AST_nested_ind; intros c; simpl.
  - (* Sequence *) apply emit_items_keeps. assumption.
  - (* Define *)
    apply keeps_andThen; [apply IHa|]. intros c1. apply R_addInstrSym.
  - (* Set *)
    apply keeps_andThen; [apply IHa|]. intros c1.
    destruct Binding; [apply R_emit|apply R_addInstrSym].
  - (* Let *)
    eapply keeps_weaken; [apply R_emit|].
    apply keeps_andThen; [apply emit_bindings_keeps; eassumption|].
    intros c1. apply keeps_andThen; [apply emit_items_keeps; assumption|].
    intros c2. destruct Tail; [apply R_refl|apply R_emit].
  - (* If *)
    destruct (newLabel c) as [c1 labelFalse] eqn:E1.
    destruct (newLabel c1) as [c2 labelEnd] eqn:E2.
    eapply keeps_weaken; [eapply newLabel_R; exact E1|].
    eapply keeps_weaken; [eapply newLabel_R; exact E2|].
    apply keeps_andThen; [apply IHa1|]. intros c3.
    apply keeps_andThen; [|intros c6; apply R_emit].
    destruct F as [f|].
    + eapply keeps_weaken; [apply R_emit|].
      apply keeps_andThen; [apply IHa2|]. intros c4.
      eapply keeps_weaken; [|apply H].
      R_chain.
    + eapply keeps_weaken; [apply R_emit|]. apply IHa2.
  - (* Apply *)
    apply keeps_andThen; [apply IHa1|]. intros c1.
    eapply keeps_weaken; [apply R_emit|].
    apply keeps_andThen; [apply IHa2|]. intros c2.
    simpl. R_chain.
  - (* Call *)
    pose proof (IHa c) as HF.
    destruct (Bytecode define a c) as [c1|c1 e|]; simpl in *; auto.
    eapply keeps_weaken; [exact HF|].
    eapply keeps_weaken; [apply R_emit|].
    eapply keeps_weaken; [apply R_emit|].
    apply keeps_andThen; [apply emit_args_keeps; assumption|].
    intros c4. apply R_emit.
  - (* Lambda *)
    assert (HL : R c (mkCompiler
                        (code (addInstr c from OpLambda Nil
                                 (Z.of_nat (length (lambdas c)))))
                        (lambdas c
                         ++ [mkLambdaCompilation Name args Body env Captures])
                        (nextLabel c) (scm c))).
    { apply (R_trans _ (addInstr c from OpLambda Nil
                          (Z.of_nat (length (lambdas c))))).
      - apply R_emit.
      - apply (R_lambda (addInstr c from OpLambda Nil
                           (Z.of_nat (length (lambdas c))))). }
    destruct Define.
    + eapply keeps_weaken; [exact HL|]. apply R_define.
    + exact HL.
  - (* Constant *) apply R_emit.
  - (* Identifier *)
    destruct Binding; [apply R_emit|apply R_addInstrSym].
  - (* Cond *)
    destruct (newLabel c) as [c1 labelEnd] eqn:E1.
    eapply keeps_weaken; [eapply newLabel_R; exact E1|].
    apply keeps_andThen;
      [apply emit_cond_choices_keeps; assumption|].
    intros c2. apply R_emit.
  - (* Case *)
    destruct (newLabel c) as [c1 labelEnd] eqn:E1.
    eapply keeps_weaken; [eapply newLabel_R; exact E1|].
    eapply keeps_weaken; [apply R_emit|].
    apply keeps_andThen; [apply IHa|]. intros c3.
    eapply keeps_weaken; [apply R_emit|].
    apply keeps_andThen;
      [apply emit_case_choices_keeps; assumption|].
    intros c5. simpl. destruct Tail; R_chain.
  - (* And *)
    destruct Exprs as [|e es]; [apply R_emit|].
    destruct (newLabel c) as [c1 labelEnd] eqn:E1.
    eapply keeps_weaken; [eapply newLabel_R; exact E1|].
    apply keeps_andThen; [apply emit_chain_keeps; assumption|].
    intros c2. apply R_emit.
  - (* Or *)
    destruct Exprs as [|e es]; [apply R_emit|].
    destruct (newLabel c) as [c1 labelEnd] eqn:E1.
    eapply keeps_weaken; [eapply newLabel_R; exact E1|].
    apply keeps_andThen; [apply emit_chain_keeps; assumption|].
    intros c2. apply R_emit.
Qed.

Transparent newLabel.

End Preserved.

(** *** The compiler only grows *)

(** From [c] to [c']: instructions appended, labels generated, lambdas
    added at the end of the table, symbols interned. *)
Definition grows (c c' : Compiler) : Prop :=
  (exists l, code c' = code c ++ l) /\
  nextLabel c <= nextLabel c' /\
  (exists ls, lambdas c' = lambdas c ++ ls) /\
  Globals.symbols (scm c) ⊆ Globals.symbols (scm c').

Definition grown (c : Compiler) (r : Emit) : Prop :=
  match r with
  | Emitted c' | Failed c' _ => grows c c'
  | Crashed => True
  end.

(** [define] only makes the compiler grow. *)
Definition define_grows
    (define : Locator -> Env -> option string -> Flags -> Compiler -> Emit)
  : Prop :=
  forall from env name flags c, grown c (define from env name flags c).

Lemma code_same (c c' : Compiler) :
  code c' = code c -> exists l, code c' = code c ++ l.
Proof. intros ->. exists []. rewrite app_nil_r. reflexivity. Qed.

Lemma lambdas_same (c c' : Compiler) :
  lambdas c' = lambdas c -> exists ls, lambdas c' = lambdas c ++ ls.
Proof. intros ->. exists []. rewrite app_nil_r. reflexivity. Qed.

Lemma grows_refl c : grows c c.
Proof.
  split; [apply code_same; reflexivity|].
  split; [lia|]. split; [apply lambdas_same; reflexivity|reflexivity].
Qed.

Lemma grows_trans c1 c2 c3 : grows c1 c2 -> grows c2 c3 -> grows c1 c3.
Proof.
  intros ([l1 H1] & Hn1 & [m1 Hm1] & Hs1) ([l2 H2] & Hn2 & [m2 Hm2] & Hs2).
  split; [|split; [|split]].
  - exists (l1 ++ l2). rewrite H2, H1, app_assoc. reflexivity.
  - lia.
  - exists (m1 ++ m2). rewrite Hm2, Hm1, app_assoc. reflexivity.
  - etrans; eassumption.
Qed.

Lemma grows_emit c i : grows c (emit c i).
Proof.
  split; [exists [i]; reflexivity|].
  split; [simpl; lia|].
  split; [apply lambdas_same; reflexivity|reflexivity].
Qed.

Lemma Intern_subseteq s name :
  Globals.symbols s ⊆ Globals.symbols (fst (Globals.Intern s name)).
Proof.
  unfold Globals.Intern.
  destruct (Globals.symbols s !! name) eqn:E; simpl; [reflexivity|].
  apply insert_subseteq. exact E.
Qed.

Lemma grows_intern c name :
  grows c (mkCompiler (code c) (lambdas c) (nextLabel c)
             (fst (Globals.Intern (scm c) name))).
Proof.
  split; [apply code_same; reflexivity|].
  split; [simpl; lia|].
  split; [apply lambdas_same; reflexivity|apply Intern_subseteq].
Qed.

Lemma grows_label c :
  grows c (mkCompiler (code c) (lambdas c) (nextLabel c + 1) (scm c)).
Proof.
  split; [apply code_same; reflexivity|].
  split; [simpl; lia|].
  split; [apply lambdas_same; reflexivity|reflexivity].
Qed.

Lemma grows_lambda c l :
  grows c (mkCompiler (code c) (lambdas c ++ [l]) (nextLabel c) (scm c)).
Proof.
  split; [apply code_same; reflexivity|].
  split; [simpl; lia|].
  split; [exists [l]; reflexivity|reflexivity].
Qed.

Lemma Bytecode_grows define a c :
  define_grows define -> grown c (Bytecode define a c).
Proof.
  intros Hdefine.
  apply (Bytecode_keeps grows define grows_refl grows_trans grows_emit
           grows_intern grows_label grows_lambda Hdefine).
Qed.

Lemma define_instr_grows : define_grows define_instr.
Proof.
  intros from env name flags c. unfold define_instr, grown, addInstrSym.
  eapply grows_trans; [apply grows_emit|apply grows_intern].
Qed.

(** No [Bytecode] method takes anything back.  Whether the lowering of
    an expression succeeds or fails, the compiler it leaves has the
    instructions it had followed by new ones, a label counter that is
    not smaller, the lambda table it had followed by new entries, and
    every symbol that was interned; this given that [define] does the
    same. *)
Theorem Bytecode_grows_only :
  forall (define : Locator -> Env -> option string -> Flags -> Compiler
                   -> Emit)
         (a : AST) (c : Compiler),
    define_grows define ->
    match Bytecode define a c with
    | Emitted c' | Failed c' _ =>
        (exists l, code c' = code c ++ l) /\
        nextLabel c <= nextLabel c' /\
        (exists ls, lambdas c' = lambdas c ++ ls) /\
        Globals.symbols (scm c) ⊆ Globals.symbols (scm c')
    | Crashed => True
    end.
Proof.
  intros define a c Hdefine.
  pose proof (Bytecode_grows define a c Hdefine) as H.
  destruct (Bytecode define a c); exact H.
Qed.

Lemma Bytecode_grows_only_witness :
  match Bytecode define_instr if_example empty_compiler with
  | Emitted c' | Failed c' _ =>
      (exists l, code c' = code empty_compiler ++ l) /\
      nextLabel empty_compiler <= nextLabel c' /\
      (exists ls, lambdas c' = lambdas empty_compiler ++ ls) /\
      Globals.symbols (scm empty_compiler) ⊆ Globals.symbols (scm c')
  | Crashed => True
  end.
Proof.
  exact (Bytecode_grows_only define_instr if_example empty_compiler
           define_instr_grows).
Defined.

(** A lambda keeps its place in the table.  [ASTLambda.Bytecode] of a
    lambda that is not defined appends the [Lambda] instruction whose
    operand is the index of the entry it adds to the lambda table, and
    whatever is compiled next, with or without success, leaves both
    where they are: the instruction at its position in the stream and
    the entry at that index. *)
Theorem lambda_index_stable :
  forall (define : Locator -> Env -> option string -> Flags -> Compiler
                   -> Emit)
         (from : Locator) (Name : option string) (args : Args)
         (Body : list AST) (env : Env) (Captures : bool) (flags : Flags)
         (next : AST) (c : Compiler),
    define_grows define ->
    let idx := length (lambdas c) in
    let instr := mkInstr OpLambda Nil (Z.of_nat idx) 0 None from in
    let entry := mkLambdaCompilation Name args Body env Captures in
    exists c1,
      Bytecode define (ASTLambda from Name args Body env Captures false flags)
               c = Emitted c1 /\
      code c1 = code c ++ [instr] /\
      lambdas c1 = lambdas c ++ [entry] /\
      match Bytecode define next c1 with
      | Emitted c2 | Failed c2 _ =>
          code c2 !! length (code c) = Some instr /\
          lambdas c2 !! idx = Some entry
      | Crashed => True
      end.
Proof.
  intros define from Name args Body env Captures flags next c Hdefine
         idx instr entry.
  eexists. split; [reflexivity|]. cbn [code lambdas addInstr emit].
  split; [reflexivity|]. split; [reflexivity|].
  match goal with
  | |- match Bytecode define next ?c1 with _ => _ end =>
      pose proof (Bytecode_grows define next c1 Hdefine) as H;
      destruct (Bytecode define next c1) as [c2|c2 e|]; [| |exact Logic.I];
      destruct H as ([l Hl] & _ & [ls Hls] & _);
      cbn [code lambdas] in Hl, Hls;
      (split;
       [ rewrite Hl, <- app_assoc; apply list_lookup_middle; reflexivity
       | rewrite Hls, <- app_assoc; apply list_lookup_middle; reflexivity ])
  end.
Qed.

(** [(lambda () 1)] followed by [(if #t 1 2)]. *)
Lemma lambda_index_stable_witness :
  let idx := length (lambdas empty_compiler) in
  let instr := mkInstr OpLambda Nil (Z.of_nat idx) 0 None None in
  let entry :=
    mkLambdaCompilation None (mkArgs 0 0 false) [ASTConstant None (int 1)]
      [] false in
  exists c1,
    Bytecode define_instr
      (ASTLambda None None (mkArgs 0 0 false) [ASTConstant None (int 1)]
         [] false false 0) empty_compiler = Emitted c1 /\
    code c1 = code empty_compiler ++ [instr] /\
    lambdas c1 = lambdas empty_compiler ++ [entry] /\
    match Bytecode define_instr if_example c1 with
    | Emitted c2 | Failed c2 _ =>
        code c2 !! length (code empty_compiler) = Some instr /\
        lambdas c2 !! idx = Some entry
    | Crashed => True
    end.
Proof.
  exact (lambda_index_stable define_instr None None (mkArgs 0 0 false)
           [ASTConstant None (int 1)] [] false 0 if_example empty_compiler
           define_instr_grows).
Defined.

(** *** [ASTAnd.Bytecode] and [ASTOr.Bytecode] *)

(** What the chain of an [and] or an [or] is described to emit: the
    code of each expression but the last followed by the branch [op]
    to the label [L], at the location of that expression, then the
    code of the last expression. *)
Inductive emits_chain
    (define : Locator -> Env -> option string -> Flags -> Compiler -> Emit)
    (op : Operand) (L : Z)
  : list AST -> Compiler -> list Instr -> Compiler -> Prop :=
| emits_chain_last e c l c' :
    emits define e c l c' -> emits_chain define op L [e] c l c'
| emits_chain_more e e' rest c l c1 ls c2 :
    emits define e c l c1 ->
    emits_chain define op L (e' :: rest)
      (emit c1 (branch op (ASTLocator e) L)) ls c2 ->
    emits_chain define op L (e :: e' :: rest) c
      (l ++ [branch op (ASTLocator e) L] ++ ls) c2.

Section Chain.

Variable define :
  Locator -> Env -> option string -> Flags -> Compiler -> Emit.
Hypothesis Hdefine : define_appends define.

Lemma emits_chain_code op L l c ls c' :
  emits_chain define op L l c ls c' -> code c' = code c ++ ls.
Proof.
  induction 1 as [e c l c' He|e e' rest c l c1 ls c2 He _ IH].
  - apply (emits_code _ _ _ _ _ He).
  - rewrite IH. cbn [emit code]. rewrite (emits_code _ _ _ _ _ He).
    rewrite <- !app_assoc. reflexivity.
Qed.

Lemma emit_chain_emits op labelEnd l :
  forall c c',
    l <> [] ->
    (emit_chain (Bytecode define) op labelEnd l c = Emitted c' <->
     exists ls, emits_chain define op (I labelEnd) l c ls c').
Proof.
  induction l as [|e l IH]; intros c c' Hne; [contradiction|].
  destruct l as [|e' rest].
  - cbn [emit_chain]. split.
    + intros H. destruct (Bytecode_emits define Hdefine _ _ _ H) as [ls Hls].
      exists ls. constructor. exact Hls.
    + intros [ls H]. inversion H; subst. eapply emits_run. eassumption.
  - change (emit_chain (Bytecode define) op labelEnd (e :: e' :: rest) c)
      with (andThen (Bytecode define e c) (fun c1 =>
              emit_chain (Bytecode define) op labelEnd (e' :: rest)
                (addInstrJ c1 (ASTLocator e) op Nil 0 (I labelEnd)))).
    unfold addInstrJ. fold (branch op (ASTLocator e) (I labelEnd)).
    split.
    + intros H.
      destruct (Bytecode define e c) as [c1|c1 err|] eqn:He;
        try discriminate. cbn [andThen] in H.
      destruct (Bytecode_emits define Hdefine _ _ _ He) as [la Hla].
      apply IH in H as [ls Hls]; [|discriminate].
      eexists. econstructor; eassumption.
    + intros [ls H]. inversion H as [|? ? ? ? la c1 ls' ? Ha Hr]; subst.
      rewrite (emits_run _ _ _ _ _ Ha). cbn [andThen].
      apply IH; [discriminate|]. eauto.
Qed.

End Chain.

(** [ASTAnd.Bytecode] and [ASTOr.Bytecode].  Without expressions they
    append the constant true and the constant false.  Otherwise they
    generate one label and succeed exactly when the expressions
    compile in order, and the instructions they append are the code of
    each expression but the last followed by a branch to the label,
    [IfNot] for [and] and [If] for [or], then the code of the last
    expression and the label. *)
Theorem and_or_bytecode :
  forall (define : Locator -> Env -> option string -> Flags -> Compiler
                   -> Emit)
         (from : Locator) (e : AST) (rest : list AST) (c c' : Compiler),
    define_appends define ->
    let L := nextLabel c in
    Bytecode define (ASTAnd from []) c
    = Emitted (emit c (mkInstr OpConst (VBoolean true) 0 0 None from)) /\
    Bytecode define (ASTOr from []) c
    = Emitted (emit c (mkInstr OpConst (VBoolean false) 0 0 None from)) /\
    (Bytecode define (ASTAnd from (e :: rest)) c = Emitted c' <->
     exists ls c2,
       emits_chain define OpIfNot L (e :: rest) (bump c 1) ls c2 /\
       c' = emit c2 (label L) /\
       code c' = code c ++ ls ++ [label L]) /\
    (Bytecode define (ASTOr from (e :: rest)) c = Emitted c' <->
     exists ls c2,
       emits_chain define OpIf L (e :: rest) (bump c 1) ls c2 /\
       c' = emit c2 (label L) /\
       code c' = code c ++ ls ++ [label L]).
Proof.
  intros define from e rest c c' Hdefine L.
  split; [reflexivity|]. split; [reflexivity|].
  assert (Hgen : forall op,
             andThen (emit_chain (Bytecode define) op (label L) (e :: rest)
                        (bump c 1))
                     (fun c2 => Emitted (addLabel c2 (label L)))
             = Emitted c' <->
             exists ls c2,
               emits_chain define op L (e :: rest) (bump c 1) ls c2 /\
               c' = emit c2 (label L) /\
               code c' = code c ++ ls ++ [label L]).
  { intros op. split.
    - intros H.
      destruct (emit_chain (Bytecode define) op (label L) (e :: rest)
                  (bump c 1)) as [c2|c2 err|] eqn:Hc; try discriminate.
      cbn [andThen] in H. injection H as <-.
      apply (emit_chain_emits define Hdefine) in Hc as [ls Hls];
        [|discriminate].
      cbn [I label] in Hls.
      exists ls, c2. split; [exact Hls|]. split; [reflexivity|].
      unfold addLabel. cbn [emit code].
      rewrite (emits_chain_code _ _ _ _ _ _ _ Hls). cbn [bump code].
      rewrite <- app_assoc. reflexivity.
    - intros (ls & c2 & Hls & -> & _).
      assert (Hc : emit_chain (Bytecode define) op (label L) (e :: rest)
                     (bump c 1) = Emitted c2).
      { apply (emit_chain_emits define Hdefine); [discriminate|].
        exists ls. exact Hls. }
      rewrite Hc. reflexivity. }
  split; [apply (Hgen OpIfNot)|apply (Hgen OpIf)].
Qed.

(** [(and #t 1)] *)
Definition and_example_compiled : Compiler :=
  match Bytecode define_instr
          (ASTAnd None [ASTConstant None (VBoolean true);
                        ASTConstant None (int 1)]) empty_compiler with
  | Emitted c => c
  | _ => empty_compiler
  end.

Lemma and_or_bytecode_witness :
  let e := ASTConstant None (VBoolean true) in
  let rest := [ASTConstant None (int 1)] in
  let c := empty_compiler in
  let c' := and_example_compiled in
  Bytecode define_instr (ASTAnd None []) c
  = Emitted (emit c (mkInstr OpConst (VBoolean true) 0 0 None None)) /\
  Bytecode define_instr (ASTOr None []) c
  = Emitted (emit c (mkInstr OpConst (VBoolean false) 0 0 None None)) /\
  (Bytecode define_instr (ASTAnd None (e :: rest)) c = Emitted c' <->
   exists ls c2,
     emits_chain define_instr OpIfNot 0 (e :: rest) (bump c 1) ls c2 /\
     c' = emit c2 (label 0) /\
     code c' = code c ++ ls ++ [label 0]) /\
  (Bytecode define_instr (ASTOr None (e :: rest)) c = Emitted c' <->
   exists ls c2,
     emits_chain define_instr OpIf 0 (e :: rest) (bump c 1) ls c2 /\
     c' = emit c2 (label 0) /\
     code c' = code c ++ ls ++ [label 0]).
Proof.
  exact (and_or_bytecode define_instr None (ASTConstant None (VBoolean true))
           [ASTConstant None (int 1)] empty_compiler and_example_compiled
           define_instr_appends).
Defined.

End CompileOpsFacts.
